(** * Summarization pipeline of [backend/pipeline/extractors.py]

    A shallow embedding of the text normalizer, the chunk splitter, the
    per-chunk summarizer, the fan-out scheduler, the merge stage and the
    three pipeline entry points, of the PDF and image extractors, of the
    Tika server with [extract_tika] and of the audio and video
    extractors, followed by the properties established about them.

    Python strings are lists of Unicode code points, Python integers are
    [Z] (indices that only ever come from [enumerate] are [nat]), the
    language-model backend, the thread pool, the status sink and the
    persistence layer are parameters and every effect is recorded in a
    trace.  What the backend puts under ["response"] is any JSON value,
    a Python object of type [value].  The Tika server object, the Whisper model and the temporary
    files live in a world that the runs of a state monad read and
    change; HTTP, FFmpeg and Whisper are parameters there too. *)

From Stdlib Require Import ZArith Lia String Ascii DecimalString.
From stdpp Require Import base list gmap.

Local Open Scope Z_scope.

(** ** Python strings *)

Module Py.

(** A character is a Unicode code point. *)
Definition char := N.
Definition str := list char.

(** ASCII literals of the source text. *)
Definition lit (s : string) : str := map N_of_ascii (list_ascii_of_string s).

Definition NL : char := 10%N.
Definition SPACE : char := 32%N.
Definition DOT : char := 46%N.
(** U+2022, the bullet the prompts and the sentinels start with. *)
Definition BULLET : char := 8226%N.

(** [str.isspace] on one code point (CPython's [_PyUnicode_IsWhitespace]). *)
Definition isspace (c : char) : bool :=
  ((9 <=? c) && (c <=? 13) || (28 <=? c) && (c <=? 32)
   || (c =? 133) || (c =? 160) || (c =? 5760)
   || (8192 <=? c) && (c <=? 8202)
   || (c =? 8232) || (c =? 8233) || (c =? 8239) || (c =? 8287)
   || (c =? 12288))%N.

(** [len(s)] *)
Definition len (s : str) : Z := Z.of_nat (length s).

Fixpoint lstrip (s : str) : str :=
  match s with
  | c :: s' => if isspace c then lstrip s' else s
  | [] => []
  end.

Definition rstrip (s : str) : str := reverse (lstrip (reverse s)).

(** [s.strip()] *)
Definition strip (s : str) : str := rstrip (lstrip s).

(** Truthiness of a string: [if s:] *)
Definition truthy (s : str) : bool :=
  match s with [] => false | _ :: _ => true end.

(** [s.split(sep)] for a one-character separator. *)
Fixpoint split (sep : char) (s : str) : list str :=
  match s with
  | [] => [[]]
  | c :: s' =>
      if (c =? sep)%N then [] :: split sep s'
      else match split sep s' with
           | l :: ls => (c :: l) :: ls
           | [] => [[c]]
           end
  end.

(** [sep.join(parts)] *)
Fixpoint join (sep : str) (parts : list str) : str :=
  match parts with
  | [] => []
  | [p] => p
  | p :: ps => p ++ sep ++ join sep ps
  end.

(** Slice bounds are adjusted as [PySlice_AdjustIndices] does for step 1:
    a negative bound counts from the end, and both are clipped to
    [0, n]. *)
Definition adjust (n i : Z) : Z :=
  if i <? 0 then Z.max (i + n) 0 else Z.min i n.

(** [s[lo:hi]] *)
Definition slice (s : str) (lo hi : Z) : str :=
  let lo' := adjust (len s) lo in
  let hi' := adjust (len s) hi in
  take (Z.to_nat (hi' - lo')) (drop (Z.to_nat lo') s).

(** [s[:hi]] *)
Definition slice_to (s : str) (hi : Z) : str := slice s 0 hi.

(** [s.startswith(p)] *)
Fixpoint startswith (p s : str) : bool :=
  match p, s with
  | [], _ => true
  | a :: p', b :: s' => (a =? b)%N && startswith p' s'
  | _ :: _, [] => false
  end.

(** Candidates [lo + k - 1], ..., [lo] for the start of [sub], highest
    first. *)
Fixpoint rfind_down (sub s : str) (lo k : nat) : Z :=
  match k with
  | O => -1
  | S k' =>
      if startswith sub (drop (lo + k') s) then Z.of_nat (lo + k')
      else rfind_down sub s lo k'
  end.

(** [s.rfind(sub, lo, hi)]: the highest index [i] with
    [s[i:i+len(sub)] == sub] inside [s[lo:hi]], or [-1]. *)
Definition rfind (s sub : str) (lo hi : Z) : Z :=
  let lo' := adjust (len s) lo in
  let hi' := adjust (len s) hi in
  if hi' - lo' <? len sub then -1
  else rfind_down sub s (Z.to_nat lo') (Z.to_nat (hi' - len sub - lo' + 1)).

(** [str(n)] for a non-negative integer. *)
Definition str_of_nat (n : nat) : str :=
  lit (NilZero.string_of_uint (Nat.to_uint n)).

End Py.

Import Py.

(** ** Text normalizer *)

Definition TRUNCATION_NOTICE : str :=
  [NL; NL] ++ lit "[Content truncated for length...]".

Definition DEFAULT_MAX_CHARS : Z := 24000.

(** [lines = [line.strip() for line in text.split("\n") if line.strip()]]
    and [cleaned = "\n".join(lines)]. *)
Definition collapse_lines (text : str) : list str :=
  map strip (filter (fun line => truthy (strip line) = true) (split NL text)).

Definition collapse (text : str) : str := join [NL] (collapse_lines text).

Definition clean_text_for_llm (text : str) (max_chars : Z) : str :=
  let cleaned := collapse text in
  if len cleaned >? max_chars
  then slice_to cleaned max_chars ++ TRUNCATION_NOTICE
  else cleaned.

(** ** Chunk splitter *)

Definition CHUNK_SIZE_TOKENS : Z := 1000.
Definition CHUNK_OVERLAP_TOKENS : Z := 75.
Definition CHARS_PER_TOKEN : Z := 4.
(** The size of the thread pool: it bounds how many calls are in flight,
    not what the scheduler returns. *)
Definition MAX_WORKERS : Z := 2.

(** The end offset one iteration of the loop settles on. *)
Definition chunk_end (text : str) (chunk_chars start : Z) : Z :=
  let text_len := len text in
  let end_ := start + chunk_chars in
  if end_ <? text_len then
    let search_start := Z.max (end_ - 200) start in
    let last_period := rfind text [DOT; SPACE] search_start end_ in
    if last_period >? start then last_period + 1 else end_
  else end_.

(** The value [start] takes at the bottom of the loop body. *)
Definition next_start (text : str) (chunk_chars overlap_chars start : Z) : Z :=
  let end_ := chunk_end text chunk_chars start in
  if end_ <? len text then end_ - overlap_chars else len text.

(** One iteration of the [while] body on the pair [(start, chunks)]. *)
Definition chunk_step (text : str) (chunk_chars overlap_chars : Z)
    (st : Z * list str) : Z * list str :=
  let '(start, chunks) := st in
  let end_ := chunk_end text chunk_chars start in
  let chunk := strip (slice text start end_) in
  (next_start text chunk_chars overlap_chars start,
   if truthy chunk then chunks ++ [chunk] else chunks).

(** The [while start < text_len] loop; [None] when [fuel] iterations did
    not reach the exit. *)
Fixpoint chunk_loop (fuel : nat) (text : str) (chunk_chars overlap_chars : Z)
    (st : Z * list str) : option (list str) :=
  if st.1 <? len text then
    match fuel with
    | O => None
    | S fuel' =>
        chunk_loop fuel' text chunk_chars overlap_chars
          (chunk_step text chunk_chars overlap_chars st)
    end
  else Some st.2.

Definition chunk_text_fuel (fuel : nat) (text : str) (chunk_size overlap : Z)
    : option (list str) :=
  let chunk_chars := chunk_size * CHARS_PER_TOKEN in
  let overlap_chars := overlap * CHARS_PER_TOKEN in
  chunk_loop fuel text chunk_chars overlap_chars (0, []).

(** The spans [(start, end)] the loop visits, with the trimmed chunk each
    one yields; the list [chunk_text] returns keeps the non-empty
    ones. *)
Fixpoint chunk_spans (fuel : nat) (text : str) (chunk_chars overlap_chars : Z)
    (start : Z) : list (Z * Z * str) :=
  if start <? len text then
    match fuel with
    | O => []
    | S fuel' =>
        let end_ := chunk_end text chunk_chars start in
        (start, end_, strip (slice text start end_))
          :: chunk_spans fuel' text chunk_chars overlap_chars
               (next_start text chunk_chars overlap_chars start)
    end
  else [].

(** [chunk_text(text)] with the default sizes, as [generate_summary] calls
    it.  Each iteration then advances [start] by at least 3501, so
    [len(text) + 1] iterations always reach the exit (see
    [chunk_text_default_total]). *)
Definition chunk_text (text : str) : list str :=
  default []
    (chunk_text_fuel (S (length text)) text CHUNK_SIZE_TOKENS CHUNK_OVERLAP_TOKENS).

(** ** Effects

    A run of a pipeline function yields the trace of what it did to the
    outside world, and either the exception it raised or the value it
    returned. *)

Inductive exn :=
  | ReadTimeout (msg : str)  (** [httpx.ReadTimeout] *)
  | OtherError (msg : str)   (** any other [Exception] of a collaborator:
                                 transport and HTTP status errors, the other
                                 timeouts, JSON decoding, storage errors *)
  | ValueError (msg : str)
  | TypeError (msg : str)
  | AttributeError (msg : str).

(** [str(e)] *)
Definition exn_str (e : exn) : str :=
  match e with
  | ReadTimeout m | OtherError m | ValueError m | TypeError m
  | AttributeError m => m
  end.

(** The JSON body posted to [LLAMA_API_URL]; the model is always
    ["llama3.2:3b"] and [stream] is always [False].  Temperature and
    [top_p] are in hundredths, the timeout in seconds. *)
Record request := {
  prompt : str;
  temperature : Z;
  num_predict : Z;
  top_p : Z;
  timeout : Z
}.

(** A Python object as [response.json()] makes it from a JSON value: a
    string, [None], a [bool], an [int], a [float], a [list] or a [dict].
    Of a number only its being zero matters here, of a list and a
    dictionary only their being empty. *)
Inductive value :=
  | VStr (s : str)
  | VNone
  | VBool (b : bool)
  | VInt (n : Z)
  | VFloat (is_zero : bool)
  | VList (is_empty : bool)
  | VDict (is_empty : bool).

(** Truthiness of an object: [if v:] *)
Definition truthy_value (v : value) : bool :=
  match v with
  | VStr s => truthy s
  | VNone => false
  | VBool b => b
  | VInt n => negb (n =? 0)
  | VFloat is_zero => negb is_zero
  | VList is_empty | VDict is_empty => negb is_empty
  end.

(** [type(v).__name__] *)
Definition type_name (v : value) : str :=
  match v with
  | VStr _ => lit "str"
  | VNone => lit "NoneType"
  | VBool _ => lit "bool"
  | VInt _ => lit "int"
  | VFloat _ => lit "float"
  | VList _ => lit "list"
  | VDict _ => lit "dict"
  end.

(** The message of the [AttributeError] that [v.name] raises. *)
Definition no_attribute (v : value) (name : str) : str :=
  lit "'" ++ type_name v ++ lit "' object has no attribute '" ++ name ++ lit "'".

(** What a call to the backend does: it raises (the client, the status
    check, the JSON decoder, or [result.get] on a body that is not an
    object), or answers with a JSON object whose ["response"] member, when
    present, is any JSON value. *)
Inductive reply :=
  | Response (response : option value)
  | Raises (e : exn).

Inductive status := Extracting | Summarizing | Complete | Error.

(** The document [update_status] writes (the two timestamps apart). *)
Record status_doc := {
  sd_firebase_uid : str;
  sd_file_id : str;
  sd_status : status;
  sd_progress : Z;
  sd_message : str
}.

(** The row inserted into the [summaries] table. *)
Record summary_row := {
  document_id : str;
  firebase_uid : str;
  summary_text : str;
  version : Z
}.

Inductive event :=
  | EvBackend (r : request)        (** a request was posted to the backend *)
  | EvChunks (chunks : list str)   (** [chunk_text] built this chunk list *)
  | EvStatus (d : status_doc)      (** a status document was sent to the sink *)
  | EvInsert (row : summary_row).  (** a summary row was sent to the table *)

Definition M (A : Type) : Type := list event * (exn + A).

#[export] Instance M_ret : MRet M := fun A a => ([], inr a).

#[export] Instance M_bind : MBind M := fun A B f m =>
  match m.2 with
  | inl e => (m.1, inl e)
  | inr a => (m.1 ++ (f a).1, (f a).2)
  end.

(** [raise e] *)
Definition raise {A} (e : exn) : M A := ([], inl e).

(** [emit ev] records one effect. *)
Definition emit (ev : event) : M unit := ([ev], inr tt).

(** [try: body / except Exception as e: handler e] *)
Definition try_except {A} (body : M A) (handler : exn -> M A) : M A :=
  match body.2 with
  | inl e => (body.1 ++ (handler e).1, (handler e).2)
  | inr _ => body
  end.

Definition trace {A} (m : M A) : list event := m.1.
Definition outcome {A} (m : M A) : exn + A := m.2.

(** No request reached the backend. *)
Definition no_backend_call (t : list event) : Prop :=
  forall r, EvBackend r ∉ t.

(** No chunk list was built. *)
Definition no_chunks (t : list event) : Prop :=
  forall cs, EvChunks cs ∉ t.

(** ** Prompts and requests *)

Definition chunk_prompt (chunk : str) : str :=
  lit "Extract the key points from this study material as brief bullet points."
  ++ [NL] ++ lit "Be concise and factual. Use 3-5 bullet points maximum."
  ++ [NL; NL] ++ lit "Content:" ++ [NL] ++ chunk
  ++ [NL; NL] ++ lit "Key Points:" ++ [NL; BULLET].

Definition single_prompt (text : str) : str :=
  lit "You are a study assistant. Create a concise summary of this study material."
  ++ [NL; NL] ++ lit "Focus on:"
  ++ [NL] ++ lit "- Key concepts and definitions"
  ++ [NL] ++ lit "- Main arguments or ideas"
  ++ [NL] ++ lit "- Important facts"
  ++ [NL; NL] ++ lit "Study Material:" ++ [NL] ++ text
  ++ [NL; NL] ++ lit "Summary:".

Definition merge_prompt (combined_bullets : str) : str :=
  lit "You are a study assistant. Below are key points extracted from different sections of a study document."
  ++ [NL] ++ lit "Synthesize these into a clear, coherent summary. Remove any redundancy and organize logically."
  ++ [NL; NL] ++ lit "Key Points from Document:" ++ [NL] ++ combined_bullets
  ++ [NL; NL] ++ lit "Final Summary:".

Definition chunk_request (chunk : str) : request :=
  {| prompt := chunk_prompt chunk; temperature := 10; num_predict := 512;
     top_p := 90; timeout := 120 |}.

Definition single_request (text : str) : request :=
  {| prompt := single_prompt text; temperature := 15; num_predict := 1024;
     top_p := 90; timeout := 180 |}.

Definition merge_request (combined_bullets : str) : request :=
  {| prompt := merge_prompt combined_bullets; temperature := 20;
     num_predict := 1024; top_p := 90; timeout := 180 |}.

(** The sentinel [summarize_chunk_sync] returns when its call fails. *)
Definition chunk_failure_sentinel (chunk_idx : nat) (e : exn) : str :=
  [BULLET; SPACE] ++ lit "[Chunk " ++ str_of_nat (chunk_idx + 1)
  ++ lit " processing failed: " ++ slice_to (exn_str e) 50 ++ lit "]".

(** The sentinel the scheduler stores when a future raises. *)
Definition task_failure_sentinel (idx : nat) : str :=
  [BULLET; SPACE] ++ lit "[Chunk " ++ str_of_nat (idx + 1) ++ lit " failed]".

(** [Chunk N], the part of both sentinels that names the chunk. *)
Definition chunk_tag (idx : nat) : str :=
  lit "[Chunk " ++ str_of_nat (idx + 1).

(** [sub in s] *)
Definition contains (sub s : str) : Prop :=
  exists pre post, s = pre ++ sub ++ post.

(** The items of a join from index [i] on: the strings, or the
    [TypeError] of the first item that is not a string. *)
Fixpoint join_items (i : nat) (items : list value) : exn + list str :=
  match items with
  | [] => inr []
  | VStr s :: rest =>
      match join_items (S i) rest with
      | inr parts => inr (s :: parts)
      | inl e => inl e
      end
  | v :: _ =>
      inl (TypeError (lit "sequence item " ++ str_of_nat i
                      ++ lit ": expected str instance, " ++ type_name v
                      ++ lit " found"))
  end.

(** ["\n".join(chunk_summaries)] *)
Definition join_summaries (chunk_summaries : list value) : M str :=
  match join_items 0 chunk_summaries with
  | inr parts => mret (join [NL] parts)
  | inl e => raise e
  end.

(** ** The pipeline *)

Section Pipeline.

(** The language-model backend. *)
Variable backend : request -> reply.

(** A failure of the thread pool itself for the task of a given index
    (a cancelled future, a broken pool), raised by [future.result()];
    [None] when the pool runs the task and hands back what it
    returned. *)
Variable pool_fault : nat -> option exn.

(** The order in which [as_completed] yields the futures. *)
Variable as_completed : list (M value * nat) -> list (M value * nat).

(** The status sink and the persistence layer: [None] on success. *)
Variable firestore_set : status_doc -> option exn.
Variable supabase_insert : summary_row -> option exn.

(** The extraction collaborators. *)
Variable download_from_storage : str -> exn + list N.
Variable extract_pdf : list N -> exn + str.
Variable extract_tika : list N -> str -> exn + str.
Variable extract_image_ocr : list N -> exn + str.
Variable extract_audio : list N -> str -> exn + str.
Variable extract_video : list N -> str -> exn + str.
Variable extract_url : str -> exn + str.

(** One call to the backend: the request is sent, then the client
    raises or the ["response"] member is read, the empty string standing
    in for a missing one: [result.get("response", "")]. *)
Definition post (req : request) : M value :=
  _ ← emit (EvBackend req);
  match backend req with
  | Response r => mret (default (VStr []) r)
  | Raises e => raise e
  end.

(** [if summary and not summary.strip().startswith("•")]: an object that
    is falsy is returned as it is; one that is truthy is asked for its
    [strip], which only a string has. *)
Definition summarize_chunk_sync (chunk : str) (chunk_idx : nat) : M value :=
  try_except
    (summary ← post (chunk_request chunk);
     match summary with
     | VStr s =>
         if truthy s && negb (startswith [BULLET] (strip s))
         then mret (VStr ([BULLET; SPACE] ++ s))
         else mret summary
     | _ =>
         if truthy_value summary
         then raise (AttributeError (no_attribute summary (lit "strip")))
         else mret summary
     end)
    (fun e => mret (VStr (chunk_failure_sentinel chunk_idx e))).

Definition _generate_single_summary (text : str) : M value :=
  try_except
    (post (single_request text))
    (fun e =>
       match e with
       | ReadTimeout _ =>
           raise (ValueError (lit "Summary generation timed out. Please try with a smaller document."))
       | _ => raise (ValueError (lit "Summary generation failed: " ++ exn_str e))
       end).

Definition _merge_summaries (chunk_summaries : list value) : M value :=
  combined_bullets ← join_summaries chunk_summaries;
  try_except
    (post (merge_request combined_bullets))
    (fun e =>
       match e with
       | ReadTimeout _ =>
           mret (VStr (lit "Key Points:" ++ [NL] ++ combined_bullets))
       | _ => raise (ValueError (lit "Summary merge failed: " ++ exn_str e))
       end).

(** [executor.submit(summarize_chunk_sync, chunk, idx)]: the future, as
    the run [future.result()] gives back. *)
Definition submit (chunk : str) (idx : nat) : M value :=
  match pool_fault idx with
  | Some e => raise e
  | None => summarize_chunk_sync chunk idx
  end.

(** The body of the [for future in as_completed(...)] loop. *)
Definition collect (acc : M (list value)) (entry : M value * nat)
    : M (list value) :=
  chunk_summaries ← acc;
  let '(future, idx) := entry in
  summary ← try_except future
              (fun _ => mret (VStr (task_failure_sentinel idx)));
  mret (<[idx := summary]> chunk_summaries).

(** [chunk_summaries = [None] * len(chunks)], then the futures and the
    loop over them. *)
Definition _parallel_chunk_summarization (chunks : list str)
    : M (list value) :=
  let chunk_summaries := replicate (length chunks) VNone in
  let future_to_idx := imap (fun idx chunk => (submit chunk idx, idx)) chunks in
  foldl collect (mret chunk_summaries) (as_completed future_to_idx).

(** The sequential loop over [enumerate(chunks)], from index [i]. *)
Fixpoint summarize_each (i : nat) (chunks : list str) : M (list value) :=
  match chunks with
  | [] => mret []
  | chunk :: rest =>
      summary ← summarize_chunk_sync chunk i;
      summaries ← summarize_each (S i) rest;
      mret (summary :: summaries)
  end.

Definition SHORT_TEXT_THRESHOLD : Z := 3000.

Definition generate_summary (text : str) : M value :=
  let cleaned_text := clean_text_for_llm text DEFAULT_MAX_CHARS in
  if len cleaned_text <? SHORT_TEXT_THRESHOLD then
    _generate_single_summary cleaned_text
  else
    let chunks := chunk_text cleaned_text in
    _ ← emit (EvChunks chunks);
    chunk_summaries ←
      (if (length chunks <=? 2)%nat then summarize_each 0 chunks
       else _parallel_chunk_summarization chunks);
    _merge_summaries chunk_summaries.

(** Lifting a collaborator's result. *)
Definition call {A} (r : exn + A) : M A := ([], r).

Definition update_status (uid file_id : str) (st : status) (progress : Z)
    (message : str) : M unit :=
  let d := {| sd_firebase_uid := uid; sd_file_id := file_id; sd_status := st;
              sd_progress := progress; sd_message := message |} in
  _ ← emit (EvStatus d);
  match firestore_set d with
  | None => mret tt
  | Some e => raise e
  end.

Definition insert_summary (uid file_id summary : str) : M unit :=
  let row := {| document_id := file_id; firebase_uid := uid;
                summary_text := summary; version := 1 |} in
  _ ← emit (EvInsert row);
  match supabase_insert row with
  | None => mret tt
  | Some e => raise e
  end.

(** [not s or not s.strip()] *)
Definition blank (s : str) : bool :=
  negb (truthy s) || negb (truthy (strip s)).

(** [if not summary_text or not summary_text.strip(): raise
    ValueError(...)]: a falsy object and a blank string are refused, a
    truthy object that is not a string has no [strip], and what passes is
    a string that is not blank. *)
Definition checked_summary (summary_text : value) : M str :=
  match summary_text with
  | VStr s =>
      if blank s then raise (ValueError (lit "Failed to generate summary"))
      else mret s
  | _ =>
      if truthy_value summary_text
      then raise (AttributeError (no_attribute summary_text (lit "strip")))
      else raise (ValueError (lit "Failed to generate summary"))
  end.

(** The tail the three entry points share: summarize, validate, persist,
    report completion. *)
Definition summarize_and_save (uid file_id text : str) : M unit :=
  summary_text ← generate_summary text;
  summary ← checked_summary summary_text;
  _ ← insert_summary uid file_id summary;
  update_status uid file_id Complete 100 (lit "Summary generated successfully!").

(** [except Exception as e: await update_status(..., "error", 0, str(e)); raise] *)
Definition report_error {A} (uid file_id : str) (e : exn) : M A :=
  _ ← update_status uid file_id Error 0 (exn_str e);
  raise e.

Definition process_text (uid file_id text title : str) : M unit :=
  try_except
    (_ ← update_status uid file_id Summarizing 50 (lit "Generating AI summary...");
     summarize_and_save uid file_id text)
    (report_error uid file_id).

Definition process_url (uid file_id url : str) : M unit :=
  try_except
    (_ ← update_status uid file_id Extracting 40 (lit "Extracting content from URL...");
     extracted_text ← call (extract_url url);
     _ ← (if blank extracted_text
          then raise (ValueError (lit "No content could be extracted from URL"))
          else mret tt);
     _ ← update_status uid file_id Summarizing 70 (lit "Generating AI summary...");
     summarize_and_save uid file_id extracted_text)
    (report_error uid file_id).

(** [storage_path.split(".")[-1] if "." in storage_path else file_type] *)
Definition file_extension (storage_path file_type : str) : str :=
  if bool_decide (DOT ∈ storage_path)
  then List.last (split DOT storage_path) []
  else file_type.

Definition extract_by_type (file_type : str) (file_bytes : list N)
    (file_ext : str) : M str :=
  if bool_decide (file_type = lit "pdf") then call (extract_pdf file_bytes)
  else if bool_decide (file_type = lit "docx") || bool_decide (file_type = lit "pptx")
  then call (extract_tika file_bytes file_ext)
  else if bool_decide (file_type = lit "image") then call (extract_image_ocr file_bytes)
  else if bool_decide (file_type = lit "audio") then call (extract_audio file_bytes file_ext)
  else if bool_decide (file_type = lit "video") then call (extract_video file_bytes file_ext)
  else raise (ValueError (lit "Unsupported file type: " ++ file_type)).

Definition process_file (uid file_id storage_path file_type : str) : M unit :=
  try_except
    (_ ← update_status uid file_id Extracting 40
           (lit "Extracting text from " ++ file_type ++ lit "...");
     file_bytes ← call (download_from_storage storage_path);
     let file_ext := file_extension storage_path file_type in
     extracted_text ← extract_by_type file_type file_bytes file_ext;
     _ ← (if blank extracted_text
          then raise (ValueError (lit "No text could be extracted from file"))
          else mret tt);
     _ ← update_status uid file_id Summarizing 70 (lit "Generating AI summary...");
     summarize_and_save uid file_id extracted_text)
    (report_error uid file_id).

End Pipeline.

(** ** Extractors *)

Module Extractors.

(** [extract_pdf], given what PyMuPDF makes of the bytes: it raises, or
    yields the text of every page.  Pages that are blank after trimming
    are dropped and the others joined with an empty line between them. *)
Definition extract_pdf (fitz_open : list N -> exn + list str)
    (file_bytes : list N) : exn + str :=
  match fitz_open file_bytes with
  | inl e => inl e
  | inr pages =>
      let text_parts :=
        filter (fun page_text => truthy (strip page_text) = true) pages in
      inr (join [NL; NL] text_parts)
  end.

(** [extract_image_ocr], given what Pillow and Tesseract make of the
    bytes: the recognised text, trimmed. *)
Definition extract_image_ocr (image_to_string : list N -> exn + str)
    (file_bytes : list N) : exn + str :=
  match image_to_string file_bytes with
  | inl e => inl e
  | inr text => inr (strip text)
  end.

End Extractors.

(** ** Stateful collaborators

    The Tika server object and the temporary files live in a world that
    a run reads and changes; a run yields the world it leaves and either
    the exception it raised or the value it returned. *)

Definition St (W A : Type) : Type := W -> W * (exn + A).

#[export] Instance St_ret {W} : MRet (St W) := fun A a w => (w, inr a).

#[export] Instance St_bind {W} : MBind (St W) := fun A B f m w =>
  match m w with
  | (w', inl e) => (w', inl e)
  | (w', inr a) => f a w'
  end.

Definition st_raise {W A} (e : exn) : St W A := fun w => (w, inl e).

Definition st_get {W} : St W W := fun w => (w, inr w).

Definition st_modify {W} (g : W -> W) : St W unit := fun w => (g w, inr tt).

(** [try: body / except: handler] *)
Definition st_try_except {W A} (body : St W A) (handler : exn -> St W A)
    : St W A := fun w =>
  match body w with
  | (w', inl e) => handler e w'
  | (w', inr a) => (w', inr a)
  end.

(** [try: body / finally: final]: an exception of [final] replaces the
    outcome of [body]. *)
Definition st_try_finally {W A} (body : St W A) (final : St W unit)
    : St W A := fun w =>
  match body w with
  | (w', r) =>
      match final w' with
      | (w'', inl e) => (w'', inl e)
      | (w'', inr _) => (w'', r)
      end
  end.

(** ** The Tika server *)

Module TikaServer.

(** What the download of the JAR does: it succeeds, or it fails, before
    or after the file was created on disk. *)
Inductive fetch_result :=
  | Fetched
  | FetchFailed (e : exn) (file_created : bool).

Inductive event :=
  | Fetch                     (** the JAR was requested *)
  | Probe                     (** [GET /tika] *)
  | Spawn                     (** [subprocess.Popen] of the server *)
  | Sleep                     (** [time.sleep(1)] *)
  | Put (content_type : str). (** [PUT /tika] *)

(** The fields of the object that change: [running] and [process]. *)
Record state := { running : bool; process : option nat }.

(** The object, whether the JAR is on disk, how many HTTP requests were
    sent so far, and what was done. *)
Record world := {
  server : state;
  jar_on_disk : bool;
  requests_sent : nat;
  log : list event
}.

Definition record (ev : event) : St world unit :=
  st_modify (fun w =>
    {| server := server w; jar_on_disk := jar_on_disk w;
       requests_sent := requests_sent w; log := log w ++ [ev] |}).

Definition count_request : St world unit :=
  st_modify (fun w =>
    {| server := server w; jar_on_disk := jar_on_disk w;
       requests_sent := S (requests_sent w); log := log w |}).

Definition set_running (b : bool) : St world unit :=
  st_modify (fun w =>
    {| server := {| running := b; process := process (server w) |};
       jar_on_disk := jar_on_disk w; requests_sent := requests_sent w;
       log := log w |}).

Definition set_process (h : nat) : St world unit :=
  st_modify (fun w =>
    {| server := {| running := running (server w); process := Some h |};
       jar_on_disk := jar_on_disk w; requests_sent := requests_sent w;
       log := log w |}).

Definition set_jar_on_disk : St world unit :=
  st_modify (fun w =>
    {| server := server w; jar_on_disk := true;
       requests_sent := requests_sent w; log := log w |}).

Section Server.

(** The download of the JAR. *)
Variable fetch : fetch_result.

(** The answer to the [k]-th HTTP request sent to the server: the status
    code of a [GET /tika], or an exception. *)
Variable http_get : nat -> exn + Z.

(** [subprocess.Popen]: the handle of the new process, or an exception. *)
Variable popen : exn + nat.

(** The answer to a [PUT /tika] sent as the [k]-th request, after
    [raise_for_status]: the text of the response, or an exception. *)
Variable http_put : nat -> list N -> str -> exn + str.

Definition download_tika : St world unit :=
  w ← st_get;
  if jar_on_disk w then mret tt
  else
    _ ← record Fetch;
    match fetch with
    | Fetched => set_jar_on_disk
    | FetchFailed e file_created =>
        _ ← (if file_created then set_jar_on_disk else mret tt);
        st_raise e
    end.

(** [requests.get(f"{self.url}/tika", timeout=...)] and its status code. *)
Definition get_tika : St world Z :=
  w ← st_get;
  _ ← record Probe;
  _ ← count_request;
  match http_get (requests_sent w) with
  | inl e => st_raise e
  | inr status_code => mret status_code
  end.

(** The [for _ in range(n)] loop that waits for the server, and the
    [raise] after it. *)
Fixpoint wait_for_server (n : nat) : St world unit :=
  match n with
  | O => st_raise (OtherError (lit "Tika server failed to start"))
  | S n' =>
      answered ←
        st_try_except
          (status_code ← get_tika;
           if status_code =? 200
           then _ ← set_running true; mret true
           else mret false)
          (fun _ => _ ← record Sleep; mret false);
      if answered : bool then mret tt else wait_for_server n'
  end.

Definition start_server : St world unit :=
  w ← st_get;
  if running (server w) then mret tt
  else
    _ ← download_tika;
    answered ←
      st_try_except
        (status_code ← get_tika;
         if status_code =? 200
         then _ ← set_running true; mret true
         else mret false)
        (fun _ => mret false);
    if answered : bool then mret tt
    else
      _ ← record Spawn;
      _ ← match popen with
          | inl e => st_raise e
          | inr h => set_process h
          end;
      wait_for_server 30.

Definition extract_text (file_bytes : list N) (content_type : str) : St world str :=
  w ← st_get;
  _ ← (if running (server w) then mret tt else start_server);
  st_try_except
    (w' ← st_get;
     _ ← record (Put content_type);
     _ ← count_request;
     match http_put (requests_sent w') file_bytes content_type with
     | inl e => st_raise e
     | inr text => mret (strip text)
     end)
    (fun _ => mret []).

End Server.

End TikaServer.

Module Tika.

(** The table [mime_types] of [extract_tika]. *)
Definition mime_types : gmap (list N) (list N) :=
  list_to_map
    [(lit "docx", lit "application/vnd.openxmlformats-officedocument.wordprocessingml.document");
     (lit "pptx", lit "application/vnd.openxmlformats-officedocument.presentationml.presentation");
     (lit "doc", lit "application/msword");
     (lit "ppt", lit "application/vnd.ms-powerpoint")].

Section ExtractTika.

Variable fetch : TikaServer.fetch_result.
Variable http_get : nat -> exn + Z.
Variable popen : exn + nat.
Variable http_put : nat -> list N -> str -> exn + str.

(** [str.lower] *)
Variable lower : str -> str.

Definition extract_tika (file_bytes : list N) (file_ext : str)
    : St TikaServer.world str :=
  let content_type :=
    default (lit "application/octet-stream") (mime_types !! lower file_ext) in
  st_try_except
    (content ← TikaServer.extract_text fetch http_get popen http_put
                 file_bytes content_type;
     if truthy content
     then
       let lines :=
         map strip (filter (fun line => truthy (strip line) = true)
                           (split NL content)) in
       mret (join [NL] lines)
     else mret [])
    (fun _ => mret []).

End ExtractTika.

End Tika.

(** ** Audio and video: temporary files, FFmpeg and Whisper *)

(** [s.replace(old, new)]: the occurrences of [old] are replaced from the
    left, without overlap. *)
Fixpoint replace_from (fuel : nat) (s old new : str) : str :=
  match fuel, s with
  | S fuel', c :: s' =>
      if startswith old s
      then new ++ replace_from fuel' (drop (length old) s) old new
      else c :: replace_from fuel' s' old new
  | _, _ => s
  end.

Definition replace (s old new : str) : str :=
  match old with
  | [] => new ++ mjoin (map (fun c => c :: new) s)
  | _ :: _ => replace_from (length s) s old new
  end.

Module Media.

Inductive event :=
  | LoadModel                        (** [whisper.load_model("base")] *)
  | Transcribe (path : str)          (** [model.transcribe(path)] *)
  | Ffmpeg (video_path audio_path : str).  (** [subprocess.run([ffmpeg, ...])] *)

(** What the FFmpeg run does: it writes the audio file and exits with 0,
    or it fails, with or without an output file left behind. *)
Inductive ffmpeg_result :=
  | Converted
  | FfmpegFailed (e : exn) (output_created : bool).

(** The paths that exist, the module variable [_whisper_model], how many
    temporary files were made so far, and what was done. *)
Record world := {
  files : gset (list N);
  whisper_model : option nat;
  temp_files : nat;
  log : list event
}.

Definition record (ev : event) : St world unit :=
  st_modify (fun w =>
    {| files := files w; whisper_model := whisper_model w;
       temp_files := temp_files w; log := log w ++ [ev] |}).

Definition set_files (f : gset (list N) -> gset (list N)) : St world unit :=
  st_modify (fun w =>
    {| files := f (files w); whisper_model := whisper_model w;
       temp_files := temp_files w; log := log w |}).

Definition set_whisper_model (model : nat) : St world unit :=
  st_modify (fun w =>
    {| files := files w; whisper_model := Some model;
       temp_files := temp_files w; log := log w |}).

Definition count_temp_file : St world unit :=
  st_modify (fun w =>
    {| files := files w; whisper_model := whisper_model w;
       temp_files := S (temp_files w); log := log w |}).

(** [os.path.exists(path)] *)
Definition exists_ (path : str) : St world bool :=
  w ← st_get; mret (bool_decide (path ∈ files w)).

(** [os.unlink(path)] *)
Definition unlink (path : str) : St world unit :=
  present ← exists_ path;
  if present : bool then set_files (fun fs => fs ∖ {[path]})
  else st_raise (OtherError (lit "FileNotFoundError")).

Section Media.

(** Directory, prefix and random part of the name of the [k]-th temporary
    file. *)
Variable temp_stem : nat -> str.

(** The creation of the temporary file at a path: [None] when the file
    was made, an exception with nothing on disk otherwise (a suffix
    that holds a path separator names a directory that does not
    exist). *)
Variable create : str -> option exn.

(** [tmp.write(file_bytes)] *)
Variable write : list N -> option exn.

(** [whisper.load_model("base")] *)
Variable load_model : exn + nat.

(** [model.transcribe(path)["text"]] *)
Variable transcribe : nat -> str -> exn + str.

(** The FFmpeg run, from the video path and the audio path. *)
Variable run_ffmpeg : str -> str -> ffmpeg_result.

Definition get_whisper_model : St world nat :=
  w ← st_get;
  match whisper_model w with
  | Some model => mret model
  | None =>
      _ ← record LoadModel;
      match load_model with
      | inl e => st_raise e
      | inr model => _ ← set_whisper_model model; mret model
      end
  end.

(** [with tempfile.NamedTemporaryFile(suffix=..., delete=False) as tmp:
    tmp.write(file_bytes); tmp_path = tmp.name] *)
Definition named_temporary_file (suffix : str) (file_bytes : list N)
    : St world str :=
  w ← st_get;
  let name := temp_stem (temp_files w) ++ suffix in
  _ ← count_temp_file;
  match create name with
  | Some e => st_raise e
  | None =>
      _ ← set_files (fun fs => {[name]} ∪ fs);
      match write file_bytes with
      | Some e => st_raise e
      | None => mret name
      end
  end.

Definition extract_audio (file_bytes : list N) (file_ext : str)
    : St world str :=
  tmp_path ← named_temporary_file (DOT :: file_ext) file_bytes;
  st_try_finally
    (model ← get_whisper_model;
     _ ← record (Transcribe tmp_path);
     match transcribe model tmp_path with
     | inl e => st_raise e
     | inr text => mret text
     end)
    (unlink tmp_path).

Definition extract_video (file_bytes : list N) (file_ext : str)
    : St world str :=
  video_path ← named_temporary_file (DOT :: file_ext) file_bytes;
  let audio_path := replace video_path (DOT :: file_ext) (lit ".wav") in
  st_try_finally
    (_ ← record (Ffmpeg video_path audio_path);
     _ ← match run_ffmpeg video_path audio_path with
         | Converted => set_files (fun fs => {[audio_path]} ∪ fs)
         | FfmpegFailed e output_created =>
             _ ← (if output_created
                  then set_files (fun fs => {[audio_path]} ∪ fs)
                  else mret tt);
             st_raise e
         end;
     model ← get_whisper_model;
     _ ← record (Transcribe audio_path);
     match transcribe model audio_path with
     | inl e => st_raise e
     | inr text => mret text
     end)
    (video_left ← exists_ video_path;
     _ ← (if video_left : bool then unlink video_path else mret tt);
     audio_left ← exists_ audio_path;
     if audio_left : bool then unlink audio_path else mret tt).

End Media.

End Media.

(** ** Vocabulary of the properties *)

(** A line is blank when trimming leaves nothing of it. *)
Definition blank_line (line : str) : Prop := strip line = [].

(** A text has no blank lines: it is empty, or none of the lines
    [split("\n")] cuts it into is blank. *)
Definition no_blank_lines (s : str) : Prop :=
  s = [] \/ Forall (fun line => ~ blank_line line) (split NL s).

(** A visited span is in the output when its trimmed text is not empty. *)
Definition emitted (spans : list (Z * Z * str)) : list (Z * Z * str) :=
  filter (fun sp => truthy sp.2 = true) spans.

(** Position [i] lies in the span [sp]. *)
Definition in_span (i : Z) (sp : Z * Z * str) : Prop :=
  sp.1.1 <= i < sp.1.2.

(** A configuration in which the overlap is not negative and stays at
    least 200 characters, the width of the look-back window, below the
    chunk size. *)
Definition advancing (chunk_chars overlap_chars : Z) : Prop :=
  0 <= overlap_chars /\ overlap_chars + 200 <= chunk_chars.

(** The object the scheduler's loop stores for a future: what the future
    returned, or the task sentinel when it raised. *)
Definition slot_of (future : M value) (idx : nat) : value :=
  match future.2 with
  | inr summary => summary
  | inl _ => VStr (task_failure_sentinel idx)
  end.

(** The slots after the loop went through [entries]. *)
Definition fill (slots : list value) (entries : list (M value * nat))
    : list value :=
  foldl (fun sl entry => <[entry.2 := slot_of entry.1 entry.2]> sl)
        slots entries.

(** [as_completed] yields every future it is given, once. *)
Definition yields_each_once
    (as_completed : list (M value * nat) -> list (M value * nat)) : Prop :=
  forall futures, as_completed futures ≡ₚ futures.

(** A falsy object that is not a string: [None], [False], [0], [0.0],
    [[]] or [{}]. *)
Definition falsy_non_string (v : value) : Prop :=
  truthy_value v = false /\ forall s, v <> VStr s.

(** The backend never answers the request of a chunk with a ["response"]
    member that is falsy and not a string. *)
Definition answers_chunks_with_text (backend : request -> reply) : Prop :=
  forall chunk v,
    backend (chunk_request chunk) = Response (Some v) -> ~ falsy_non_string v.

(** The segment summaries the fan-out stage hands to the merge stage:
    those of the sequential loop for at most two chunks, those of the
    scheduler otherwise. *)
Definition segment_summaries (backend : request -> reply)
    (pool_fault : nat -> option exn) (chunks : list str) : list value :=
  if (length chunks <=? 2)%nat
  then imap (fun idx chunk => slot_of (summarize_chunk_sync backend chunk idx) idx) chunks
  else imap (fun idx chunk => slot_of (submit backend pool_fault chunk idx) idx) chunks.

(** The status document of a successful run. *)
Definition complete_doc (uid file_id : str) : status_doc :=
  {| sd_firebase_uid := uid; sd_file_id := file_id; sd_status := Complete;
     sd_progress := 100; sd_message := lit "Summary generated successfully!" |}.

(** The characters of a string that are not white space, in order. *)
Definition visible (s : list N) : list N :=
  filter (fun c : N => isspace c = false) s.

(** The requests a trace sent to the backend, in order. *)
Definition requests_of (t : list event) : list request :=
  omap (fun ev => match ev with EvBackend r => Some r | _ => None end) t.

(** The rows a trace sent to the table, in order. *)
Definition inserts_of (t : list event) : list summary_row :=
  omap (fun ev => match ev with EvInsert row => Some row | _ => None end) t.

(** The status document the [except] handler of an entry point writes. *)
Definition error_doc (uid file_id : str) (e : exn) : status_doc :=
  {| sd_firebase_uid := uid; sd_file_id := file_id; sd_status := Error;
     sd_progress := 0; sd_message := exn_str e |}.

(** The least distance the default configuration advances [start] by. *)
Definition stride (chunk_chars overlap_chars : Z) : Z :=
  chunk_chars - 199 - overlap_chars.

(** The requests the task of one chunk sends: none when the pool loses
    the task. *)
Definition task_requests (pool_fault : nat -> option exn) (idx : nat)
    (chunk : str) : list request :=
  match pool_fault idx with
  | Some _ => []
  | None => [chunk_request chunk]
  end.

(** What a run may have sent to the table: nothing, or one row, whose
    summary is not blank. *)
Definition stores_at_most_one (uid file_id : str) (rows : list summary_row) : Prop :=
  rows = []
  \/ exists summary,
       blank summary = false
       /\ rows = [{| document_id := file_id; firebase_uid := uid;
                     summary_text := summary; version := 1 |}].

(** A summary the entry points refuse as not generated: an object that
    is falsy, the empty string included, or a string that is blank. *)
Definition not_generated (v : value) : Prop :=
  truthy_value v = false \/ exists s, v = VStr s /\ blank s = true.


(** [st_spec P m Q]: from every world that satisfies [P], the run [m]
    leaves a world and an outcome that satisfy [Q]. *)
Definition st_spec {W A} (P : W -> Prop) (m : St W A)
    (Q : W -> exn + A -> Prop) : Prop :=
  forall w, P w -> Q (m w).1 (m w).2.

(** The server object is marked as not running, the JAR is on disk or
    not as [jar] says, and at most [k] requests were sent. *)
Definition tika_off (jar : bool) (k : nat) (w : TikaServer.world) : Prop :=
  TikaServer.running (TikaServer.server w) = false
  /\ (jar = true -> TikaServer.jar_on_disk w = true)
  /\ (TikaServer.requests_sent w <= k)%nat.

(** A start attempt returned with the server marked as running and the
    JAR on disk, or raised with the server marked as not running; at
    most [k] requests were sent. *)
Definition tika_started_or_failed (jar : bool) (k : nat)
    (w : TikaServer.world) (r : exn + unit) : Prop :=
  (r = inr tt /\ TikaServer.running (TikaServer.server w) = true
     /\ (jar = true -> TikaServer.jar_on_disk w = true)
   \/ (exists e, r = inl e)
      /\ TikaServer.running (TikaServer.server w) = false)
  /\ (TikaServer.requests_sent w <= k)%nat.

(** ** Inputs the properties are evaluated on *)

(** 24,001 letters [a] on one line: one more than the default cap. *)
Definition over_cap_text : str := repeat 97%N (Z.to_nat 24001).

(** 23,999 letters [a], a space and a letter [b]: the cut at 24,000 falls
    just after the space. *)
Definition cut_after_space_text : str :=
  repeat 97%N (Z.to_nat 23999) ++ lit " b".

(** One line: a letter, 7,700 spaces, a letter. *)
Definition gap_text : str := [97%N] ++ repeat SPACE (Z.to_nat 7700) ++ [98%N].

(** Eight letters and no sentence end. *)
Definition stall_text : str := lit "aaaaaaaa".

(** A backend that answers every request with the same bullet. *)
Definition stub_backend (r : request) : reply :=
  Response (Some (VStr ([BULLET; SPACE] ++ lit "stub"))).


(** A backend that fails every call with a connection error. *)
Definition failing_backend (r : request) : reply :=
  Raises (OtherError (lit "Connection refused")).

(** A backend whose every call times out. *)
Definition timeout_backend (r : request) : reply :=
  Raises (ReadTimeout (lit "timed out")).

(** A pool that runs every task. *)
Definition no_fault (idx : nat) : option exn := None.

(** A pool that loses the task of index 0. *)
Definition fault_at_0 (idx : nat) : option exn :=
  match idx with
  | O => Some (OtherError (lit "cancelled"))
  | S _ => None
  end.

(** Futures completing in the reverse of the order of submission. *)
Definition last_first (futures : list (M value * nat))
    : list (M value * nat) :=
  reverse futures.

(** A status sink and a table that accept every write. *)
Definition accept {X} (x : X) : option exn := None.

(** A long text: 500 copies of ["A. B. C."]. *)
Definition long_text : str := mjoin (replicate 500 (lit "A. B. C.")).

(** A longer text: 2,000 copies of ["A. B. C."], five chunks. *)
Definition longer_text : str := mjoin (replicate 2000 (lit "A. B. C.")).

(** The status document that opens [process_text]. *)
Definition summarizing_doc (uid file_id : str) : status_doc :=
  {| sd_firebase_uid := uid; sd_file_id := file_id; sd_status := Summarizing;
     sd_progress := 50; sd_message := lit "Generating AI summary..." |}.

(** Thirty copies of ["One. Two. "]: 300 characters. *)
Definition aligned_text : str := mjoin (replicate 30 (lit "One. Two. ")).

(** A backend that answers every request with the empty string. *)
Definition empty_backend (r : request) : reply := Response (Some (VStr [])).

(** A backend that answers every request with [{"response": null}]. *)
Definition null_backend (r : request) : reply := Response (Some VNone).


(** A status sink that rejects every write. *)
Definition reject (d : status_doc) : option exn :=
  Some (OtherError (lit "unavailable")).

(** Collaborators that hand back one line of text. *)
Definition stub_download (storage_path : str) : exn + list N := inr [].
Definition stub_extract (file_bytes : list N) : exn + str := inr (lit "Hello.").
Definition stub_extract_ext (file_bytes : list N) (file_ext : str) : exn + str :=
  inr (lit "Hello.").
Definition stub_extract_url (url : str) : exn + str := inr (lit "Hello.").

(** A PDF of three pages, the middle one blank. *)
Definition stub_fitz_open (file_bytes : list N) : exn + list str :=
  inr [lit "Page one."; lit "  "; lit "Page three."].

(** A Tika server object as [TikaServer()] makes it, with no JAR on
    disk. *)
Definition tika_fresh : TikaServer.world :=
  {| TikaServer.server :=
       {| TikaServer.running := false; TikaServer.process := None |};
     TikaServer.jar_on_disk := false;
     TikaServer.requests_sent := 0;
     TikaServer.log := [] |}.

(** A port on which nothing listens, one on which a server answers 503,
    and a machine without Java. *)
Definition refusing_get (k : nat) : exn + Z :=
  inl (OtherError (lit "connection refused")).
Definition unready_get (k : nat) : exn + Z := inr 503.
Definition no_java : exn + nat := inl (OtherError (lit "java: not found")).

(** A Tika server that answers every [PUT] with two lines around a blank
    one. *)
Definition stub_put (k : nat) (file_bytes : list N) (content_type : str)
    : exn + str :=
  inr (lit "Title" ++ [NL; NL] ++ lit "  Body  ").

(** [str.lower] on extensions that are in lower case already. *)
Definition stub_lower (s : str) : str := s.

(** Temporary files [/tmp/tmp0], [/tmp/tmp1], ... on a disk with room,
    a Whisper model that loads and hears one sentence, an FFmpeg that
    converts and one that fails after it created its output, and a
    machine on which nothing was done yet. *)
Definition stub_temp_stem (k : nat) : str := lit "/tmp/tmp" ++ str_of_nat k.
Definition stub_create (path : str) : option exn := None.
Definition stub_write (file_bytes : list N) : option exn := None.
Definition stub_load_model : exn + nat := inr 0%nat.
Definition stub_transcribe (model : nat) (path : str) : exn + str :=
  inr (lit "Hello.").
Definition stub_ffmpeg (video_path audio_path : str) : Media.ffmpeg_result :=
  Media.Converted.
Definition failing_ffmpeg (video_path audio_path : str) : Media.ffmpeg_result :=
  Media.FfmpegFailed (OtherError (lit "exit status 1")) true.
Definition media_fresh : Media.world :=
  {| Media.files := ∅; Media.whisper_model := None;
     Media.temp_files := 0; Media.log := [] |}.

(** * Properties *)

(** ** Trimming *)

Section Strip.

Implicit Types (s t u v : str) (c : char).

Lemma lstrip_app_nonspace u c v :
  isspace c = false -> lstrip (u ++ c :: v) = lstrip u ++ c :: v.
Proof.
  intros Hc. induction u as [|a u IH]; simpl.
  - by rewrite Hc.
  - destruct (isspace a); [exact IH | done].
Qed.

Lemma lstrip_head s :
  match lstrip s with [] => True | c :: _ => isspace c = false end.
Proof.
  induction s as [|a s IH]; simpl; [done|].
  destruct (isspace a) eqn:Ha; [exact IH | exact Ha].
Qed.

Lemma lstrip_fixed c s : isspace c = false -> lstrip (c :: s) = c :: s.
Proof. intros Hc. simpl. by rewrite Hc. Qed.

Lemma lstrip_idem s : lstrip (lstrip s) = lstrip s.
Proof.
  pose proof (lstrip_head s) as H. destruct (lstrip s) as [|c t]; [done|].
  by apply lstrip_fixed.
Qed.

Lemma lstrip_elem c s : c ∈ lstrip s -> c ∈ s.
Proof.
  induction s as [|a s IH]; simpl; [done|].
  destruct (isspace a); [|done]. intros H. right. by apply IH.
Qed.

Lemma rstrip_nil : rstrip [] = [].
Proof. reflexivity. Qed.

Lemma rstrip_cons_nonspace c t :
  isspace c = false -> rstrip (c :: t) = c :: rstrip t.
Proof.
  intros Hc. unfold rstrip.
  rewrite reverse_cons, (lstrip_app_nonspace _ c []) by done.
  by rewrite reverse_app.
Qed.

Lemma rstrip_idem s : rstrip (rstrip s) = rstrip s.
Proof. unfold rstrip. by rewrite reverse_involutive, lstrip_idem. Qed.

Lemma rstrip_elem c s : c ∈ rstrip s -> c ∈ s.
Proof.
  unfold rstrip. rewrite elem_of_reverse. intros H%lstrip_elem.
  by apply elem_of_reverse.
Qed.

(** A trimmed string is empty or starts with a character that is not
    white space; in the second case the string before trimming has a
    character that is not white space at the position trimming starts
    from. *)
Lemma strip_cases s :
  (lstrip s = [] /\ strip s = []) \/
  (exists c t, isspace c = false /\ lstrip s = c :: t /\ strip s = c :: rstrip t).
Proof.
  unfold strip. pose proof (lstrip_head s) as H.
  destruct (lstrip s) as [|c t]; [by left|].
  right. exists c, t. split_and!; [done | done | by apply rstrip_cons_nonspace].
Qed.

Lemma strip_idem s : strip (strip s) = strip s.
Proof.
  destruct (strip_cases s) as [[_ ->]|(c & t & Hc & _ & ->)]; [done|].
  unfold strip. rewrite lstrip_fixed by done.
  rewrite <- rstrip_cons_nonspace by done. apply rstrip_idem.
Qed.

Lemma strip_elem c s : c ∈ strip s -> c ∈ s.
Proof. unfold strip. intros H%rstrip_elem. by apply lstrip_elem. Qed.


(** Trimming only removes white space: a string holding a character that
    is not white space does not trim to the empty string. *)
Lemma lstrip_nil_spaces s : lstrip s = [] -> Forall (fun c => isspace c = true) s.
Proof.
  induction s as [|a s IH]; simpl; [by constructor|].
  destruct (isspace a) eqn:Ha; [|done]. intros H. constructor; auto.
Qed.

Lemma strip_nil_spaces s : strip s = [] -> Forall (fun c => isspace c = true) s.
Proof.
  intros H. apply lstrip_nil_spaces.
  by destruct (strip_cases s) as [[? _]|(c & t & _ & _ & H')]; [|congruence].
Qed.

Lemma lstrip_spaces s : Forall (fun c => isspace c = true) s -> lstrip s = [].
Proof. induction 1 as [|c s Hc _ IH]; simpl; [done|]. by rewrite Hc. Qed.

Lemma strip_spaces s : Forall (fun c => isspace c = true) s -> strip s = [].
Proof. intros H. unfold strip. by rewrite lstrip_spaces. Qed.

End Strip.

(** ** Splitting and joining *)

Section SplitJoin.

Implicit Types (s p : str) (sep : char) (ls : list str).

Lemma split_nonempty sep s : split sep s <> [].
Proof.
  destruct s as [|c s]; simpl; [done|].
  destruct (c =? sep)%N; [done|]. by destruct (split sep s).
Qed.

Lemma split_no_sep sep s : Forall (fun l => sep ∉ l) (split sep s).
Proof.
  induction s as [|c s IH]; simpl.
  - constructor; [apply not_elem_of_nil | constructor].
  - destruct (N.eqb_spec c sep) as [->|Hne].
    + constructor; [apply not_elem_of_nil | done].
    + destruct (split sep s) as [|l ls].
      * constructor; [|constructor]. rewrite list_elem_of_singleton. congruence.
      * inversion IH; subst. constructor; [|done].
        rewrite elem_of_cons. intros [?|?]; [congruence | done].
Qed.

Lemma split_without_sep sep p : sep ∉ p -> split sep p = [p].
Proof.
  induction p as [|c p IH]; simpl; [done|].
  rewrite not_elem_of_cons. intros [Hne Hp].
  destruct (N.eqb_spec c sep) as [->|_]; [done|]. by rewrite IH.
Qed.

Lemma split_app_sep sep p s :
  sep ∉ p -> split sep (p ++ sep :: s) = p :: split sep s.
Proof.
  induction p as [|c p IH]; simpl.
  - intros _. by rewrite N.eqb_refl.
  - rewrite not_elem_of_cons. intros [Hne Hp].
    destruct (N.eqb_spec c sep) as [->|_]; [done|]. by rewrite IH.
Qed.

Lemma split_join sep ls :
  ls <> [] -> Forall (fun l => sep ∉ l) ls -> split sep (join [sep] ls) = ls.
Proof.
  induction ls as [|p ls IH]; [done|]. intros _ Hall.
  inversion Hall as [|? ? Hp Hls]; subst.
  destruct ls as [|q ls].
  - simpl. by apply split_without_sep.
  - change (join [sep] (p :: q :: ls)) with (p ++ sep :: join [sep] (q :: ls)).
    rewrite split_app_sep by done. f_equal. by apply IH.
Qed.

(** Every part of a join occurs in it verbatim. *)
Lemma join_contains (sep : str) ls p : p ∈ ls -> contains p (join sep ls).
Proof.
  induction ls as [|q ls IH]; [by intros ?%elem_of_nil|].
  rewrite elem_of_cons. intros [->|Hin].
  - destruct ls as [|r ls].
    + exists [], []. simpl. by rewrite app_nil_r.
    + exists [], (sep ++ join sep (r :: ls)). done.
  - destruct ls as [|r ls]; [by apply elem_of_nil in Hin|].
    destruct (IH Hin) as (pre & post & Heq).
    exists (q ++ sep ++ pre), post.
    change (join sep (q :: r :: ls)) with (q ++ sep ++ join sep (r :: ls)).
    rewrite Heq. by rewrite <- !app_assoc.
Qed.

(** The pieces of a split are made of characters of the string. *)
Lemma split_elem sep s (l : str) (c : char) : l ∈ split sep s -> c ∈ l -> c ∈ s.
Proof.
  revert l. induction s as [|a s IH]; intros l; simpl.
  - intros ->%list_elem_of_singleton. by intros ?%elem_of_nil.
  - destruct (a =? sep)%N.
    + intros [->|Hl]%elem_of_cons; [by intros ?%elem_of_nil|].
      intros Hc. right. by apply (IH l).
    + destruct (split sep s) as [|l0 ls] eqn:E.
      * intros ->%list_elem_of_singleton. intros ->%list_elem_of_singleton. left.
      * intros [->|Hl]%elem_of_cons.
        -- intros [->|Hc]%elem_of_cons; [left|]. right.
           apply (IH l0); [left | done].
        -- intros Hc. right. apply (IH l); [by right | done].
Qed.

End SplitJoin.

(** ** Slices *)

Lemma len_app (s t : str) : len (s ++ t) = len s + len t.
Proof. unfold len. rewrite length_app. lia. Qed.

Lemma len_nonneg (s : str) : 0 <= len s.
Proof. unfold len. lia. Qed.

Lemma slice_to_take (s : str) (hi : Z) :
  0 <= hi <= len s -> slice_to s hi = take (Z.to_nat hi) s.
Proof.
  intros H. unfold slice_to, slice, adjust. simpl.
  destruct (hi <? 0) eqn:E; [lia|].
  rewrite (Z.min_l 0) by apply len_nonneg. rewrite Z.min_l by lia.
  simpl. by rewrite Z.sub_0_r.
Qed.

Lemma len_slice_to (s : str) (hi : Z) :
  0 <= hi <= len s -> len (slice_to s hi) = hi.
Proof.
  intros H. rewrite slice_to_take by done. unfold len in *.
  rewrite length_take. lia.
Qed.

Lemma len_TRUNCATION_NOTICE : len TRUNCATION_NOTICE = 35.
Proof. reflexivity. Qed.

(** ** Text normalizer *)

Section Normalizer.

Implicit Types (text : str) (max_chars : Z).

Lemma collapse_lines_clean text :
  Forall (fun l => l <> [] /\ strip l = l /\ NL ∉ l) (collapse_lines text).
Proof.
  unfold collapse_lines. apply Forall_forall. intros l Hl.
  apply list_elem_of_fmap in Hl as (l0 & -> & Hl0).
  apply list_elem_of_filter in Hl0 as [Htruthy Hl0].
  split_and!.
  - intros E. by rewrite E in Htruthy.
  - apply strip_idem.
  - intros Hin%strip_elem.
    pose proof (split_no_sep NL text) as Hall.
    rewrite Forall_forall in Hall. by apply (Hall l0).
Qed.

Lemma collapse_lines_fixed (ls : list str) :
  Forall (fun l => l <> [] /\ strip l = l /\ NL ∉ l) ls ->
  map strip (filter (fun line => truthy (strip line) = true) ls) = ls.
Proof.
  induction 1 as [|l ls (Hne & Hstrip & _) _ IH]; [done|].
  rewrite filter_cons_True.
  - simpl. by rewrite Hstrip, IH.
  - rewrite Hstrip. by destruct l.
Qed.

Lemma collapse_lines_collapse text :
  collapse_lines (collapse text) = collapse_lines text.
Proof.
  pose proof (collapse_lines_clean text) as Hall. unfold collapse.
  destruct (collapse_lines text) as [|l ls] eqn:E; [done|].
  unfold collapse_lines at 1. rewrite split_join.
  - by apply collapse_lines_fixed.
  - done.
  - eapply Forall_impl; [exact Hall|]. by intros ? (_ & _ & ?).
Qed.

Lemma collapse_idem text : collapse (collapse text) = collapse text.
Proof. unfold collapse at 1 3. by rewrite collapse_lines_collapse. Qed.

Lemma collapse_no_blank_lines text : no_blank_lines (collapse text).
Proof.
  pose proof (collapse_lines_clean text) as Hall. unfold collapse.
  destruct (collapse_lines text) as [|l ls] eqn:E; [by left|]. right.
  rewrite split_join.
  - eapply Forall_impl; [exact Hall|]. unfold blank_line.
    intros ? (? & ? & _). congruence.
  - done.
  - eapply Forall_impl; [exact Hall|]. by intros ? (_ & _ & ?).
Qed.

Lemma collapse_nil : collapse [] = [].
Proof. reflexivity. Qed.

Lemma clean_fits text max_chars :
  len (collapse text) <= max_chars ->
  clean_text_for_llm text max_chars = collapse text.
Proof.
  intros H. unfold clean_text_for_llm.
  destruct (len (collapse text) >? max_chars) eqn:E; [lia | done].
Qed.

Lemma clean_truncates text max_chars :
  max_chars < len (collapse text) ->
  clean_text_for_llm text max_chars
  = slice_to (collapse text) max_chars ++ TRUNCATION_NOTICE.
Proof.
  intros H. unfold clean_text_for_llm.
  destruct (len (collapse text) >? max_chars) eqn:E; [done | lia].
Qed.

(** C7, as the code has it.  For every text and every cap: when the
    collapsed text fits the cap the result is the collapsed text, it has
    no blank lines and its length is at most the cap; when the collapsed
    text is longer than the cap the result is the slice
    [cleaned[:max_chars]] followed by the truncation notice, 35
    characters that start with two newlines, so for a cap that is not
    negative the result is the first [max_chars] characters and the
    notice, [max_chars + 35] characters in all; and for a cap that is
    not negative the empty text is mapped to the empty text. *)
Theorem clean_text_for_llm_spec text max_chars :
  (len (collapse text) <= max_chars ->
     clean_text_for_llm text max_chars = collapse text
     /\ no_blank_lines (clean_text_for_llm text max_chars)
     /\ len (clean_text_for_llm text max_chars) <= max_chars)
  /\ (max_chars < len (collapse text) ->
     clean_text_for_llm text max_chars
       = slice_to (collapse text) max_chars ++ TRUNCATION_NOTICE
     /\ (0 <= max_chars ->
         clean_text_for_llm text max_chars
           = take (Z.to_nat max_chars) (collapse text) ++ TRUNCATION_NOTICE
         /\ len (clean_text_for_llm text max_chars) = max_chars + 35))
  /\ (0 <= max_chars -> clean_text_for_llm [] max_chars = []).
Proof.
  split_and!.
  - intros Hfit. rewrite clean_fits by done.
    split_and!; [done | apply collapse_no_blank_lines | done].
  - intros Hlong. rewrite clean_truncates by done. split; [done|].
    intros Hcap. rewrite <- slice_to_take by lia. split; [done|].
    rewrite len_app, len_slice_to, len_TRUNCATION_NOTICE by lia. done.
  - intros Hcap. apply clean_fits. rewrite collapse_nil. exact Hcap.
Qed.

(** C8, as the code has it.  Whenever the collapsed text fits the cap,
    so that nothing is truncated, normalizing the normalized text again
    changes nothing. *)
Theorem clean_text_for_llm_idempotent text max_chars :
  len (collapse text) <= max_chars ->
  clean_text_for_llm (clean_text_for_llm text max_chars) max_chars
  = clean_text_for_llm text max_chars.
Proof.
  intros Hfit. rewrite (clean_fits text) by done.
  rewrite clean_fits; rewrite collapse_idem; done.
Qed.

(** A text that trims to nothing collapses to nothing. *)
Lemma collapse_blank text : strip text = [] -> collapse text = [].
Proof.
  intros Hblank%strip_nil_spaces. unfold collapse, collapse_lines.
  assert (filter (fun line => truthy (strip line) = true) (split NL text) = [])
    as -> ; [|done].
  apply elem_of_nil_inv. intros line [Htruthy Hline]%list_elem_of_filter.
  rewrite strip_spaces in Htruthy; [done|].
  apply Forall_forall. intros c Hc. rewrite Forall_forall in Hblank.
  apply Hblank. by apply (split_elem NL text line).
Qed.

End Normalizer.

(** C7 fails as stated: on a line of 24,001 letters and the default cap
    the result has 24,035 characters, more than the cap, and its second
    line is blank; and with a negative cap the empty text is mapped to
    the truncation notice. *)
Lemma clean_text_for_llm_exceeds_cap :
  len (clean_text_for_llm over_cap_text DEFAULT_MAX_CHARS) = 24035
  /\ ~ (len (clean_text_for_llm over_cap_text DEFAULT_MAX_CHARS) <= DEFAULT_MAX_CHARS)
  /\ ~ no_blank_lines (clean_text_for_llm over_cap_text DEFAULT_MAX_CHARS)
  /\ clean_text_for_llm [] (-1) = TRUNCATION_NOTICE.
Proof.
  assert (Hlen : len (clean_text_for_llm over_cap_text DEFAULT_MAX_CHARS) = 24035)
    by (vm_compute; reflexivity).
  split_and!; [exact Hlen | rewrite Hlen; unfold DEFAULT_MAX_CHARS; lia | | reflexivity].
  intros [Hnil|Hall].
  - rewrite Hnil in Hlen. discriminate Hlen.
  - assert (Hline : split NL (clean_text_for_llm over_cap_text DEFAULT_MAX_CHARS) !! 1%nat
                    = Some []) by (vm_compute; reflexivity).
    apply (Forall_lookup_1 _ _ _ _ Hall) in Hline. by apply Hline.
Qed.

(** The instance of C7's theorem at a text that fits and at a cap of 3. *)
Lemma clean_text_for_llm_spec_witness :
  clean_text_for_llm (lit " a  ") 3 = lit "a"
  /\ clean_text_for_llm (lit "abcdef") 3 = lit "abc" ++ TRUNCATION_NOTICE.
Proof.
  split.
  - apply (clean_text_for_llm_spec (lit " a  ") 3). vm_compute. congruence.
  - apply (clean_text_for_llm_spec (lit "abcdef") 3); vm_compute; congruence.
Defined.

(** C8 fails as stated: the output of the normalizer on this text ends its
    first line with the space the cut left there, and normalizing the
    output trims that space, so the two differ at index 23,999. *)
Lemma clean_text_for_llm_not_idempotent :
  clean_text_for_llm (clean_text_for_llm cut_after_space_text DEFAULT_MAX_CHARS)
    DEFAULT_MAX_CHARS
  <> clean_text_for_llm cut_after_space_text DEFAULT_MAX_CHARS.
Proof.
  intros H. apply (f_equal (fun s : str => s !! Z.to_nat 23999)) in H.
  vm_compute in H. discriminate H.
Qed.

Lemma clean_text_for_llm_idempotent_witness :
  clean_text_for_llm (clean_text_for_llm (lit "  a b  ") 24000) 24000
  = clean_text_for_llm (lit "  a b  ") 24000.
Proof.
  apply (clean_text_for_llm_idempotent (lit "  a b  ") 24000).
  vm_compute. congruence.
Defined.

(** ** Chunk splitter *)

Section Splitter.

Implicit Types (text : str) (start chunk_chars overlap_chars : Z).

Lemma adjust_range n i : 0 <= n -> 0 <= adjust n i <= n.
Proof. intros Hn. unfold adjust. destruct (Z.ltb_spec i 0); lia. Qed.

Lemma adjust_inside n i : 0 <= i <= n -> adjust n i = i.
Proof. intros H. unfold adjust. destruct (Z.ltb_spec i 0); lia. Qed.

Lemma rfind_down_bounds (sub s : str) (lo k : nat) :
  rfind_down sub s lo k = -1
  \/ Z.of_nat lo <= rfind_down sub s lo k < Z.of_nat lo + Z.of_nat k.
Proof.
  induction k as [|k IH]; cbn [rfind_down]; [by left|].
  destruct (startswith sub (drop (lo + k) s)); [right; lia|].
  destruct IH as [IH|IH]; [by left | right; lia].
Qed.

Lemma rfind_bounds (s sub : str) (lo hi : Z) :
  rfind s sub lo hi = -1
  \/ (adjust (len s) lo <= rfind s sub lo hi
      /\ rfind s sub lo hi + len sub <= adjust (len s) hi).
Proof.
  unfold rfind.
  pose proof (adjust_range (len s) lo (len_nonneg s)) as Hlo.
  destruct (Z.ltb_spec (adjust (len s) hi - adjust (len s) lo) (len sub));
    [by left|].
  destruct (rfind_down_bounds sub s (Z.to_nat (adjust (len s) lo))
              (Z.to_nat (adjust (len s) hi - len sub - adjust (len s) lo + 1)))
    as [->|Hb]; [by left | right; lia].
Qed.

(** With a chunk size of at least 200 the end offset lies in the last
    200 characters of the proposed chunk. *)
Lemma chunk_end_bounds text chunk_chars start :
  0 <= start -> 200 <= chunk_chars ->
  start + chunk_chars - 199 <= chunk_end text chunk_chars start
                            <= start + chunk_chars.
Proof.
  intros Hs Hc. unfold chunk_end.
  destruct (Z.ltb_spec (start + chunk_chars) (len text)) as [Hlt|]; [|lia].
  match goal with |- context [rfind ?s ?sub ?lo ?hi] =>
    pose proof (rfind_bounds s sub lo hi) as Hr;
    destruct (Z.gtb_spec (rfind s sub lo hi) start) as [Hgt|]; [|lia]
  end.
  rewrite !adjust_inside in Hr by lia.
  change (len [DOT; SPACE]) with 2 in Hr. lia.
Qed.

Lemma next_start_range text chunk_chars overlap_chars start :
  advancing chunk_chars overlap_chars -> 0 <= start < len text ->
  start < next_start text chunk_chars overlap_chars start <= len text.
Proof.
  intros [Ho Hc] Hs. unfold next_start.
  pose proof (chunk_end_bounds text chunk_chars start) as He.
  destruct (Z.ltb_spec (chunk_end text chunk_chars start) (len text)); lia.
Qed.

Lemma chunk_loop_exit text chunk_chars overlap_chars fuel st :
  len text <= st.1 ->
  chunk_loop fuel text chunk_chars overlap_chars st = Some st.2.
Proof.
  intros H. destruct fuel; cbn [chunk_loop];
    destruct (Z.ltb_spec st.1 (len text)); (lia || done).
Qed.

Lemma chunk_loop_iterate text chunk_chars overlap_chars fuel st :
  st.1 < len text ->
  chunk_loop (S fuel) text chunk_chars overlap_chars st
  = chunk_loop fuel text chunk_chars overlap_chars
      (chunk_step text chunk_chars overlap_chars st).
Proof.
  intros H. cbn [chunk_loop].
  destruct (Z.ltb_spec st.1 (len text)); (lia || done).
Qed.

Lemma chunk_loop_starved text chunk_chars overlap_chars st :
  st.1 < len text ->
  chunk_loop 0 text chunk_chars overlap_chars st = None.
Proof.
  intros H. cbn [chunk_loop].
  destruct (Z.ltb_spec st.1 (len text)); (lia || done).
Qed.

(** The loop returns the chunks it was entered with, followed by the
    emitted ones among the spans it visits. *)
Lemma chunk_loop_spans text chunk_chars overlap_chars fuel start chunks :
  advancing chunk_chars overlap_chars ->
  0 <= start -> len text - start <= Z.of_nat fuel ->
  chunk_loop fuel text chunk_chars overlap_chars (start, chunks)
  = Some (chunks ++
          map snd (emitted (chunk_spans fuel text chunk_chars overlap_chars start))).
Proof.
  intros Hadv. revert start chunks.
  induction fuel as [|fuel IH]; intros start chunks Hs Hfuel.
  - rewrite chunk_loop_exit by (simpl; lia). cbn [chunk_spans].
    destruct (Z.ltb_spec start (len text)); [lia|].
    simpl. by rewrite app_nil_r.
  - destruct (Z.ltb_spec start (len text)) as [Hlt|Hge].
    + rewrite chunk_loop_iterate by done.
      pose proof (next_start_range text chunk_chars overlap_chars start Hadv
                    (conj Hs Hlt)) as Hnext.
      cbn [chunk_step]. rewrite IH by lia.
      cbn [chunk_spans]. destruct (Z.ltb_spec start (len text)); [|lia].
      unfold emitted. rewrite filter_cons. cbn [snd].
      destruct (strip (slice text start (chunk_end text chunk_chars start)))
        as [|c chunk] eqn:E; cbn [truthy].
      * rewrite decide_False by done. done.
      * rewrite decide_True by done. cbn [map snd].
        by rewrite <- app_assoc.
    + rewrite chunk_loop_exit by (simpl; lia). cbn [chunk_spans].
      destruct (Z.ltb_spec start (len text)); [lia|].
      simpl. by rewrite app_nil_r.
Qed.

(** Every position from [start] on lies in a visited span. *)
Lemma chunk_spans_cover text chunk_chars overlap_chars fuel start i :
  advancing chunk_chars overlap_chars ->
  0 <= start -> len text - start <= Z.of_nat fuel ->
  start <= i < len text ->
  exists sp, sp ∈ chunk_spans fuel text chunk_chars overlap_chars start
             /\ in_span i sp
             /\ 0 <= sp.1.1
             /\ sp.2 = strip (slice text sp.1.1 sp.1.2).
Proof.
  intros Hadv. revert start.
  induction fuel as [|fuel IH]; intros start Hs Hfuel Hi; [lia|].
  cbn [chunk_spans]. destruct (Z.ltb_spec start (len text)); [|lia].
  pose proof (next_start_range text chunk_chars overlap_chars start Hadv
                ltac:(lia)) as Hnext.
  destruct (Z.lt_ge_cases i (chunk_end text chunk_chars start)) as [Hin|Hout].
  - eexists. split; [apply list_elem_of_here|].
    unfold in_span. cbn [fst snd]. split_and!; (lia || done).
  - assert (next_start text chunk_chars overlap_chars start <= i) as Hle.
    { destruct Hadv as [Ho _]. unfold next_start.
      destruct (Z.ltb_spec (chunk_end text chunk_chars start) (len text)); lia. }
    destruct (IH (next_start text chunk_chars overlap_chars start))
      as (sp & Hsp & Hrest); [lia | lia | lia |].
    exists sp. split; [by apply list_elem_of_further | done].
Qed.

(** A character of the text inside the slice bounds is in the slice. *)
Lemma slice_elem text (lo hi i : Z) (c : char) :
  0 <= lo <= i -> i < hi -> text !! Z.to_nat i = Some c ->
  c ∈ slice text lo hi.
Proof.
  intros Hlo Hhi Hc.
  assert (i < len text) as Hlen.
  { apply lookup_lt_Some in Hc. unfold len. lia. }
  unfold slice. rewrite (adjust_inside _ lo) by lia.
  apply list_elem_of_lookup. exists (Z.to_nat (i - lo)).
  rewrite lookup_take_lt.
  - rewrite lookup_drop. rewrite <- Hc. f_equal. lia.
  - unfold adjust. destruct (Z.ltb_spec hi 0); lia.
Qed.

Lemma strip_slice_truthy text (lo hi i : Z) (c : char) :
  0 <= lo <= i -> i < hi -> text !! Z.to_nat i = Some c ->
  isspace c = false -> truthy (strip (slice text lo hi)) = true.
Proof.
  intros Hlo Hhi Hc Hns.
  destruct (strip (slice text lo hi)) eqn:E; [|done].
  apply strip_nil_spaces in E. rewrite Forall_forall in E.
  rewrite (E c) in Hns; [done|]. by eapply slice_elem.
Qed.

End Splitter.

Section SplitterClaims.

Implicit Types (text : str) (chunk_size overlap : Z).

Lemma chunk_loop_more_fuel text chunk_chars overlap_chars fuel :
  forall st r fuel',
    chunk_loop fuel text chunk_chars overlap_chars st = Some r ->
    (fuel <= fuel')%nat ->
    chunk_loop fuel' text chunk_chars overlap_chars st = Some r.
Proof.
  induction fuel as [|fuel IH]; intros st r fuel' Hrun Hle.
  - destruct (Z.lt_ge_cases st.1 (len text)) as [Hlt|Hge].
    + by rewrite chunk_loop_starved in Hrun.
    + rewrite chunk_loop_exit in Hrun |- * by done. done.
  - destruct (Z.lt_ge_cases st.1 (len text)) as [Hlt|Hge].
    + destruct fuel' as [|fuel']; [lia|].
      rewrite chunk_loop_iterate in Hrun |- * by done.
      apply (IH _ _ _ Hrun). lia.
    + rewrite chunk_loop_exit in Hrun |- * by done. done.
Qed.

Lemma default_sizes_advancing :
  advancing (CHUNK_SIZE_TOKENS * CHARS_PER_TOKEN)
            (CHUNK_OVERLAP_TOKENS * CHARS_PER_TOKEN).
Proof. unfold advancing. vm_compute. split; congruence. Qed.

(** With the default sizes the loop always reaches its exit, and
    [chunk_text] is the list of emitted chunks. *)
Lemma chunk_text_default_total text :
  chunk_text_fuel (S (length text)) text CHUNK_SIZE_TOKENS CHUNK_OVERLAP_TOKENS
  = Some (chunk_text text)
  /\ chunk_text text
     = map snd (emitted (chunk_spans (S (length text)) text
                           (CHUNK_SIZE_TOKENS * CHARS_PER_TOKEN)
                           (CHUNK_OVERLAP_TOKENS * CHARS_PER_TOKEN) 0)).
Proof.
  unfold chunk_text, chunk_text_fuel.
  rewrite chunk_loop_spans;
    [done | apply default_sizes_advancing | lia | unfold len; lia].
Qed.

(** C3, as the code has it.  In every configuration whose overlap is not
    negative and at least 200 characters below the chunk size, the
    default one among them, each iteration entered at a [start] inside
    the text leaves [start] strictly larger, and the splitter returns:
    [len(text)] iterations are enough, and more change nothing. *)
Theorem chunk_text_advances text chunk_size overlap :
  advancing (chunk_size * CHARS_PER_TOKEN) (overlap * CHARS_PER_TOKEN) ->
  (forall start, 0 <= start < len text ->
     start < next_start text (chunk_size * CHARS_PER_TOKEN)
               (overlap * CHARS_PER_TOKEN) start)
  /\ exists chunks, forall fuel, (length text <= fuel)%nat ->
       chunk_text_fuel fuel text chunk_size overlap = Some chunks.
Proof.
  intros Hadv. split.
  - intros start Hs. by apply next_start_range.
  - eexists. intros fuel Hfuel. unfold chunk_text_fuel.
    eapply chunk_loop_more_fuel; [|exact Hfuel].
    apply chunk_loop_spans; [done | lia | unfold len; lia].
Qed.

(** C2, as the code has it.  With the default sizes, the chunks
    [chunk_text] returns are the trimmed texts of the visited spans that
    are not empty after trimming; every position of the text lies in a
    visited span; and every position that holds a character other than
    white space lies in the span of an emitted chunk.  A span of white
    space only is visited but not emitted. *)
Theorem chunk_text_covers text :
  let spans := chunk_spans (S (length text)) text
                 (CHUNK_SIZE_TOKENS * CHARS_PER_TOKEN)
                 (CHUNK_OVERLAP_TOKENS * CHARS_PER_TOKEN) 0 in
  chunk_text text = map snd (emitted spans)
  /\ (forall i, 0 <= i < len text -> exists sp, sp ∈ spans /\ in_span i sp)
  /\ (forall i c, 0 <= i -> text !! Z.to_nat i = Some c -> isspace c = false ->
        exists sp, sp ∈ emitted spans /\ in_span i sp).
Proof.
  intros spans. split_and!.
  - apply chunk_text_default_total.
  - intros i Hi.
    destruct (chunk_spans_cover text _ _ (S (length text)) 0 i
                default_sizes_advancing) as (sp & Hsp & Hin & _);
      [lia | unfold len; lia | lia |].
    by exists sp.
  - intros i c Hi Hc Hns.
    assert (i < len text) as Hlen.
    { apply lookup_lt_Some in Hc. unfold len. lia. }
    destruct (chunk_spans_cover text _ _ (S (length text)) 0 i
                default_sizes_advancing) as (sp & Hsp & Hin & Hpos & Htxt);
      [lia | unfold len; lia | lia |].
    exists sp. split; [|done].
    apply list_elem_of_filter. split; [|done].
    rewrite Htxt. destruct Hin as [Hlo Hhi].
    by apply (strip_slice_truthy text _ _ i c).
Qed.

End SplitterClaims.

(** C3 fails as stated: with [chunk_size = 1] and [overlap = 1], four
    characters each, the first iteration on eight letters ends at 4 and
    sets [start] back to 0, and no number of iterations reaches the
    exit. *)
Lemma chunk_text_stalls :
  next_start stall_text (1 * CHARS_PER_TOKEN) (1 * CHARS_PER_TOKEN) 0 = 0
  /\ ~ exists fuel chunks, chunk_text_fuel fuel stall_text 1 1 = Some chunks.
Proof.
  split; [by vm_compute|].
  assert (forall fuel acc, chunk_loop fuel stall_text 4 4 (0, acc) = None) as Hloop.
  { induction fuel as [|fuel IH]; intros acc.
    - by apply chunk_loop_starved.
    - rewrite chunk_loop_iterate by (by vm_compute).
      replace (chunk_step stall_text 4 4 (0, acc))
        with (0, acc ++ [lit "aaaa"]) by (by vm_compute).
      apply IH. }
  intros (fuel & chunks & Hrun). unfold chunk_text_fuel in Hrun.
  change (1 * CHARS_PER_TOKEN) with 4 in Hrun. by rewrite Hloop in Hrun.
Qed.

Lemma chunk_text_advances_witness :
  0 < next_start (lit "One. Two. Three.") 4000 300 0
  /\ exists chunks, forall fuel, (16 <= fuel)%nat ->
       chunk_text_fuel fuel (lit "One. Two. Three.") 1000 75 = Some chunks.
Proof.
  destruct (chunk_text_advances (lit "One. Two. Three.") 1000 75) as [Hstep Hrun].
  - unfold advancing. vm_compute. split; congruence.
  - split; [|exact Hrun]. apply (Hstep 0). vm_compute. split; congruence.
Defined.

(** C2 fails as stated: [gap_text] is normalized and longer than the
    threshold, the loop visits the spans from 0, 3,700 and 7,400, the
    middle one holds white space only and is dropped, and position 5,000
    lies in neither of the two emitted spans. *)
Lemma chunk_text_leaves_gap :
  clean_text_for_llm gap_text DEFAULT_MAX_CHARS = gap_text
  /\ 3000 <= len gap_text
  /\ chunk_text gap_text = [lit "a"; lit "b"]
  /\ emitted (chunk_spans (S (length gap_text)) gap_text
                (CHUNK_SIZE_TOKENS * CHARS_PER_TOKEN)
                (CHUNK_OVERLAP_TOKENS * CHARS_PER_TOKEN) 0)
     = [(0, 4000, lit "a"); (7400, 11400, lit "b")]
  /\ 0 <= 5000 < len gap_text
  /\ ~ exists sp,
         sp ∈ emitted (chunk_spans (S (length gap_text)) gap_text
                         (CHUNK_SIZE_TOKENS * CHARS_PER_TOKEN)
                         (CHUNK_OVERLAP_TOKENS * CHARS_PER_TOKEN) 0)
         /\ in_span 5000 sp.
Proof.
  assert (emitted (chunk_spans (S (length gap_text)) gap_text
                (CHUNK_SIZE_TOKENS * CHARS_PER_TOKEN)
                (CHUNK_OVERLAP_TOKENS * CHARS_PER_TOKEN) 0)
          = [(0, 4000, lit "a"); (7400, 11400, lit "b")]) as Hspans
    by (vm_compute; reflexivity).
  split_and!.
  - vm_compute. reflexivity.
  - vm_compute. congruence.
  - vm_compute. reflexivity.
  - exact Hspans.
  - vm_compute. congruence.
  - vm_compute. congruence.
  - rewrite Hspans. intros (sp & Hsp & Hlo & Hhi).
    rewrite !elem_of_cons, elem_of_nil in Hsp.
    destruct Hsp as [->|[->|[]]]; cbn [fst snd] in Hlo, Hhi; lia.
Qed.

Lemma chunk_text_covers_witness :
  exists sp,
    sp ∈ emitted (chunk_spans 17 (lit "One. Two. Three.")
                    (CHUNK_SIZE_TOKENS * CHARS_PER_TOKEN)
                    (CHUNK_OVERLAP_TOKENS * CHARS_PER_TOKEN) 0)
    /\ in_span 5 sp.
Proof.
  apply (chunk_text_covers (lit "One. Two. Three.")) with (c := 84%N).
  - lia.
  - reflexivity.
  - reflexivity.
Defined.

(** ** Runs *)

Section Runs.

Context {A B : Type}.
Implicit Types (m : M A) (f : A -> M B).

Lemma outcome_bind m f :
  outcome (m ≫= f)
  = match outcome m with inl e => inl e | inr a => outcome (f a) end.
Proof. unfold outcome, mbind, M_bind. by destruct m.2. Qed.

Lemma trace_bind_returned m f a :
  outcome m = inr a -> trace (m ≫= f) = trace m ++ trace (f a).
Proof. unfold outcome, trace, mbind, M_bind. by intros ->. Qed.

Lemma trace_bind_raised m f e :
  outcome m = inl e -> trace (m ≫= f) = trace m.
Proof. unfold outcome, trace, mbind, M_bind. by intros ->. Qed.

Lemma outcome_try_except (body : M A) (handler : exn -> M A) :
  outcome (try_except body handler)
  = match outcome body with
    | inl e => outcome (handler e)
    | inr a => inr a
    end.
Proof. unfold outcome, try_except. by destruct body as [t [e|a]]. Qed.

Lemma trace_try_except_raised (body : M A) (handler : exn -> M A) e :
  outcome body = inl e ->
  trace (try_except body handler) = trace body ++ trace (handler e).
Proof. unfold outcome, trace, try_except. by destruct body as [t [e'|a]]; intros [= ->]. Qed.

Lemma try_except_returned (body : M A) (handler : exn -> M A) a :
  outcome body = inr a -> try_except body handler = body.
Proof. unfold outcome, try_except. by destruct body as [t [e|a']]; intros [= ->]. Qed.

End Runs.

(** ** Segment summarizer and fan-out *)

Section Scheduler.

Variable backend : request -> reply.
Variable pool_fault : nat -> option exn.
Variable as_completed : list (M value * nat) -> list (M value * nat).

Implicit Types (chunk : str) (chunks : list str) (idx i : nat) (v : value).

Lemma post_run (req : request) :
  post backend req
  = ([EvBackend req],
     match backend req with
     | Response r => inr (default (VStr []) r)
     | Raises e => inl e
     end).
Proof. unfold post, emit, mbind, M_bind. simpl. by destruct (backend req). Qed.

(** The summarizer posts one request and always returns: the sentinel
    when the call raised or the answer is a truthy object without
    [strip], the answer with a bullet in front when it is a string that
    lacks one, and the answer as it is otherwise. *)
Lemma summarize_chunk_sync_run chunk idx :
  summarize_chunk_sync backend chunk idx
  = ([EvBackend (chunk_request chunk)],
     inr match backend (chunk_request chunk) with
         | Raises e => VStr (chunk_failure_sentinel idx e)
         | Response r =>
             match default (VStr []) r with
             | VStr s =>
                 if truthy s && negb (startswith [BULLET] (strip s))
                 then VStr ([BULLET; SPACE] ++ s)
                 else VStr s
             | v =>
                 if truthy_value v
                 then VStr (chunk_failure_sentinel idx
                              (AttributeError (no_attribute v (lit "strip"))))
                 else v
             end
         end).
Proof.
  unfold summarize_chunk_sync. rewrite post_run.
  destruct (backend (chunk_request chunk)) as [r|e];
    unfold try_except, mbind, M_bind; cbn [fst snd]; [|done].
  destruct (default (VStr []) r) as [s| |[]|n|[]|[]|[]]; cbn [truthy_value negb];
    try destruct (truthy s && _); try destruct (n =? 0); reflexivity.
Qed.

Lemma summarize_chunk_sync_returns chunk idx :
  exists summary,
    summarize_chunk_sync backend chunk idx
    = ([EvBackend (chunk_request chunk)], inr summary).
Proof. rewrite summarize_chunk_sync_run. eauto. Qed.

Lemma summarize_chunk_sync_failure chunk idx e :
  backend (chunk_request chunk) = Raises e ->
  summarize_chunk_sync backend chunk idx
  = ([EvBackend (chunk_request chunk)],
     inr (VStr (chunk_failure_sentinel idx e))).
Proof. intros He. by rewrite summarize_chunk_sync_run, He. Qed.

(** A falsy answer that is not a string is handed back as it is. *)
Lemma summarize_chunk_sync_falsy chunk idx v :
  backend (chunk_request chunk) = Response (Some v) ->
  falsy_non_string v ->
  outcome (summarize_chunk_sync backend chunk idx) = inr v.
Proof.
  intros Hv [Hfalsy Hstr]. rewrite summarize_chunk_sync_run, Hv.
  cbn [default from_option id outcome snd].
  destruct v; cbn [truthy_value] in *;
    [by destruct (Hstr s) | by rewrite ?Hfalsy..].
Qed.

(** Any other answer, and any failure, gives a string. *)
Lemma summarize_chunk_sync_text chunk idx :
  (forall v, backend (chunk_request chunk) = Response (Some v) ->
             ~ falsy_non_string v) ->
  exists summary,
    outcome (summarize_chunk_sync backend chunk idx) = inr (VStr summary).
Proof.
  intros Htext. rewrite summarize_chunk_sync_run. cbn [outcome snd].
  destruct (backend (chunk_request chunk)) as [[v|]|e];
    cbn [default from_option id]; [|vm_compute; eauto|eauto].
  specialize (Htext v eq_refl).
  destruct v as [s| |b|n|z|z|z]; [case_match; eauto|..];
    (destruct (truthy_value _) eqn:Htruthy; [eauto|]);
    destruct Htext; by split.
Qed.

Lemma submit_fault chunk idx e :
  pool_fault idx = Some e ->
  slot_of (submit backend pool_fault chunk idx) idx
  = VStr (task_failure_sentinel idx).
Proof. intros He. unfold submit. by rewrite He. Qed.

Lemma submit_no_fault chunk idx :
  pool_fault idx = None ->
  submit backend pool_fault chunk idx = summarize_chunk_sync backend chunk idx.
Proof. intros He. unfold submit. by rewrite He. Qed.

(** One turn of the collecting loop stores the slot of its future. *)
Lemma collect_returns acc slots (entry : M value * nat) :
  outcome acc = inr slots ->
  outcome (collect acc entry)
  = inr (<[entry.2 := slot_of entry.1 entry.2]> slots).
Proof.
  intros Hacc. destruct entry as [future idx]. unfold collect.
  rewrite outcome_bind, Hacc. rewrite outcome_bind, outcome_try_except.
  unfold slot_of, outcome. simpl. by destruct future.2.
Qed.

Lemma foldl_collect_returns entries :
  forall acc slots,
    outcome acc = inr slots ->
    outcome (foldl collect acc entries) = inr (fill slots entries).
Proof.
  induction entries as [|entry entries IH]; intros acc slots Hacc; [done|].
  simpl. by apply IH, collect_returns.
Qed.

Lemma length_fill entries : forall slots, length (fill slots entries) = length slots.
Proof.
  induction entries as [|entry entries IH]; intros slots; [done|].
  unfold fill in *. simpl. by rewrite IH, length_insert.
Qed.

Lemma fill_untouched entries i :
  forall slots, i ∉ entries.*2 -> fill slots entries !! i = slots !! i.
Proof.
  induction entries as [|entry entries IH]; intros slots Hi; [done|].
  rewrite fmap_cons, not_elem_of_cons in Hi. destruct Hi as [Hne Hi].
  unfold fill in *. simpl. rewrite IH by done.
  by apply list_lookup_insert_ne.
Qed.

(** When no index occurs twice, the slot of index [i] holds the object
    of the one future filed under [i], whatever the order. *)
Lemma fill_lookup entries future i :
  forall slots,
    NoDup entries.*2 -> (future, i) ∈ entries -> (i < length slots)%nat ->
    fill slots entries !! i = Some (slot_of future i).
Proof.
  induction entries as [|entry entries IH]; intros slots Hnd Hin Hlen.
  - by apply elem_of_nil in Hin.
  - rewrite fmap_cons in Hnd. apply NoDup_cons in Hnd as [Hfresh Hnd].
    apply elem_of_cons in Hin as [<-|Hin].
    + change (fill slots ((future, i) :: entries))
        with (fill (<[i := slot_of future i]> slots) entries).
      rewrite fill_untouched by done. by apply list_lookup_insert_eq.
    + change (fill slots (entry :: entries))
        with (fill (<[entry.2 := slot_of entry.1 entry.2]> slots) entries).
      apply IH; [done | done | by rewrite length_insert].
Qed.

Lemma futures_indices {X} (g : nat -> str -> X) chunks :
  (imap (fun idx chunk => (g idx chunk, idx)) chunks).*2 = seq 0 (length chunks).
Proof.
  apply list_eq. intros i.
  rewrite list_lookup_fmap, list_lookup_imap.
  destruct (chunks !! i) as [c|] eqn:E; simpl.
  - apply lookup_lt_Some in E as Hlt. by rewrite lookup_seq_lt.
  - apply lookup_ge_None in E. symmetry. apply lookup_ge_None.
    by rewrite length_seq.
Qed.

(** The scheduler returns, slot by slot, the objects of the futures of
    [enumerate(chunks)], in whatever order they complete. *)
Lemma parallel_returns chunks :
  yields_each_once as_completed ->
  outcome (_parallel_chunk_summarization backend pool_fault as_completed chunks)
  = inr (imap (fun idx chunk =>
                 slot_of (submit backend pool_fault chunk idx) idx) chunks).
Proof.
  intros Hperm. unfold _parallel_chunk_summarization.
  set (futures := imap (fun idx chunk => (submit backend pool_fault chunk idx, idx)) chunks).
  rewrite (foldl_collect_returns _ _ (replicate (length chunks) VNone)) by done.
  f_equal. apply list_eq. intros i. rewrite list_lookup_imap.
  destruct (chunks !! i) as [c|] eqn:E; simpl.
  - apply fill_lookup.
    + rewrite (Hperm futures). unfold futures. rewrite futures_indices.
      apply NoDup_seq.
    + rewrite (Hperm futures). unfold futures.
      by apply (elem_of_lookup_imap_2
                  (fun idx chunk => (submit backend pool_fault chunk idx, idx))).
    + rewrite length_replicate. by apply lookup_lt_Some in E.
  - apply lookup_ge_None. rewrite length_fill, length_replicate.
    by apply lookup_ge_None in E.
Qed.

(** The sequential loop returns the summaries of [enumerate(chunks)]. *)
Lemma summarize_each_returns chunks :
  forall k,
    outcome (summarize_each backend k chunks)
    = inr (imap (fun idx chunk =>
                   slot_of (summarize_chunk_sync backend chunk (k + idx))
                           (k + idx)) chunks).
Proof.
  induction chunks as [|chunk chunks IH]; intros k; [done|].
  cbn [summarize_each imap].
  destruct (summarize_chunk_sync_returns chunk k) as [summary Hrun].
  rewrite outcome_bind. rewrite Hrun at 1. cbn [outcome snd].
  rewrite outcome_bind, IH. cbn [outcome snd mret M_ret].
  rewrite Nat.add_0_r. unfold slot_of at 1. rewrite Hrun. cbn [snd].
  do 2 f_equal. apply imap_ext. intros i c _. simpl.
  by rewrite Nat.add_succ_r.
Qed.

End Scheduler.

(** ** Merge stage and orchestrator *)

Section Orchestrator.

Variable backend : request -> reply.
Variable pool_fault : nat -> option exn.
Variable as_completed : list (M value * nat) -> list (M value * nat).
Variable firestore_set : status_doc -> option exn.
Variable supabase_insert : summary_row -> option exn.

Implicit Types (text : str) (summaries : list str) (chunks : list str)
  (items : list value).

Lemma join_items_strings summaries :
  forall i, join_items i (VStr <$> summaries) = inr summaries.
Proof.
  induction summaries as [|s ss IH]; intros i; [done|].
  rewrite fmap_cons. cbn [join_items]. by rewrite IH.
Qed.

(** A join that succeeds joined strings only. *)
Lemma join_items_inr items parts :
  forall i, join_items i items = inr parts -> items = VStr <$> parts.
Proof.
  revert parts. induction items as [|v items IH]; intros parts i.
  - by intros [= <-].
  - destruct v; cbn [join_items]; try done.
    destruct (join_items (S i) items) as [e|ps] eqn:E; [done|].
    intros [= <-]. rewrite fmap_cons. f_equal. by eapply IH.
Qed.

(** A join that fails raises [TypeError]. *)
Lemma join_items_inl items e :
  forall i, join_items i items = inl e -> exists msg, e = TypeError msg.
Proof.
  induction items as [|v items IH]; intros i; [done|].
  destruct v; cbn [join_items]; try (intros [= <-]; eauto).
  destruct (join_items (S i) items) as [e'|ps] eqn:E; [|done].
  intros [= <-]. by eapply IH.
Qed.

Lemma join_summaries_populated summaries :
  join_summaries (VStr <$> summaries) = mret (join [NL] summaries).
Proof. unfold join_summaries. by rewrite join_items_strings. Qed.

(** The merge stage joins first, outside its [try]; then it posts one
    request, built from the join of the summaries in list order, and
    maps the reply as the handlers say. *)
Lemma merge_run_items items :
  _merge_summaries backend items
  = match join_items 0 items with
    | inl e => ([], inl e)
    | inr parts =>
        ([EvBackend (merge_request (join [NL] parts))],
         match backend (merge_request (join [NL] parts)) with
         | Response r => inr (default (VStr []) r)
         | Raises (ReadTimeout _) =>
             inr (VStr (lit "Key Points:" ++ [NL] ++ join [NL] parts))
         | Raises e =>
             inl (ValueError (lit "Summary merge failed: " ++ exn_str e))
         end)
    end.
Proof.
  unfold _merge_summaries, join_summaries.
  destruct (join_items 0 items) as [e|parts]; [done|].
  unfold mbind, M_bind, mret, M_ret. cbn [fst snd]. rewrite post_run.
  unfold try_except. cbn [fst snd].
  destruct (backend (merge_request (join [NL] parts))) as [r|[m|m|m|m|m]];
    reflexivity.
Qed.

Lemma merge_run summaries :
  _merge_summaries backend (VStr <$> summaries)
  = ([EvBackend (merge_request (join [NL] summaries))],
     match backend (merge_request (join [NL] summaries)) with
     | Response r => inr (default (VStr []) r)
     | Raises (ReadTimeout _) =>
         inr (VStr (lit "Key Points:" ++ [NL] ++ join [NL] summaries))
     | Raises e =>
         inl (ValueError (lit "Summary merge failed: " ++ exn_str e))
     end).
Proof. by rewrite merge_run_items, join_items_strings. Qed.

Lemma single_run text :
  _generate_single_summary backend text
  = ([EvBackend (single_request text)],
     match backend (single_request text) with
     | Response r => inr (default (VStr []) r)
     | Raises (ReadTimeout _) =>
         inl (ValueError (lit "Summary generation timed out. Please try with a smaller document."))
     | Raises e =>
         inl (ValueError (lit "Summary generation failed: " ++ exn_str e))
     end).
Proof.
  unfold _generate_single_summary. rewrite post_run.
  unfold try_except. cbn [fst snd].
  destruct (backend (single_request text)) as [r|[m|m|m|m|m]]; reflexivity.
Qed.

Lemma generate_summary_short text :
  len (clean_text_for_llm text DEFAULT_MAX_CHARS) < SHORT_TEXT_THRESHOLD ->
  generate_summary backend pool_fault as_completed text
  = _generate_single_summary backend (clean_text_for_llm text DEFAULT_MAX_CHARS).
Proof.
  intros H. unfold generate_summary.
  destruct (Z.ltb_spec (len (clean_text_for_llm text DEFAULT_MAX_CHARS))
              SHORT_TEXT_THRESHOLD); [done | lia].
Qed.

Lemma generate_summary_long text :
  SHORT_TEXT_THRESHOLD <= len (clean_text_for_llm text DEFAULT_MAX_CHARS) ->
  generate_summary backend pool_fault as_completed text
  = (let chunks := chunk_text (clean_text_for_llm text DEFAULT_MAX_CHARS) in
     _ ← emit (EvChunks chunks);
     chunk_summaries ←
       (if (length chunks <=? 2)%nat then summarize_each backend 0 chunks
        else _parallel_chunk_summarization backend pool_fault as_completed chunks);
     _merge_summaries backend chunk_summaries).
Proof.
  intros H. unfold generate_summary.
  destruct (Z.ltb_spec (len (clean_text_for_llm text DEFAULT_MAX_CHARS))
              SHORT_TEXT_THRESHOLD); [lia | done].
Qed.

(** Either way the fan-out stage returns one slot per chunk. *)
Lemma fan_out_returns chunks :
  yields_each_once as_completed ->
  outcome (if (length chunks <=? 2)%nat then summarize_each backend 0 chunks
           else _parallel_chunk_summarization backend pool_fault as_completed chunks)
  = inr (segment_summaries backend pool_fault chunks).
Proof.
  intros Hperm. unfold segment_summaries.
  destruct (length chunks <=? 2)%nat.
  - by rewrite summarize_each_returns.
  - by rewrite parallel_returns.
Qed.

(** The segment summary of a chunk: the task sentinel when the pool lost
    the task in the scheduler, what [summarize_chunk_sync] returned
    otherwise. *)
Lemma segment_summaries_lookup chunks i chunk :
  chunks !! i = Some chunk ->
  exists v,
    segment_summaries backend pool_fault chunks !! i = Some v
    /\ (v = VStr (task_failure_sentinel i)
        \/ outcome (summarize_chunk_sync backend chunk i) = inr v).
Proof.
  intros Hi. unfold segment_summaries.
  destruct (length chunks <=? 2)%nat; rewrite list_lookup_imap, Hi;
    cbn [fmap option_fmap option_map]; eexists; (split; [done|]).
  - right. unfold slot_of.
    by destruct (summarize_chunk_sync_returns backend chunk i) as [s ->].
  - unfold submit, slot_of. destruct (pool_fault i); [by left|]. right.
    by destruct (summarize_chunk_sync_returns backend chunk i) as [s ->].
Qed.

(** When the backend never answers a chunk with a falsy object that is
    not a string, every segment summary is a string. *)
Lemma segment_summaries_text chunks :
  answers_chunks_with_text backend ->
  exists summaries,
    segment_summaries backend pool_fault chunks = VStr <$> summaries.
Proof.
  intros Htext.
  assert (Forall (fun v => exists s, v = VStr s)
            (segment_summaries backend pool_fault chunks)) as Hall.
  { apply Forall_lookup. intros i v Hv.
    assert (is_Some (chunks !! i)) as [chunk Hi].
    { apply lookup_lt_is_Some. apply lookup_lt_Some in Hv.
      unfold segment_summaries in Hv.
      by destruct (length chunks <=? 2)%nat; rewrite length_imap in Hv. }
    destruct (segment_summaries_lookup chunks i chunk Hi) as (v' & Hv' & Hcase).
    rewrite Hv in Hv'. injection Hv' as <-.
    destruct Hcase as [->|Hrun]; [eauto|].
    destruct (summarize_chunk_sync_text backend chunk i) as [s Hs].
    - intros w. apply Htext.
    - rewrite Hrun in Hs. injection Hs as ->. eauto. }
  induction Hall as [|v vs [s ->] _ [ss ->]]; [by exists []|].
  by exists (s :: ss).
Qed.

(** On the chunked path the outcome of [generate_summary] is that of
    the merge call on the segment summaries. *)
Lemma generate_summary_long_outcome text :
  yields_each_once as_completed ->
  SHORT_TEXT_THRESHOLD <= len (clean_text_for_llm text DEFAULT_MAX_CHARS) ->
  outcome (generate_summary backend pool_fault as_completed text)
  = outcome (_merge_summaries backend
               (segment_summaries backend pool_fault
                  (chunk_text (clean_text_for_llm text DEFAULT_MAX_CHARS)))).
Proof.
  intros Hperm Hlong. rewrite generate_summary_long by exact Hlong. cbv zeta.
  rewrite outcome_bind. change (outcome (emit _)) with (@inr exn unit tt).
  cbv beta iota. rewrite outcome_bind. by rewrite fan_out_returns.
Qed.

Lemma blank_false_iff (s : str) : blank s = false <-> strip s <> [].
Proof.
  unfold blank. destruct s as [|c s]; [by vm_compute|]. simpl.
  destruct (strip (c :: s)); simpl; split; congruence.
Qed.



End Orchestrator.

(** ** The pipeline claims *)

Section PipelineClaims.

Variable backend : request -> reply.
Variable pool_fault : nat -> option exn.
Variable as_completed : list (M value * nat) -> list (M value * nat).
Variable firestore_set : status_doc -> option exn.
Variable supabase_insert : summary_row -> option exn.

Implicit Types (text : str) (summaries : list str) (chunks : list str).

(** C1.  [generate_summary] normalizes first.  Below 3,000 normalized
    characters it is the single-pass call: one backend request and no
    chunk list.  From 3,000 on, 3,000 itself included, it builds the
    chunk list, fans out over it and merges. *)
Theorem generate_summary_paths text :
  let cleaned := clean_text_for_llm text DEFAULT_MAX_CHARS in
  let chunks := chunk_text cleaned in
  let chunked :=
    _ ← emit (EvChunks chunks);
    chunk_summaries ←
      (if (length chunks <=? 2)%nat then summarize_each backend 0 chunks
       else _parallel_chunk_summarization backend pool_fault as_completed chunks);
    _merge_summaries backend chunk_summaries in
  (len cleaned < 3000 ->
     generate_summary backend pool_fault as_completed text
     = _generate_single_summary backend cleaned
     /\ trace (generate_summary backend pool_fault as_completed text)
        = [EvBackend (single_request cleaned)]
     /\ no_chunks (trace (generate_summary backend pool_fault as_completed text)))
  /\ (3000 <= len cleaned ->
     generate_summary backend pool_fault as_completed text = chunked
     /\ exists rest,
          trace (generate_summary backend pool_fault as_completed text)
          = EvChunks chunks :: rest)
  /\ (len cleaned = 3000 ->
     generate_summary backend pool_fault as_completed text = chunked).
Proof.
  intros cleaned chunks chunked. split_and!.
  - intros Hshort. rewrite generate_summary_short by exact Hshort.
    fold cleaned. rewrite single_run. split_and!; [done | done |].
    intros cs Hin. apply list_elem_of_singleton in Hin. discriminate Hin.
  - intros Hlong. rewrite generate_summary_long by exact Hlong.
    split; [done|]. fold cleaned chunks. cbv zeta.
    eexists. by apply (trace_bind_returned (emit (EvChunks chunks)) _ tt).
  - intros Heq. apply generate_summary_long.
    fold cleaned. rewrite Heq. by vm_compute.
Qed.

(** C4, as the code has it.  Whatever the order in which the futures
    complete, the scheduler returns as many slots as there are chunks,
    and slot [i] holds the object of the future of chunk [i]: what
    [summarize_chunk_sync] returned for that chunk and index, or the
    task sentinel of that index.  That object is a string unless the
    backend answered the chunk with a ["response"] member that is falsy
    and not a string; such a member, [None] for a JSON null, is what the
    slot then holds.  The sequential loop does the same, and
    [generate_summary] runs the sequential loop for at most two chunks
    and the scheduler for more. *)
Theorem fan_out_preserves_order chunks :
  yields_each_once as_completed ->
  (exists slots,
     outcome (_parallel_chunk_summarization backend pool_fault as_completed chunks)
     = inr slots
     /\ length slots = length chunks
     /\ forall i chunk, chunks !! i = Some chunk ->
          exists summary,
            slots !! i = Some summary
            /\ summary = slot_of (submit backend pool_fault chunk i) i
            /\ (outcome (summarize_chunk_sync backend chunk i) = inr summary
                \/ summary = VStr (task_failure_sentinel i))
            /\ ((forall v, backend (chunk_request chunk) = Response (Some v) ->
                           ~ falsy_non_string v) ->
                exists s, summary = VStr s)
            /\ (forall v, pool_fault i = None ->
                          backend (chunk_request chunk) = Response (Some v) ->
                          falsy_non_string v -> summary = v))
  /\ (exists slots,
     outcome (summarize_each backend 0 chunks) = inr slots
     /\ length slots = length chunks
     /\ forall i chunk, chunks !! i = Some chunk ->
          exists summary,
            slots !! i = Some summary
            /\ outcome (summarize_chunk_sync backend chunk i) = inr summary
            /\ ((forall v, backend (chunk_request chunk) = Response (Some v) ->
                           ~ falsy_non_string v) ->
                exists s, summary = VStr s)
            /\ (forall v, backend (chunk_request chunk) = Response (Some v) ->
                          falsy_non_string v -> summary = v))
  /\ (forall text,
        let split := chunk_text (clean_text_for_llm text DEFAULT_MAX_CHARS) in
        3000 <= len (clean_text_for_llm text DEFAULT_MAX_CHARS) ->
        ((length split <= 2)%nat ->
           generate_summary backend pool_fault as_completed text
           = (_ ← emit (EvChunks split);
              chunk_summaries ← summarize_each backend 0 split;
              _merge_summaries backend chunk_summaries))
        /\ ((2 < length split)%nat ->
           generate_summary backend pool_fault as_completed text
           = (_ ← emit (EvChunks split);
              chunk_summaries ←
                _parallel_chunk_summarization backend pool_fault as_completed split;
              _merge_summaries backend chunk_summaries))).
Proof.
  intros Hperm.
  assert (forall chunk i summary,
            outcome (summarize_chunk_sync backend chunk i) = inr summary ->
            ((forall v, backend (chunk_request chunk) = Response (Some v) ->
                        ~ falsy_non_string v) ->
             exists s, summary = VStr s)
            /\ (forall v, backend (chunk_request chunk) = Response (Some v) ->
                          falsy_non_string v -> summary = v)) as Hshape.
  { intros chunk i summary Hrun. split.
    - intros Htext.
      destruct (summarize_chunk_sync_text backend chunk i Htext) as [s Hs].
      rewrite Hrun in Hs. injection Hs as ->. eauto.
    - intros v Hv Hfalsy.
      rewrite (summarize_chunk_sync_falsy backend chunk i v Hv Hfalsy) in Hrun.
      by injection Hrun. }
  split_and!.
  - eexists. split; [by apply parallel_returns|].
    split; [by rewrite length_imap|].
    intros i chunk Hi. eexists. split; [|split; [reflexivity|]].
    { rewrite list_lookup_imap, Hi. reflexivity. }
    unfold submit, slot_of. destruct (pool_fault i) as [e|] eqn:Hfault.
    + cbn [raise snd]. split_and!; [by right | eauto | done].
    + destruct (summarize_chunk_sync_returns backend chunk i) as [s Hrun].
      rewrite Hrun. cbn [snd].
      assert (outcome (summarize_chunk_sync backend chunk i) = inr s) as Hout
        by by rewrite Hrun.
      destruct (Hshape chunk i s Hout) as [Htext Hfalsy].
      split_and!; [by left | done | intros v _; apply Hfalsy].
  - eexists. split; [apply summarize_each_returns|].
    split; [by rewrite length_imap|].
    intros i chunk Hi. eexists. split; [|split].
    + rewrite list_lookup_imap, Hi. reflexivity.
    + simpl. unfold slot_of.
      destruct (summarize_chunk_sync_returns backend chunk i) as [s ->].
      done.
    + apply (Hshape chunk i). simpl. unfold slot_of.
      destruct (summarize_chunk_sync_returns backend chunk i) as [s ->].
      done.
  - intros text split Hlong. rewrite generate_summary_long by exact Hlong.
    fold split. cbv zeta. split; intros Hn.
    + by rewrite (proj2 (Nat.leb_le _ _) Hn).
    + by rewrite (proj2 (Nat.leb_gt _ _) Hn).
Qed.


(** C6, as the code has it.  [summarize_chunk_sync] always returns, and
    when its backend call raises it returns
    ["• [Chunk N processing failed: ...]"] with [N] the index plus one
    and the first 50 characters of the error.  A future that raises
    leaves ["• [Chunk N failed]"] in its slot: the same chunk tag, a
    different text.  The fan-out stage never raises, and the block the
    merge stage joins holds, for every chunk whose task ran, the string
    [summarize_chunk_sync] returned for it; the segment summaries are
    strings, and the join succeeds, when the backend answers no chunk
    with a falsy object that is not a string. *)
Theorem chunk_failures_contained chunks :
  yields_each_once as_completed ->
  (forall chunk idx,
     exists summary, outcome (summarize_chunk_sync backend chunk idx) = inr summary)
  /\ (forall chunk idx e,
        backend (chunk_request chunk) = Raises e ->
        outcome (summarize_chunk_sync backend chunk idx)
        = inr (VStr (chunk_failure_sentinel idx e))
        /\ contains (chunk_tag idx) (chunk_failure_sentinel idx e))
  /\ (forall i chunk e,
        chunks !! i = Some chunk -> pool_fault i = Some e ->
        exists slots,
          outcome (_parallel_chunk_summarization backend pool_fault as_completed chunks)
          = inr slots
          /\ slots !! i = Some (VStr (task_failure_sentinel i))
          /\ contains (chunk_tag i) (task_failure_sentinel i))
  /\ (outcome (if (length chunks <=? 2)%nat then summarize_each backend 0 chunks
               else _parallel_chunk_summarization backend pool_fault as_completed chunks)
      = inr (segment_summaries backend pool_fault chunks)
      /\ length (segment_summaries backend pool_fault chunks) = length chunks
      /\ (forall j chunk,
           chunks !! j = Some chunk -> pool_fault j = None ->
           exists summary,
             segment_summaries backend pool_fault chunks !! j = Some summary
             /\ outcome (summarize_chunk_sync backend chunk j) = inr summary
             /\ forall strings,
                  segment_summaries backend pool_fault chunks = VStr <$> strings ->
                  exists s,
                    summary = VStr s
                    /\ join_summaries (segment_summaries backend pool_fault chunks)
                       = mret (join [NL] strings)
                    /\ contains s (join [NL] strings))
      /\ (answers_chunks_with_text backend ->
          exists strings,
            segment_summaries backend pool_fault chunks = VStr <$> strings)).
Proof.
  intros Hperm. split_and!.
  - intros chunk idx.
    destruct (summarize_chunk_sync_returns backend chunk idx) as [s ->]. eauto.
  - intros chunk idx e He.
    rewrite (summarize_chunk_sync_failure backend chunk idx e) by done.
    split; [done|]. exists [BULLET; SPACE]. eexists.
    unfold chunk_failure_sentinel, chunk_tag. by rewrite <- !app_assoc.
  - intros i chunk e Hi He. eexists. split; [by apply parallel_returns|].
    split.
    + rewrite list_lookup_imap, Hi. simpl. by rewrite (submit_fault _ _ _ _ e).
    + exists [BULLET; SPACE], (lit " failed]").
      unfold task_failure_sentinel, chunk_tag. by rewrite <- !app_assoc.
  - by apply fan_out_returns.
  - unfold segment_summaries. destruct (length chunks <=? 2)%nat;
      by rewrite length_imap.
  - intros j chunk Hj Hnf.
    assert (segment_summaries backend pool_fault chunks !! j
            = Some (slot_of (summarize_chunk_sync backend chunk j) j)) as Hslot.
    { unfold segment_summaries. destruct (length chunks <=? 2)%nat;
        rewrite list_lookup_imap, Hj; simpl; [done|].
      by rewrite submit_no_fault. }
    eexists. split; [exact Hslot|]. split.
    + unfold slot_of.
      destruct (summarize_chunk_sync_returns backend chunk j) as [s ->]. done.
    + intros strings Hstrings. rewrite Hstrings in Hslot |- *.
      rewrite list_lookup_fmap in Hslot.
      destruct (strings !! j) as [s|] eqn:Hs; [|done].
      injection Hslot as <-. exists s. split_and!; [done | |].
      * apply join_summaries_populated.
      * apply join_contains. by eapply list_elem_of_lookup_2.
  - intros Htext. by apply segment_summaries_text.
Qed.

(** C10.  On the single-pass path a backend call that raises, a read
    timeout like any other error, makes [generate_summary] raise
    [ValueError]; nothing is returned.  A read timeout of the merge
    call, by contrast, returns the header and the joined bullets. *)
Theorem single_pass_failure_raises text e :
  len (clean_text_for_llm text DEFAULT_MAX_CHARS) < 3000 ->
  backend (single_request (clean_text_for_llm text DEFAULT_MAX_CHARS)) = Raises e ->
  generate_summary backend pool_fault as_completed text
  = ([EvBackend (single_request (clean_text_for_llm text DEFAULT_MAX_CHARS))],
     inl (ValueError
            match e with
            | ReadTimeout _ =>
                lit "Summary generation timed out. Please try with a smaller document."
            | _ => lit "Summary generation failed: " ++ exn_str e
            end))
  /\ (forall summaries msg,
        backend (merge_request (join [NL] summaries)) = Raises (ReadTimeout msg) ->
        outcome (_merge_summaries backend (VStr <$> summaries))
        = inr (VStr (lit "Key Points:" ++ [NL] ++ join [NL] summaries))).
Proof.
  intros Hshort He. split.
  - rewrite generate_summary_short by exact Hshort.
    rewrite single_run, He. by destruct e.
  - intros summaries msg Hto. by rewrite merge_run, Hto.
Qed.

End PipelineClaims.

(** ** Entry points on blank input *)

Section BlankInput.

Variable backend : request -> reply.
Variable pool_fault : nat -> option exn.
Variable as_completed : list (M value * nat) -> list (M value * nat).
Variable firestore_set : status_doc -> option exn.
Variable supabase_insert : summary_row -> option exn.
Variable download_from_storage : str -> exn + list N.
Variable extract_pdf : list N -> exn + str.
Variable extract_tika : list N -> str -> exn + str.
Variable extract_image_ocr : list N -> exn + str.
Variable extract_audio : list N -> str -> exn + str.
Variable extract_video : list N -> str -> exn + str.
Variable extract_url : str -> exn + str.

Hypothesis sink_accepts : forall d, firestore_set d = None.

Lemma extract_by_type_silent file_type file_bytes file_ext :
  trace (extract_by_type extract_pdf extract_tika extract_image_ocr
           extract_audio extract_video file_type file_bytes file_ext) = [].
Proof.
  unfold extract_by_type. by repeat case_match.
Qed.

(** [process_url] stops on blank extracted text before any backend
    call and reports it. *)
Lemma process_url_guards_blank uid file_id url extracted :
  extract_url url = inr extracted -> blank extracted = true ->
  process_url backend pool_fault as_completed firestore_set supabase_insert
    extract_url uid file_id url
  = ([EvStatus {| sd_firebase_uid := uid; sd_file_id := file_id;
                  sd_status := Extracting; sd_progress := 40;
                  sd_message := lit "Extracting content from URL..." |};
      EvStatus {| sd_firebase_uid := uid; sd_file_id := file_id;
                  sd_status := Error; sd_progress := 0;
                  sd_message := lit "No content could be extracted from URL" |}],
     inl (ValueError (lit "No content could be extracted from URL"))).
Proof.
  intros Hext Hblank.
  unfold process_url, report_error, update_status, call.
  unfold try_except, mbind, M_bind, emit, mret, M_ret, raise. cbn [fst snd].
  rewrite !sink_accepts. cbn [fst snd]. rewrite Hext. cbn [fst snd].
  rewrite Hblank. cbn [fst snd]. rewrite !sink_accepts. reflexivity.
Qed.

(** [process_file] does the same. *)
Lemma process_file_guards_blank uid file_id storage_path file_type
    file_bytes extracted :
  download_from_storage storage_path = inr file_bytes ->
  outcome (extract_by_type extract_pdf extract_tika extract_image_ocr
             extract_audio extract_video file_type file_bytes
             (file_extension storage_path file_type)) = inr extracted ->
  blank extracted = true ->
  process_file backend pool_fault as_completed firestore_set supabase_insert
    download_from_storage extract_pdf extract_tika extract_image_ocr
    extract_audio extract_video uid file_id storage_path file_type
  = ([EvStatus {| sd_firebase_uid := uid; sd_file_id := file_id;
                  sd_status := Extracting; sd_progress := 40;
                  sd_message := lit "Extracting text from " ++ file_type ++ lit "..." |};
      EvStatus {| sd_firebase_uid := uid; sd_file_id := file_id;
                  sd_status := Error; sd_progress := 0;
                  sd_message := lit "No text could be extracted from file" |}],
     inl (ValueError (lit "No text could be extracted from file"))).
Proof.
  intros Hdl Hext Hblank.
  pose proof (extract_by_type_silent file_type file_bytes
                (file_extension storage_path file_type)) as Hsilent.
  unfold process_file, report_error, update_status, call.
  unfold try_except, mbind, M_bind, emit, mret, M_ret, raise. cbn [fst snd].
  rewrite !sink_accepts. cbn [fst snd]. rewrite Hdl. cbn [fst snd].
  destruct (extract_by_type _ _ _ _ _ _ _ _) as [t [e|s]];
    unfold trace, outcome in *; simplify_eq/=.
  rewrite Hblank. cbn [fst snd]. rewrite !sink_accepts. reflexivity.
Qed.

Lemma process_url_blank_no_backend_call uid file_id url extracted :
  extract_url url = inr extracted -> blank extracted = true ->
  no_backend_call
    (trace (process_url backend pool_fault as_completed firestore_set
              supabase_insert extract_url uid file_id url)).
Proof.
  intros Hext Hblank r.
  rewrite (process_url_guards_blank uid file_id url extracted) by done.
  unfold trace. cbn [fst]. rewrite !not_elem_of_cons. split_and!; try done.
  apply not_elem_of_nil.
Qed.

Lemma process_file_blank_no_backend_call uid file_id storage_path file_type
    file_bytes extracted :
  download_from_storage storage_path = inr file_bytes ->
  outcome (extract_by_type extract_pdf extract_tika extract_image_ocr
             extract_audio extract_video file_type file_bytes
             (file_extension storage_path file_type)) = inr extracted ->
  blank extracted = true ->
  no_backend_call
    (trace (process_file backend pool_fault as_completed firestore_set
              supabase_insert download_from_storage extract_pdf extract_tika
              extract_image_ocr extract_audio extract_video uid file_id
              storage_path file_type)).
Proof.
  intros Hdl Hext Hblank r.
  rewrite (process_file_guards_blank uid file_id storage_path file_type
             file_bytes extracted) by done.
  unfold trace. cbn [fst]. rewrite !not_elem_of_cons. split_and!; try done.
  apply not_elem_of_nil.
Qed.

(** [process_text] has no such check: on every text that trims to
    nothing it posts the single-pass request for the empty string. *)
Lemma process_text_blank_calls_backend uid file_id text title :
  strip text = [] ->
  EvBackend (single_request [])
  ∈ trace (process_text backend pool_fault as_completed firestore_set
             supabase_insert uid file_id text title).
Proof.
  intros Hblank.
  assert (clean_text_for_llm text DEFAULT_MAX_CHARS = []) as Hclean.
  { rewrite clean_fits; rewrite collapse_blank by done; done. }
  assert (generate_summary backend pool_fault as_completed text
          = _generate_single_summary backend []) as Hgen.
  { rewrite generate_summary_short; rewrite Hclean; done. }
  unfold process_text, summarize_and_save, update_status.
  rewrite Hgen, single_run.
  unfold try_except, mbind, M_bind, emit, mret, M_ret, trace. cbn [fst snd].
  rewrite !sink_accepts. cbn [fst snd].
  repeat case_match; cbn [fst snd];
    rewrite ?elem_of_app, !elem_of_cons; naive_solver.
Qed.

End BlankInput.

(** C9 fails on [process_text]: the empty text, and a text of white space
    only, normalize to the empty string, which is shorter than the
    threshold, so the single-pass request is posted with an empty study
    material; with a backend that answers, the answer is stored and the
    status is [complete].  [process_url] and [process_file] do check for
    blank text first (see [process_url_guards_blank] and
    [process_file_guards_blank]); [process_text] and [generate_summary]
    have no such check, whatever the backend
    (see [process_text_blank_calls_backend]). *)
Theorem process_text_blank_input_reaches_backend :
  let expected :=
    ([EvStatus (summarizing_doc (lit "uid") (lit "doc"));
      EvBackend (single_request []);
      EvInsert {| document_id := lit "doc"; firebase_uid := lit "uid";
                  summary_text := [BULLET; SPACE] ++ lit "stub"; version := 1 |};
      EvStatus (complete_doc (lit "uid") (lit "doc"))],
     inr tt) in
  process_text stub_backend no_fault last_first accept accept
    (lit "uid") (lit "doc") [] (lit "title") = expected
  /\ process_text stub_backend no_fault last_first accept accept
       (lit "uid") (lit "doc") [SPACE; NL; SPACE] (lit "title") = expected.
Proof. split; vm_compute; reflexivity. Qed.

Lemma last_first_yields_each_once : yields_each_once last_first.
Proof. intros futures. apply reverse_Permutation. Qed.

(** C6 fails where it equates the two sentinels: with the task of index 0
    lost by the pool, slot 0 holds ["• [Chunk 1 failed]"], and no error
    makes [summarize_chunk_sync]'s sentinel for index 0 equal to it. *)
Lemma task_sentinel_differs :
  outcome (_parallel_chunk_summarization stub_backend fault_at_0 last_first
             [lit "x"; lit "y"; lit "z"])
  = inr [VStr ([BULLET; SPACE] ++ lit "[Chunk 1 failed]");
         VStr ([BULLET; SPACE] ++ lit "stub");
         VStr ([BULLET; SPACE] ++ lit "stub")]
  /\ ~ exists e, task_failure_sentinel 0 = chunk_failure_sentinel 0 e.
Proof.
  split; [vm_compute; reflexivity|].
  intros [e He]. apply (f_equal (fun s : str => s !! 11%nat)) in He.
  vm_compute in He. discriminate He.
Qed.

(** C4 fails where it says that no slot is ever [None]: with a backend
    that answers every request with [{"response": null}],
    [summarize_chunk_sync] returns [None], every slot of the scheduler
    and of the sequential loop holds [None], and on a text of five
    chunks the join of the merge stage raises [TypeError], which
    [generate_summary] raises in turn. *)
Lemma fan_out_null_reply :
  outcome (_parallel_chunk_summarization null_backend no_fault last_first
             [lit "x"; lit "y"; lit "z"])
  = inr [VNone; VNone; VNone]
  /\ outcome (summarize_each null_backend 0 [lit "x"; lit "y"])
     = inr [VNone; VNone]
  /\ outcome (generate_summary null_backend no_fault last_first longer_text)
     = inl (TypeError
              (lit "sequence item 0: expected str instance, NoneType found")).
Proof. split_and!; vm_compute; reflexivity. Qed.


(** ** Instances *)

Lemma generate_summary_paths_witness :
  trace (generate_summary stub_backend no_fault last_first (lit "Hello."))
  = [EvBackend (single_request (lit "Hello."))]
  /\ exists rest,
       trace (generate_summary stub_backend no_fault last_first long_text)
       = EvChunks (chunk_text (clean_text_for_llm long_text DEFAULT_MAX_CHARS)) :: rest.
Proof.
  destruct (generate_summary_paths stub_backend no_fault last_first (lit "Hello."))
    as (Hshort & _ & _).
  destruct (generate_summary_paths stub_backend no_fault last_first long_text)
    as (_ & Hlong & _).
  split.
  - apply Hshort. vm_compute. reflexivity.
  - apply Hlong. vm_compute. congruence.
Defined.

Lemma fan_out_preserves_order_witness :
  exists slots,
    outcome (_parallel_chunk_summarization stub_backend no_fault last_first
               [lit "x"; lit "y"; lit "z"]) = inr slots
    /\ length slots = 3%nat
    /\ exists s, slots !! 1%nat = Some (VStr s).
Proof.
  destruct (fan_out_preserves_order stub_backend no_fault last_first
              [lit "x"; lit "y"; lit "z"] last_first_yields_each_once)
    as ((slots & Hrun & Hlen & Hslots) & _).
  destruct (Hslots 1%nat (lit "y") eq_refl)
    as (summary & Hslot & _ & _ & Htext & _).
  destruct Htext as [s Hs].
  - intros v [= <-] [Hfalsy _]. discriminate Hfalsy.
  - exists slots. split; [exact Hrun|]. split; [exact Hlen|].
    exists s. rewrite Hslot, Hs. reflexivity.
Defined.


Lemma chunk_failures_contained_witness :
  outcome (summarize_chunk_sync failing_backend (lit "x") 1)
  = inr (VStr (chunk_failure_sentinel 1 (OtherError (lit "Connection refused"))))
  /\ exists slots,
       outcome (_parallel_chunk_summarization failing_backend fault_at_0 last_first
                  [lit "x"; lit "y"; lit "z"]) = inr slots
       /\ slots !! 0%nat = Some (VStr (task_failure_sentinel 0)).
Proof.
  destruct (chunk_failures_contained failing_backend fault_at_0 last_first
              [lit "x"; lit "y"; lit "z"] last_first_yields_each_once)
    as (_ & Hsync & Htask & _).
  split.
  - apply (Hsync (lit "x") 1%nat (OtherError (lit "Connection refused"))).
    reflexivity.
  - destruct (Htask 0%nat (lit "x") (OtherError (lit "cancelled")))
      as (slots & Hrun & Hslot & _); [reflexivity | reflexivity |].
    exists slots. split; [exact Hrun | exact Hslot].
Defined.

Lemma single_pass_failure_raises_witness :
  outcome (generate_summary timeout_backend no_fault last_first (lit "Hello."))
  = inl (ValueError
           (lit "Summary generation timed out. Please try with a smaller document.")).
Proof.
  destruct (single_pass_failure_raises timeout_backend no_fault last_first
              (lit "Hello.") (ReadTimeout (lit "timed out"))) as [Hrun _].
  - vm_compute. reflexivity.
  - reflexivity.
  - rewrite Hrun. reflexivity.
Defined.

(** * Further properties of the code *)

(** ** What the normalizer keeps *)

Section NormalizerContent.

Implicit Types (s text : str) (ls : list str).

Lemma visible_lstrip s : visible (lstrip s) = visible s.
Proof.
  unfold visible. induction s as [|c s IH]; [done|]. cbn [lstrip].
  destruct (isspace c) eqn:Hc; [|done].
  rewrite IH. symmetry. apply filter_cons_False. congruence.
Qed.

Lemma visible_strip s : visible (strip s) = visible s.
Proof.
  unfold strip, rstrip. unfold visible at 1.
  rewrite filter_reverse. fold (visible (lstrip (reverse (lstrip s)))).
  rewrite visible_lstrip. unfold visible at 1.
  rewrite filter_reverse, reverse_involutive. apply visible_lstrip.
Qed.

Lemma visible_spaces s : Forall (fun c => isspace c = true) s -> visible s = [].
Proof.
  unfold visible. induction 1 as [|c s Hc _ IH]; [done|].
  rewrite filter_cons_False by congruence. done.
Qed.

Lemma visible_app s t : visible (s ++ t) = visible s ++ visible t.
Proof. apply filter_app. Qed.

Lemma mjoin_cons {X} (l : list X) (ls : list (list X)) :
  mjoin (l :: ls) = l ++ mjoin ls.
Proof. reflexivity. Qed.

Lemma visible_join ls : visible (join [NL] ls) = mjoin (visible <$> ls).
Proof.
  induction ls as [|l ls IH]; [done|].
  destruct ls as [|l' ls].
  - rewrite fmap_cons, mjoin_cons. cbn [join]. by rewrite app_nil_r.
  - change (join [NL] (l :: l' :: ls)) with (l ++ [NL] ++ join [NL] (l' :: ls)).
    by rewrite !visible_app, IH, (fmap_cons visible l), mjoin_cons.
Qed.

Lemma visible_cons (c : char) s :
  visible (c :: s) = if isspace c then visible s else c :: visible s.
Proof.
  unfold visible. rewrite filter_cons.
  destruct (isspace c) eqn:Hc; [by rewrite decide_False | by rewrite decide_True].
Qed.

Lemma visible_split s : mjoin (visible <$> split NL s) = visible s.
Proof.
  induction s as [|c s IH]; [done|]. cbn [split].
  destruct (N.eqb_spec c NL) as [->|Hne].
  - by rewrite fmap_cons, mjoin_cons, IH.
  - pose proof (split_nonempty NL s) as Hsplit.
    destruct (split NL s) as [|l ls]; [done|].
    rewrite !fmap_cons, !mjoin_cons in *. rewrite !visible_cons, <- IH.
    by destruct (isspace c).
Qed.

Lemma visible_collapse_lines ls :
  mjoin (visible <$> map strip (filter (fun line => truthy (strip line) = true) ls))
  = mjoin (visible <$> ls).
Proof.
  induction ls as [|l ls IH]; [done|].
  rewrite filter_cons, (fmap_cons visible l), mjoin_cons.
  destruct (strip l) as [|c t] eqn:E; cbn [truthy].
  - rewrite decide_False by done. rewrite IH.
    by rewrite (visible_spaces l) by (by apply strip_nil_spaces).
  - rewrite decide_True by done.
    change (map strip (l :: ?k)) with (strip l :: map strip k).
    by rewrite fmap_cons, mjoin_cons, IH, visible_strip.
Qed.

Lemma visible_collapse text : visible (collapse text) = visible text.
Proof.
  unfold collapse, collapse_lines.
  by rewrite visible_join, visible_collapse_lines, visible_split.
Qed.

(** X1.  The normalizer removes white space only: as long as the
    collapsed text fits the cap, the characters of the result that are
    not white space are those of the input, in the same order. *)
Theorem clean_text_for_llm_keeps_visible text max_chars :
  len (collapse text) <= max_chars ->
  visible (clean_text_for_llm text max_chars) = visible text.
Proof. intros Hfit. rewrite clean_fits by done. apply visible_collapse. Qed.

(** [weight] counts every piece with the newline that follows it. *)
Lemma length_lstrip s : (length (lstrip s) <= length s)%nat.
Proof.
  induction s as [|c s IH]; [done|]. simpl.
  destruct (isspace c); simpl; lia.
Qed.

Lemma length_strip s : (length (strip s) <= length s)%nat.
Proof.
  unfold strip, rstrip. rewrite length_reverse.
  etrans; [apply length_lstrip|]. rewrite length_reverse. apply length_lstrip.
Qed.

Lemma length_join_weight (ls : list (list N)) :
  ls <> [] ->
  (S (length (join [NL] ls))
   = sum_list_with (fun l : list N => S (length l)) ls)%nat.
Proof.
  induction ls as [|l ls IH]; [done|]. intros _.
  destruct ls as [|l' ls].
  - simpl. unfold char in *. lia.
  - change (join [NL] (l :: l' :: ls)) with (l ++ [NL] ++ join [NL] (l' :: ls)).
    rewrite !length_app. specialize (IH ltac:(done)).
    cbn [sum_list_with] in *. cbn [length] in *. unfold char in *. lia.
Qed.

Lemma length_split_weight (s : list N) :
  (S (length s) = sum_list_with (fun l : list N => S (length l)) (split NL s))%nat.
Proof.
  induction s as [|c s IH]; [done|]. cbn [split].
  destruct (c =? NL)%N.
  - cbn [sum_list_with length] in *. unfold char in *. lia.
  - pose proof (split_nonempty NL s) as Hsplit.
    destruct (split NL s) as [|l ls]; [done|].
    cbn [sum_list_with length] in *. unfold char in *. lia.
Qed.

Lemma weight_collapse_lines (ls : list (list N)) :
  (sum_list_with (fun l : list N => S (length l))
     (map strip (filter (fun line => truthy (strip line) = true) ls))
   <= sum_list_with (fun l : list N => S (length l)) ls)%nat.
Proof.
  induction ls as [|l ls IH]; [done|].
  rewrite filter_cons. pose proof (length_strip l).
  destruct (decide (truthy (strip l) = true)); cbn [map sum_list_with];
    unfold str, char in *; lia.
Qed.

Lemma len_collapse text : len (collapse text) <= len text.
Proof.
  unfold len, collapse, collapse_lines.
  pose proof (weight_collapse_lines (split NL text)) as Hw.
  rewrite <- length_split_weight in Hw.
  destruct (map strip _) as [|l ls] eqn:E; [simpl; lia|].
  rewrite <- (length_join_weight (l :: ls)) in Hw by done.
  unfold str, char in *. lia.
Qed.

(** X2.  The normalizer never lengthens a text that fits the cap, and
    with a cap that is not negative its result never has more than
    [max_chars + 35] characters. *)
Theorem clean_text_for_llm_length text max_chars :
  (len (collapse text) <= max_chars ->
     len (clean_text_for_llm text max_chars) <= len text)
  /\ (0 <= max_chars ->
     len (clean_text_for_llm text max_chars) <= max_chars + 35).
Proof.
  split.
  - intros Hfit. rewrite clean_fits by done. apply len_collapse.
  - intros Hcap. destruct (Z.le_gt_cases (len (collapse text)) max_chars).
    + rewrite clean_fits by done. lia.
    + rewrite clean_truncates by lia.
      rewrite len_app, len_slice_to, len_TRUNCATION_NOTICE by lia. lia.
Qed.

End NormalizerContent.

Lemma clean_text_for_llm_keeps_visible_witness :
  visible (clean_text_for_llm (lit "  a b " ++ [NL] ++ lit "   c  ") 24000)
  = lit "abc".
Proof.
  rewrite (clean_text_for_llm_keeps_visible _ 24000); [reflexivity|].
  vm_compute. congruence.
Defined.

Lemma clean_text_for_llm_length_witness :
  len (clean_text_for_llm (lit " a  b ") 24000) <= 6
  /\ len (clean_text_for_llm (lit "abcdef") 3) <= 38.
Proof.
  split.
  - apply (clean_text_for_llm_length (lit " a  b ") 24000). vm_compute. congruence.
  - apply (clean_text_for_llm_length (lit "abcdef") 3). lia.
Defined.

(** ** What the splitter returns *)

Section SplitterOutput.

Implicit Types (s text : str) (start chunk_chars overlap_chars : Z).

Lemma lstrip_suffix s : exists pre, s = pre ++ lstrip s.
Proof.
  induction s as [|c s [pre IH]]; [by exists []|]. cbn [lstrip].
  destruct (isspace c); [|by exists []].
  exists (c :: pre). simpl. by rewrite <- IH.
Qed.

Lemma rstrip_prefix s : exists post, s = rstrip s ++ post.
Proof.
  destruct (lstrip_suffix (reverse s)) as [pre Hpre].
  exists (reverse pre). unfold rstrip.
  rewrite <- reverse_app, <- Hpre. by rewrite reverse_involutive.
Qed.

Lemma strip_contains s : contains (strip s) s.
Proof.
  destruct (lstrip_suffix s) as [pre Hpre].
  destruct (rstrip_prefix (lstrip s)) as [post Hpost].
  exists pre, post. unfold strip. by rewrite <- Hpost.
Qed.

Lemma slice_contains s (lo hi : Z) : contains (slice s lo hi) s.
Proof.
  unfold slice.
  set (a := Z.to_nat (adjust (len s) lo)).
  set (k := Z.to_nat (adjust (len s) hi - adjust (len s) lo)).
  exists (take a s), (drop k (drop a s)).
  by rewrite take_drop, take_drop.
Qed.

Lemma contains_trans (a b c : str) : contains a b -> contains b c -> contains a c.
Proof.
  intros (p1 & q1 & ->) (p2 & q2 & ->).
  exists (p2 ++ p1), (q1 ++ q2). by rewrite <- !app_assoc.
Qed.

Lemma len_slice_le s (lo hi : Z) : 0 <= lo <= hi -> len (slice s lo hi) <= hi - lo.
Proof.
  intros H. unfold slice, len. rewrite length_take.
  pose proof (adjust_range (len s) lo (len_nonneg s)).
  pose proof (adjust_range (len s) hi (len_nonneg s)).
  unfold adjust in *.
  destruct (Z.ltb_spec lo 0), (Z.ltb_spec hi 0); lia.
Qed.

Lemma len_strip_le s : len (strip s) <= len s.
Proof. unfold len. pose proof (length_strip s). lia. Qed.

(** An invariant [I] of [start] and a property [P] of the chunk of one
    iteration carry over to everything the loop returns. *)
Lemma chunk_loop_invariant (I : Z -> Prop) (P : str -> Prop)
    text chunk_chars overlap_chars :
  (forall start, I start -> start < len text ->
     I (next_start text chunk_chars overlap_chars start)) ->
  (forall start, I start -> start < len text ->
     truthy (strip (slice text start (chunk_end text chunk_chars start))) = true ->
     P (strip (slice text start (chunk_end text chunk_chars start)))) ->
  forall fuel st chunks,
    I st.1 -> Forall P st.2 ->
    chunk_loop fuel text chunk_chars overlap_chars st = Some chunks ->
    Forall P chunks.
Proof.
  intros Hnext Hchunk. induction fuel as [|fuel IH]; intros [start acc] chunks HI HP Hrun.
  - destruct (Z.lt_ge_cases start (len text)) as [Hlt|Hge].
    + by rewrite chunk_loop_starved in Hrun.
    + rewrite chunk_loop_exit in Hrun by done. by simplify_eq.
  - destruct (Z.lt_ge_cases start (len text)) as [Hlt|Hge].
    + rewrite chunk_loop_iterate in Hrun by done.
      apply (IH _ _) in Hrun; [done | by apply Hnext |].
      cbn [chunk_step snd fst] in *.
      destruct (truthy _) eqn:E; [|done].
      apply Forall_app. split; [done|]. apply Forall_singleton. by apply Hchunk.
    + rewrite chunk_loop_exit in Hrun by done. by simplify_eq.
Qed.

(** X3.  In every configuration, whenever the splitter returns, no chunk
    is empty and every chunk is trimmed; this holds in particular for
    [chunk_text] with the default sizes. *)
Theorem chunk_text_chunks_trimmed text :
  (forall fuel chunk_size overlap chunks,
     chunk_text_fuel fuel text chunk_size overlap = Some chunks ->
     Forall (fun chunk => chunk <> [] /\ strip chunk = chunk) chunks)
  /\ Forall (fun chunk => chunk <> [] /\ strip chunk = chunk) (chunk_text text).
Proof.
  assert (forall fuel chunk_size overlap chunks,
     chunk_text_fuel fuel text chunk_size overlap = Some chunks ->
     Forall (fun chunk => chunk <> [] /\ strip chunk = chunk) chunks) as Hgen.
  { intros fuel chunk_size overlap chunks Hrun. unfold chunk_text_fuel in Hrun.
    apply (chunk_loop_invariant (fun _ => True)
             (fun chunk => chunk <> [] /\ strip chunk = chunk)) in Hrun; try done.
    intros start _ _ Htruthy. split; [|apply strip_idem].
    intros E. by rewrite E in Htruthy. }
  split; [exact Hgen|].
  apply (Hgen (S (length text)) CHUNK_SIZE_TOKENS CHUNK_OVERLAP_TOKENS).
  apply chunk_text_default_total.
Qed.

(** X4.  In every configuration, whenever the splitter returns, every
    chunk occurs verbatim in the text, as one contiguous piece. *)
Theorem chunk_text_chunks_verbatim text :
  (forall fuel chunk_size overlap chunks,
     chunk_text_fuel fuel text chunk_size overlap = Some chunks ->
     Forall (fun chunk => contains chunk text) chunks)
  /\ Forall (fun chunk => contains chunk text) (chunk_text text).
Proof.
  assert (forall fuel chunk_size overlap chunks,
     chunk_text_fuel fuel text chunk_size overlap = Some chunks ->
     Forall (fun chunk => contains chunk text) chunks) as Hgen.
  { intros fuel chunk_size overlap chunks Hrun. unfold chunk_text_fuel in Hrun.
    apply (chunk_loop_invariant (fun _ => True)
             (fun chunk => contains chunk text)) in Hrun; try done.
    intros start _ _ _.
    eapply contains_trans; [apply strip_contains | apply slice_contains]. }
  split; [exact Hgen|].
  apply (Hgen (S (length text)) CHUNK_SIZE_TOKENS CHUNK_OVERLAP_TOKENS).
  apply chunk_text_default_total.
Qed.

(** X5.  In an advancing configuration no chunk is longer than the chunk
    size in characters; with the default sizes no chunk of [chunk_text]
    has more than 4,000 characters. *)
Theorem chunk_text_chunk_size text :
  (forall fuel chunk_size overlap chunks,
     advancing (chunk_size * CHARS_PER_TOKEN) (overlap * CHARS_PER_TOKEN) ->
     chunk_text_fuel fuel text chunk_size overlap = Some chunks ->
     Forall (fun chunk => len chunk <= chunk_size * CHARS_PER_TOKEN) chunks)
  /\ Forall (fun chunk => len chunk <= 4000) (chunk_text text).
Proof.
  assert (forall fuel chunk_size overlap chunks,
     advancing (chunk_size * CHARS_PER_TOKEN) (overlap * CHARS_PER_TOKEN) ->
     chunk_text_fuel fuel text chunk_size overlap = Some chunks ->
     Forall (fun chunk => len chunk <= chunk_size * CHARS_PER_TOKEN) chunks) as Hgen.
  { intros fuel chunk_size overlap chunks Hadv Hrun. unfold chunk_text_fuel in Hrun.
    apply (chunk_loop_invariant (fun start => 0 <= start)
             (fun chunk => len chunk <= chunk_size * CHARS_PER_TOKEN)) in Hrun;
      [done | | | simpl; lia | done].
    - intros start Hs Hlt.
      pose proof (next_start_range text _ _ start Hadv (conj Hs Hlt)). lia.
    - intros start Hs Hlt _. destruct Hadv as [Ho Hc].
      pose proof (chunk_end_bounds text (chunk_size * CHARS_PER_TOKEN) start Hs
                    ltac:(lia)) as He.
      etrans; [apply len_strip_le|].
      etrans; [apply len_slice_le; lia|]. lia. }
  split; [exact Hgen|].
  apply (Hgen (S (length text)) CHUNK_SIZE_TOKENS CHUNK_OVERLAP_TOKENS).
  - apply default_sizes_advancing.
  - apply chunk_text_default_total.
Qed.

Lemma slice_all s (hi : Z) : len s <= hi -> slice s 0 hi = s.
Proof.
  intros H. unfold slice. pose proof (len_nonneg s).
  rewrite (adjust_inside _ 0) by lia.
  assert (adjust (len s) hi = len s) as ->
    by (unfold adjust; destruct (Z.ltb_spec hi 0); lia).
  rewrite Z.sub_0_r. unfold len. rewrite Nat2Z.id. simpl. apply firstn_all.
Qed.

(** X6.  A text that is not empty and not longer than one chunk yields,
    whatever the overlap, the single chunk [text.strip()], or no chunk
    when that is empty; the empty text yields no chunk. *)
Theorem chunk_text_short_text text :
  (forall fuel chunk_size overlap,
     0 < len text <= chunk_size * CHARS_PER_TOKEN ->
     chunk_text_fuel (S fuel) text chunk_size overlap
     = Some (if truthy (strip text) then [strip text] else []))
  /\ (forall fuel chunk_size overlap,
        chunk_text_fuel fuel [] chunk_size overlap = Some []).
Proof.
  split.
  - intros fuel chunk_size overlap [Hpos Hle]. unfold chunk_text_fuel.
    set (cc := chunk_size * CHARS_PER_TOKEN) in *.
    set (oc := overlap * CHARS_PER_TOKEN).
    rewrite chunk_loop_iterate by (cbn [fst]; lia).
    assert (chunk_end text cc 0 = cc) as Hend.
    { unfold chunk_end. rewrite Z.add_0_l.
      destruct (Z.ltb_spec cc (len text)); [lia | done]. }
    assert (next_start text cc oc 0 = len text) as Hnext.
    { unfold next_start. rewrite Hend.
      destruct (Z.ltb_spec cc (len text)); [lia | done]. }
    cbn [chunk_step]. rewrite Hnext, Hend, slice_all by lia.
    rewrite chunk_loop_exit by (cbn [fst]; lia). cbn [snd].
    by destruct (truthy (strip text)).
  - intros fuel chunk_size overlap. unfold chunk_text_fuel.
    by rewrite chunk_loop_exit.
Qed.

End SplitterOutput.

Lemma chunk_text_chunks_trimmed_witness :
  Forall (fun chunk => chunk <> [] /\ strip chunk = chunk)
         [lit "One."; lit "Two."; lit "Three."].
Proof.
  apply (chunk_text_chunks_trimmed (lit "One. Two. Three.")) with
    (fuel := 9%nat) (chunk_size := 2) (overlap := 0).
  vm_compute. reflexivity.
Defined.

Lemma chunk_text_chunks_verbatim_witness :
  Forall (fun chunk => contains chunk (lit "One. Two. Three."))
         [lit "One."; lit "Two."; lit "Three."].
Proof.
  apply (chunk_text_chunks_verbatim (lit "One. Two. Three.")) with
    (fuel := 9%nat) (chunk_size := 2) (overlap := 0).
  vm_compute. reflexivity.
Defined.

Lemma chunk_text_chunk_size_witness :
  Forall (fun chunk => len chunk <= 1000 * CHARS_PER_TOKEN) [lit "One. Two. Three."].
Proof.
  apply (chunk_text_chunk_size (lit "One. Two. Three.")) with
    (fuel := 9%nat) (chunk_size := 1000) (overlap := 75).
  - unfold advancing. vm_compute. split; congruence.
  - vm_compute. reflexivity.
Defined.

Lemma chunk_text_short_text_witness :
  chunk_text_fuel 1 (lit "  One. Two. ") 1000 75 = Some [lit "One. Two."].
Proof.
  apply (proj1 (chunk_text_short_text (lit "  One. Two. ")) 0%nat 1000 75).
  vm_compute. split; congruence.
Defined.

(** ** How many chunks, and where they end *)

Section SplitterShape.

Implicit Types (s text : str) (start chunk_chars overlap_chars : Z).

Lemma chunk_spans_exit text chunk_chars overlap_chars fuel start :
  len text <= start -> chunk_spans fuel text chunk_chars overlap_chars start = [].
Proof.
  intros H. destruct fuel; cbn [chunk_spans];
    destruct (Z.ltb_spec start (len text)); (lia || done).
Qed.

Lemma next_start_stride text chunk_chars overlap_chars start :
  advancing chunk_chars overlap_chars -> 0 <= start < len text ->
  next_start text chunk_chars overlap_chars start = len text
  \/ start + stride chunk_chars overlap_chars
     <= next_start text chunk_chars overlap_chars start < len text.
Proof.
  intros [Ho Hc] Hs. unfold next_start, stride.
  pose proof (chunk_end_bounds text chunk_chars start) as He.
  destruct (Z.ltb_spec (chunk_end text chunk_chars start) (len text));
    [right; lia | by left].
Qed.

Lemma chunk_spans_count text chunk_chars overlap_chars :
  advancing chunk_chars overlap_chars ->
  forall fuel start, 0 <= start ->
    stride chunk_chars overlap_chars
    * Z.of_nat (length (chunk_spans fuel text chunk_chars overlap_chars start))
    <= Z.max 0 (len text - start) + stride chunk_chars overlap_chars - 1.
Proof.
  intros Hadv.
  assert (1 <= stride chunk_chars overlap_chars) as Hstride
    by (destruct Hadv; unfold stride; lia).
  induction fuel as [|fuel IH]; intros start Hs.
  - cbn [chunk_spans]. destruct (start <? len text); simpl; lia.
  - destruct (Z.lt_ge_cases start (len text)) as [Hlt|Hge];
      [|rewrite chunk_spans_exit by done; simpl; lia].
    cbn [chunk_spans]. destruct (Z.ltb_spec start (len text)); [|lia].
    cbn [length]. rewrite Nat2Z.inj_succ.
    destruct (next_start_stride text chunk_chars overlap_chars start Hadv
                (conj Hs Hlt)) as [Heq|Hstep].
    + rewrite Heq, chunk_spans_exit by lia. simpl. lia.
    + specialize (IH (next_start text chunk_chars overlap_chars start)
                    ltac:(lia)). lia.
Qed.

(** X7.  With the default sizes the splitter advances by at least 3,501
    characters per chunk, so a text of [n] characters yields at most
    [(n + 3500) / 3501] chunks, and the output of the normalizer, which
    has at most 24,035 characters, yields at most seven. *)
Theorem chunk_text_chunk_count text :
  3501 * Z.of_nat (length (chunk_text text)) <= len text + 3500
  /\ (length (chunk_text (clean_text_for_llm text DEFAULT_MAX_CHARS)) <= 7)%nat.
Proof.
  assert (forall t : str,
            3501 * Z.of_nat (length (chunk_text t)) <= len t + 3500) as Hcount.
  { intros t. rewrite (proj2 (chunk_text_default_total t)).
    rewrite length_map.
    pose proof (chunk_spans_count t _ _ default_sizes_advancing
                  (S (length t)) 0 ltac:(lia)) as Hspans.
    change (stride _ _) with 3501 in Hspans.
    pose proof (len_nonneg t).
    match goal with |- context [emitted ?sp] =>
      pose proof (length_filter (fun x : Z * Z * str => truthy x.2 = true) sp) as Hf
    end.
    unfold emitted. lia. }
  split; [apply Hcount|].
  specialize (Hcount (clean_text_for_llm text DEFAULT_MAX_CHARS)).
  pose proof (proj2 (clean_text_for_llm_length text DEFAULT_MAX_CHARS)
                ltac:(by vm_compute)) as Hlen.
  change DEFAULT_MAX_CHARS with 24000 in *. lia.
Qed.

Lemma rfind_down_sound (sub s : str) (lo k : nat) :
  rfind_down sub s lo k <> -1 ->
  startswith sub (drop (Z.to_nat (rfind_down sub s lo k)) s) = true.
Proof.
  induction k as [|k IH]; cbn [rfind_down]; [done|].
  destruct (startswith sub (drop (lo + k) s)) eqn:E; [|exact IH].
  intros _. by rewrite Nat2Z.id.
Qed.

Lemma rfind_sound (s sub : str) (lo hi : Z) :
  rfind s sub lo hi <> -1 ->
  startswith sub (drop (Z.to_nat (rfind s sub lo hi)) s) = true.
Proof.
  unfold rfind. destruct (_ <? _); [done|]. apply rfind_down_sound.
Qed.

Lemma startswith_pair (a b : char) (t : str) :
  startswith [a; b] t = true -> t !! 0%nat = Some a /\ t !! 1%nat = Some b.
Proof.
  destruct t as [|x [|y t]]; simpl; try done.
  - by rewrite andb_false_r.
  - destruct (N.eqb_spec a x) as [->|]; [|done].
    destruct (N.eqb_spec b y) as [->|]; done.
Qed.

(** An end offset other than [start + chunk_chars] comes right after a
    period that a space follows. *)
Lemma chunk_end_aligned text chunk_chars start :
  0 <= start ->
  chunk_end text chunk_chars start <> start + chunk_chars ->
  start + 1 < chunk_end text chunk_chars start < len text
  /\ text !! Z.to_nat (chunk_end text chunk_chars start - 1) = Some DOT
  /\ text !! Z.to_nat (chunk_end text chunk_chars start) = Some SPACE.
Proof.
  intros Hs. unfold chunk_end.
  destruct (Z.ltb_spec (start + chunk_chars) (len text)) as [Hlt|]; [|done].
  match goal with |- context [rfind ?s ?sub ?lo ?hi] =>
    pose proof (rfind_bounds s sub lo hi) as Hb;
    pose proof (rfind_sound s sub lo hi) as Hsound;
    destruct (Z.gtb_spec (rfind s sub lo hi) start) as [Hgt|]; [|done];
    set (p := rfind s sub lo hi) in *
  end.
  intros _. specialize (Hsound ltac:(lia)).
  apply startswith_pair in Hsound as [Hdot Hspace].
  assert (text !! (Z.to_nat p + 0)%nat = Some DOT) as Hdot'
    by exact (eq_trans (eq_sym (lookup_drop text (Z.to_nat p) 0)) Hdot).
  assert (text !! (Z.to_nat p + 1)%nat = Some SPACE) as Hspace'
    by exact (eq_trans (eq_sym (lookup_drop text (Z.to_nat p) 1)) Hspace).
  rewrite Nat.add_0_r in Hdot'.
  destruct Hb as [Hb|[_ Hb]]; [lia|].
  change (len [DOT; SPACE]) with 2 in Hb.
  pose proof (adjust_range (len text) (start + chunk_chars) (len_nonneg text)).
  split_and!; [lia | lia | |].
  - by replace (p + 1 - 1) with p by lia.
  - by replace (Z.to_nat (p + 1)) with (Z.to_nat p + 1)%nat by lia.
Qed.

Lemma last_slice s (lo hi : Z) :
  0 <= lo < hi -> hi <= len s ->
  last (slice s lo hi) = s !! Z.to_nat (hi - 1).
Proof.
  intros Hlo Hhi. unfold slice. rewrite !adjust_inside by lia.
  rewrite last_lookup, length_take, length_drop.
  unfold len in *.
  rewrite lookup_take_lt by lia. rewrite lookup_drop. f_equal. lia.
Qed.

Lemma last_strip_nonspace s (c : char) :
  last s = Some c -> isspace c = false -> last (strip s) = Some c.
Proof.
  intros [s' ->]%last_Some Hc. unfold strip.
  rewrite (lstrip_app_nonspace s' c []) by done. unfold rstrip.
  rewrite reverse_app. change (reverse [c]) with [c]. cbn [app].
  rewrite lstrip_fixed by done. rewrite reverse_cons, reverse_involutive.
  apply last_snoc.
Qed.

Lemma chunk_spans_starts text chunk_chars overlap_chars :
  advancing chunk_chars overlap_chars ->
  forall fuel start sp, 0 <= start ->
    sp ∈ chunk_spans fuel text chunk_chars overlap_chars start ->
    0 <= sp.1.1
    /\ sp.1.2 = chunk_end text chunk_chars sp.1.1
    /\ sp.2 = strip (slice text sp.1.1 sp.1.2).
Proof.
  intros Hadv. induction fuel as [|fuel IH]; intros start sp Hs Hin.
  - cbn [chunk_spans] in Hin. destruct (start <? len text);
      by apply elem_of_nil in Hin.
  - cbn [chunk_spans] in Hin.
    destruct (Z.ltb_spec start (len text)) as [Hlt|]; [|by apply elem_of_nil in Hin].
    apply elem_of_cons in Hin as [->|Hin]; [done|].
    apply (IH _ _) in Hin; [done|].
    pose proof (next_start_range text chunk_chars overlap_chars start Hadv
                  (conj Hs Hlt)). lia.
Qed.

(** X8.  In an advancing configuration, every span the loop visits
    either extends to the full chunk size or ends right after a period
    that a space follows; in the second case the chunk it yields ends
    with that period. *)
Theorem chunk_text_sentence_aligned text chunk_chars overlap_chars fuel sp :
  advancing chunk_chars overlap_chars ->
  sp ∈ chunk_spans fuel text chunk_chars overlap_chars 0 ->
  sp.1.2 = sp.1.1 + chunk_chars
  \/ (text !! Z.to_nat (sp.1.2 - 1) = Some DOT
      /\ text !! Z.to_nat sp.1.2 = Some SPACE
      /\ last sp.2 = Some DOT).
Proof.
  intros Hadv Hin.
  destruct (chunk_spans_starts text _ _ Hadv fuel 0 sp ltac:(lia) Hin)
    as (Hs & Hend & Htxt).
  destruct sp as [[a b] chunk]. cbn [fst snd] in *. subst b chunk.
  destruct (decide (chunk_end text chunk_chars a = a + chunk_chars)) as [|Hne];
    [by left|].
  right.
  destruct (chunk_end_aligned text chunk_chars a Hs Hne)
    as (Hrange & Hdot & Hspace).
  split_and!; [done | done |].
  apply last_strip_nonspace; [|done].
  rewrite last_slice by lia. done.
Qed.

End SplitterShape.

Lemma chunk_text_sentence_aligned_witness :
  aligned_text !! 203%nat = Some DOT
  /\ aligned_text !! 204%nat = Some SPACE
  /\ last (strip (slice aligned_text 0 204)) = Some DOT.
Proof.
  destruct (chunk_text_sentence_aligned aligned_text 205 0 301
              (0, 204, strip (slice aligned_text 0 204))) as [Hfull|Haligned].
  - unfold advancing. lia.
  - vm_compute. left.
  - vm_compute in Hfull. discriminate Hfull.
  - exact Haligned.
Defined.

(** ** What the summarizer returns and what the orchestrator sends *)

Section Traces.

Context {A B : Type}.
Implicit Types (m : M A) (f : A -> M B).

Lemma trace_bind m f :
  trace (m ≫= f)
  = trace m ++ match outcome m with inl _ => [] | inr a => trace (f a) end.
Proof.
  unfold outcome, trace, mbind, M_bind.
  destruct m as [t [e|a]]; cbn [fst snd]; [by rewrite app_nil_r | done].
Qed.

Lemma trace_try_except (body : M A) (handler : exn -> M A) :
  trace (try_except body handler)
  = trace body ++ match outcome body with
                  | inl e => trace (handler e)
                  | inr _ => []
                  end.
Proof.
  unfold outcome, trace, try_except.
  destruct body as [t [e|a]]; cbn [fst snd]; [done | by rewrite app_nil_r].
Qed.

(** A bind that returns ran both halves. *)
Lemma bind_returned m f b :
  outcome (m ≫= f) = inr b ->
  exists a, outcome m = inr a /\ outcome (f a) = inr b
            /\ trace (m ≫= f) = trace m ++ trace (f a).
Proof.
  rewrite outcome_bind, trace_bind. destruct (outcome m) as [e|a]; [done|].
  intros Hf. by exists a.
Qed.

End Traces.

Section Accounting.

Variable backend : request -> reply.
Variable pool_fault : nat -> option exn.
Variable as_completed : list (M value * nat) -> list (M value * nat).

Implicit Types (chunk s : str) (chunks : list str) (idx i : nat).

Lemma strip_bullet (t : str) : head (strip (BULLET :: t)) = Some BULLET.
Proof.
  unfold strip. rewrite lstrip_fixed by done.
  by rewrite rstrip_cons_nonspace.
Qed.

Lemma startswith_head (c : char) (t : str) :
  startswith [c] t = true -> head t = Some c.
Proof.
  destruct t as [|x t]; simpl; [done|].
  destruct (N.eqb_spec c x) as [->|]; done.
Qed.

(** X9.  Whatever the backend does, what [summarize_chunk_sync]
    returns is a string that is empty or has the bullet as its first
    character after trimming (an answer that lacks it gets ["• "] put in
    front, and the failure sentinel, which also stands for a truthy
    answer without [strip], starts with it), or else it is the
    ["response"] member of the answer handed back unchanged: an object
    that is falsy and not a string, such as [None]. *)
Theorem summarize_chunk_sync_bullet chunk idx v :
  outcome (summarize_chunk_sync backend chunk idx) = inr v ->
  match v with
  | VStr summary => summary = [] \/ head (strip summary) = Some BULLET
  | _ =>
      falsy_non_string v
      /\ backend (chunk_request chunk) = Response (Some v)
  end.
Proof.
  rewrite summarize_chunk_sync_run. unfold outcome, snd.
  destruct (backend (chunk_request chunk)) as [[w|]|e].
  - change (default (VStr []) (Some w)) with w.
    destruct w as [s| |[]|n|[]|[]|[]].
    + destruct (truthy s && negb (startswith [BULLET] (strip s))) eqn:Hcond;
        intros [= <-].
      * right. apply strip_bullet.
      * apply andb_false_iff in Hcond as [Htruthy|Hstart].
        -- left. by destruct s.
        -- right. apply startswith_head. by apply negb_false_iff.
    + intros [= <-]. split; [split; [reflexivity | intros ? [=]] | reflexivity].
    + intros [= <-]. right. apply strip_bullet.
    + intros [= <-]. split; [split; [reflexivity | intros ? [=]] | reflexivity].
    + cbn [truthy_value]. destruct (n =? 0) eqn:Hn; intros [= <-].
      * apply Z.eqb_eq in Hn as ->.
        split; [split; [reflexivity | intros ? [=]] | reflexivity].
      * right. apply strip_bullet.
    + intros [= <-]. split; [split; [reflexivity | intros ? [=]] | reflexivity].
    + intros [= <-]. right. apply strip_bullet.
    + intros [= <-]. split; [split; [reflexivity | intros ? [=]] | reflexivity].
    + intros [= <-]. right. apply strip_bullet.
    + intros [= <-]. split; [split; [reflexivity | intros ? [=]] | reflexivity].
    + intros [= <-]. right. apply strip_bullet.
  - intros [= <-]. by left.
  - intros [= <-]. right. apply strip_bullet.
Qed.

Lemma trace_summarize_each chunks :
  forall k, trace (summarize_each backend k chunks)
            = (fun chunk => EvBackend (chunk_request chunk)) <$> chunks.
Proof.
  induction chunks as [|chunk chunks IH]; intros k; [done|].
  cbn [summarize_each]. rewrite trace_bind.
  destruct (summarize_chunk_sync_returns backend chunk k) as [summary Hrun].
  rewrite Hrun. cbn [trace outcome fst snd]. rewrite trace_bind, IH.
  rewrite summarize_each_returns. cbn [trace fst mret M_ret].
  by rewrite app_nil_r.
Qed.

Lemma trace_collect acc slots (entry : M value * nat) :
  outcome acc = inr slots ->
  trace (collect acc entry) = trace acc ++ trace entry.1.
Proof.
  intros Hacc. destruct entry as [future idx]. unfold collect.
  rewrite trace_bind, Hacc. rewrite trace_bind, trace_try_except.
  destruct future as [t [e|s]]; cbn [trace outcome fst snd mret M_ret];
    by rewrite ?app_nil_r.
Qed.

Lemma trace_foldl_collect entries :
  forall acc slots,
    outcome acc = inr slots ->
    trace (foldl collect acc entries)
    = trace acc ++ mjoin ((fun entry => trace entry.1) <$> entries).
Proof.
  induction entries as [|entry entries IH]; intros acc slots Hacc.
  - simpl. by rewrite app_nil_r.
  - cbn [foldl]. erewrite IH by (by eapply collect_returns).
    rewrite (trace_collect _ slots) by done.
    rewrite fmap_cons, mjoin_cons. by rewrite <- app_assoc.
Qed.

(** The requests a future sent: none when the pool lost the task, the
    chunk's request otherwise. *)
Lemma trace_submit chunk idx :
  trace (submit backend pool_fault chunk idx)
  = EvBackend <$> task_requests pool_fault idx chunk.
Proof.
  unfold submit, task_requests. destruct (pool_fault idx); [done|].
  by destruct (summarize_chunk_sync_returns backend chunk idx) as [s ->].
Qed.

Lemma mjoin_fmap_events (ls : list (list request)) :
  mjoin ((fmap EvBackend) <$> ls) = EvBackend <$> mjoin ls.
Proof.
  induction ls as [|l ls IH]; [done|].
  by rewrite fmap_cons, !mjoin_cons, fmap_app, IH.
Qed.

Lemma requests_of_events (calls : list request) :
  requests_of (EvBackend <$> calls) = calls.
Proof.
  induction calls as [|r calls IH]; [done|]. rewrite fmap_cons.
  change (requests_of (EvBackend r :: (EvBackend <$> calls)))
    with (r :: requests_of (EvBackend <$> calls)).
  by rewrite IH.
Qed.

(** The requests the scheduler sends are, in some order, those of the
    futures of [enumerate(chunks)]. *)
Lemma trace_parallel chunks :
  yields_each_once as_completed ->
  exists calls,
    trace (_parallel_chunk_summarization backend pool_fault as_completed chunks)
    = EvBackend <$> calls
    /\ calls ≡ₚ mjoin (imap (task_requests pool_fault) chunks).
Proof.
  intros Hperm. unfold _parallel_chunk_summarization.
  set (futures := imap (fun idx chunk => (submit backend pool_fault chunk idx, idx)) chunks).
  set (calls_of := fun entry : M value * nat => requests_of (trace entry.1)).
  exists (mjoin (calls_of <$> as_completed futures)). split.
  - rewrite (trace_foldl_collect _ _ (replicate (length chunks) VNone)) by done.
    cbn [trace fst mret M_ret app]. rewrite <- mjoin_fmap_events.
    f_equal. rewrite <- list_fmap_compose. apply Forall_fmap_ext_1.
    apply Forall_forall. intros [future idx] Hin.
    rewrite (Hperm futures) in Hin. unfold futures in Hin.
    apply elem_of_lookup_imap in Hin as (i & chunk & [= -> ->] & _).
    unfold calls_of. cbn [fst compose]. rewrite trace_submit.
    by rewrite requests_of_events.
  - rewrite (Hperm futures).
    assert (calls_of <$> futures = imap (task_requests pool_fault) chunks) as ->;
      [|done].
    unfold futures. rewrite fmap_imap.
    apply imap_ext. intros i chunk _. unfold calls_of. cbn [compose fst].
    rewrite trace_submit. apply requests_of_events.
Qed.

Lemma length_mjoin_singletons {X} (ls : list (list X)) :
  Forall (fun l => (length l <= 1)%nat) ls -> (length (mjoin ls) <= length ls)%nat.
Proof.
  induction 1 as [|l ls Hl _ IH]; [done|].
  rewrite mjoin_cons, length_app. simpl. lia.
Qed.

(** Both fan-out paths send backend requests only, at most one per
    chunk, and exactly the chunks' requests when the pool loses no
    task. *)
Lemma trace_fan_out chunks :
  yields_each_once as_completed ->
  exists calls,
    trace (if (length chunks <=? 2)%nat then summarize_each backend 0 chunks
           else _parallel_chunk_summarization backend pool_fault as_completed chunks)
    = EvBackend <$> calls
    /\ (length calls <= length chunks)%nat
    /\ ((forall i, pool_fault i = None) -> calls ≡ₚ chunk_request <$> chunks)
    /\ ((length chunks <= 2)%nat -> calls = chunk_request <$> chunks).
Proof.
  intros Hperm. destruct (Nat.leb_spec (length chunks) 2) as [Hle|Hgt].
  - exists (chunk_request <$> chunks). split_and!.
    + rewrite trace_summarize_each. by rewrite <- list_fmap_compose.
    + by rewrite length_fmap.
    + done.
    + done.
  - destruct (trace_parallel chunks Hperm) as (calls & Htrace & Hcalls).
    exists calls. split_and!; [done | | | lia].
    + rewrite (Permutation_length Hcalls).
      etrans; [apply length_mjoin_singletons|by rewrite length_imap].
      apply Forall_forall. intros l Hl.
      apply elem_of_lookup_imap in Hl as (i & chunk & -> & _).
      unfold task_requests. destruct (pool_fault i); simpl; lia.
    + intros Hnf. rewrite Hcalls.
      assert (mjoin (imap (task_requests pool_fault) chunks)
              = chunk_request <$> chunks) as ->; [|done].
      transitivity (mjoin ((fun chunk => [chunk_request chunk]) <$> chunks)).
      * f_equal. rewrite <- (imap_const (fun chunk => [chunk_request chunk])).
        apply imap_ext. intros i chunk _. unfold task_requests. by rewrite Hnf.
      * clear. induction chunks as [|c cs IH]; [done|].
        by rewrite !fmap_cons, mjoin_cons, IH.
Qed.

(** The merge stage sends its request unless the join raised. *)
Lemma trace_merge (items : list value) :
  trace (_merge_summaries backend items)
  = match join_items 0 items with
    | inl _ => []
    | inr parts => [EvBackend (merge_request (join [NL] parts))]
    end.
Proof. rewrite merge_run_items. by destruct (join_items 0 items). Qed.

(** The whole trace of [generate_summary] on the chunked path. *)
Lemma trace_generate_summary_long text :
  yields_each_once as_completed ->
  3000 <= len (clean_text_for_llm text DEFAULT_MAX_CHARS) ->
  let chunks := chunk_text (clean_text_for_llm text DEFAULT_MAX_CHARS) in
  exists calls,
    trace (generate_summary backend pool_fault as_completed text)
    = EvChunks chunks :: (EvBackend <$> calls)
      ++ trace (_merge_summaries backend
                  (segment_summaries backend pool_fault chunks))
    /\ (length calls <= length chunks)%nat
    /\ ((forall i, pool_fault i = None) -> calls ≡ₚ chunk_request <$> chunks)
    /\ ((length chunks <= 2)%nat -> calls = chunk_request <$> chunks).
Proof.
  intros Hperm Hlong chunks.
  destruct (trace_fan_out chunks Hperm) as (calls & Htrace & Hrest).
  exists calls. split; [|exact Hrest].
  rewrite generate_summary_long by exact Hlong. fold chunks. cbv zeta.
  rewrite trace_bind.
  change (trace (emit (EvChunks chunks))) with [EvChunks chunks].
  change (outcome (emit (EvChunks chunks))) with (@inr exn unit tt).
  cbv beta iota. rewrite trace_bind, fan_out_returns by done.
  by rewrite Htrace.
Qed.

(** X10.  On the chunked path, when the pool loses no task,
    [generate_summary] first builds the chunk list, then sends exactly
    one request per chunk, in some order (in list order for at most two
    chunks).  When the segment summaries are strings, which they are
    when the backend answers no chunk with a falsy object that is not a
    string, it sends last the merge request for the summaries joined in
    list order.  Otherwise it sends nothing more and raises the
    [TypeError] of the join. *)
Theorem generate_summary_requests text :
  yields_each_once as_completed ->
  (forall i, pool_fault i = None) ->
  3000 <= len (clean_text_for_llm text DEFAULT_MAX_CHARS) ->
  let chunks := chunk_text (clean_text_for_llm text DEFAULT_MAX_CHARS) in
  let summaries := segment_summaries backend pool_fault chunks in
  exists calls,
    calls ≡ₚ chunk_request <$> chunks
    /\ ((length chunks <= 2)%nat -> calls = chunk_request <$> chunks)
    /\ (forall strings,
          summaries = VStr <$> strings ->
          trace (generate_summary backend pool_fault as_completed text)
          = EvChunks chunks :: (EvBackend <$> calls)
            ++ [EvBackend (merge_request (join [NL] strings))])
    /\ (answers_chunks_with_text backend ->
        exists strings, summaries = VStr <$> strings)
    /\ ((forall strings, summaries <> VStr <$> strings) ->
        trace (generate_summary backend pool_fault as_completed text)
        = EvChunks chunks :: (EvBackend <$> calls)
        /\ exists msg,
             outcome (generate_summary backend pool_fault as_completed text)
             = inl (TypeError msg)).
Proof.
  intros Hperm Hnf Hlong chunks summaries.
  destruct (trace_generate_summary_long text Hperm Hlong)
    as (calls & Htrace & _ & Hall & Hseq).
  fold chunks summaries in Htrace.
  exists calls. split_and!; [by apply Hall | exact Hseq | | |].
  - intros strings Hstrings. rewrite Htrace, Hstrings, trace_merge.
    by rewrite join_items_strings.
  - intros Htext. by apply segment_summaries_text.
  - intros Hmixed. rewrite Htrace, trace_merge.
    rewrite generate_summary_long_outcome by done. fold chunks summaries.
    rewrite merge_run_items.
    destruct (join_items 0 summaries) as [e|parts] eqn:Hjoin.
    + rewrite app_nil_r. split; [done|].
      destruct (join_items_inl _ _ _ Hjoin) as [msg ->]. by exists msg.
    + destruct (Hmixed parts). by eapply join_items_inr.
Qed.

(** X11.  Whatever the text, the backend and the pool do,
    [generate_summary] sends at most eight requests: one on the
    single-pass path, at most seven chunk requests and the merge request
    otherwise. *)
Theorem generate_summary_request_bound text :
  yields_each_once as_completed ->
  (length (requests_of (trace (generate_summary backend pool_fault as_completed text)))
   <= 8)%nat.
Proof.
  intros Hperm.
  destruct (Z.lt_ge_cases (len (clean_text_for_llm text DEFAULT_MAX_CHARS)) 3000)
    as [Hshort|Hlong].
  - rewrite generate_summary_short by exact Hshort. rewrite single_run.
    cbn. lia.
  - destruct (trace_generate_summary_long text Hperm Hlong)
      as (calls & -> & Hlen & _).
    pose proof (proj2 (chunk_text_chunk_count text)) as Hcount.
    match goal with |- context [requests_of (EvChunks ?c :: ?t)] =>
      change (requests_of (EvChunks c :: t)) with (requests_of t)
    end.
    unfold requests_of at 1. rewrite omap_app.
    fold (requests_of (EvBackend <$> calls)). rewrite requests_of_events.
    rewrite length_app, trace_merge.
    assert (forall t : exn + list str,
              (length (omap (fun ev => match ev with
                                       | EvBackend r => Some r
                                       | _ => None
                                       end)
                         match t with
                         | inl _ => []
                         | inr parts => [EvBackend (merge_request (join [NL] parts))]
                         end) <= 1)%nat) as Hmerge
      by (intros [e|parts]; cbn; lia).
    specialize (Hmerge (join_items 0
                          (segment_summaries backend pool_fault
                             (chunk_text (clean_text_for_llm text DEFAULT_MAX_CHARS))))).
    unfold str, char in *. lia.
Qed.

End Accounting.

(** ** What the entry points report and store *)

Section EntryPoints.

Variable backend : request -> reply.
Variable pool_fault : nat -> option exn.
Variable as_completed : list (M value * nat) -> list (M value * nat).
Variable firestore_set : status_doc -> option exn.
Variable supabase_insert : summary_row -> option exn.
Variable download_from_storage : str -> exn + list N.
Variable extract_pdf : list N -> exn + str.
Variable extract_tika : list N -> str -> exn + str.
Variable extract_image_ocr : list N -> exn + str.
Variable extract_audio : list N -> str -> exn + str.
Variable extract_video : list N -> str -> exn + str.
Variable extract_url : str -> exn + str.

Implicit Types (uid file_id text title url : str) (e : exn).

Local Abbreviation run_text :=
  (process_text backend pool_fault as_completed firestore_set supabase_insert).
Local Abbreviation run_url :=
  (process_url backend pool_fault as_completed firestore_set supabase_insert
     extract_url).
Local Abbreviation run_file :=
  (process_file backend pool_fault as_completed firestore_set supabase_insert
     download_from_storage extract_pdf extract_tika extract_image_ocr
     extract_audio extract_video).

Lemma report_error_run {X} uid file_id e :
  @report_error firestore_set X uid file_id e
  = ([EvStatus (error_doc uid file_id e)],
     inl (match firestore_set (error_doc uid file_id e) with
          | None => e
          | Some e' => e'
          end)).
Proof.
  unfold report_error, update_status, error_doc, mbind, M_bind, emit.
  cbn [fst snd]. by destruct (firestore_set _).
Qed.

(** A guarded body that raises has its exception written to the status
    sink and raised again. *)
Lemma guarded_raised {X} (body : M X) uid file_id e :
  outcome (try_except body (report_error firestore_set uid file_id)) = inl e ->
  exists e0,
    outcome body = inl e0
    /\ trace (try_except body (report_error firestore_set uid file_id))
       = trace body ++ [EvStatus (error_doc uid file_id e0)]
    /\ e = match firestore_set (error_doc uid file_id e0) with
           | None => e0
           | Some e' => e'
           end.
Proof.
  rewrite outcome_try_except, trace_try_except.
  destruct (outcome body) as [e0|x]; [|done].
  rewrite report_error_run. cbn [outcome trace fst snd]. intros [= <-].
  by exists e0.
Qed.

Lemma guarded_returned {X} (body : M X) uid file_id x :
  outcome (try_except body (report_error firestore_set uid file_id)) = inr x ->
  outcome body = inr x
  /\ try_except body (report_error firestore_set uid file_id) = body.
Proof.
  rewrite outcome_try_except. destruct (outcome body) as [e0|x0] eqn:E.
  - by rewrite report_error_run.
  - intros [= ->]. split; [done|]. by apply try_except_returned with x.
Qed.

(** X12.  When the status sink accepts its writes, an entry point that
    raises [e] has written, as its last status, [error] with progress 0
    and [str(e)] as message; this holds for [process_text],
    [process_url] and [process_file] alike. *)
Theorem entry_points_report_errors uid file_id e :
  (forall d, firestore_set d = None) ->
  (forall text title,
     outcome (run_text uid file_id text title) = inl e ->
     last (trace (run_text uid file_id text title))
     = Some (EvStatus (error_doc uid file_id e)))
  /\ (forall url,
        outcome (run_url uid file_id url) = inl e ->
        last (trace (run_url uid file_id url))
        = Some (EvStatus (error_doc uid file_id e)))
  /\ (forall storage_path file_type,
        outcome (run_file uid file_id storage_path file_type) = inl e ->
        last (trace (run_file uid file_id storage_path file_type))
        = Some (EvStatus (error_doc uid file_id e))).
Proof.
  intros Hsink.
  assert (forall (X : Type) (body : M X),
            outcome (try_except body (report_error firestore_set uid file_id)) = inl e ->
            last (trace (try_except body (report_error firestore_set uid file_id)))
            = Some (EvStatus (error_doc uid file_id e))) as Hguard.
  { intros X body Hrun.
    destruct (guarded_raised body uid file_id e Hrun) as (e0 & _ & -> & ->).
    rewrite Hsink. apply last_snoc. }
  split_and!; intros; by apply Hguard.
Qed.

Lemma update_status_run uid file_id st progress message :
  update_status firestore_set uid file_id st progress message
  = ([EvStatus {| sd_firebase_uid := uid; sd_file_id := file_id; sd_status := st;
                  sd_progress := progress; sd_message := message |}],
     match firestore_set {| sd_firebase_uid := uid; sd_file_id := file_id;
                            sd_status := st; sd_progress := progress;
                            sd_message := message |} with
     | None => inr tt
     | Some e => inl e
     end).
Proof.
  unfold update_status, mbind, M_bind, emit. cbn [fst snd].
  by destruct (firestore_set _).
Qed.

Lemma insert_summary_run uid file_id summary :
  insert_summary supabase_insert uid file_id summary
  = ([EvInsert {| document_id := file_id; firebase_uid := uid;
                  summary_text := summary; version := 1 |}],
     match supabase_insert {| document_id := file_id; firebase_uid := uid;
                              summary_text := summary; version := 1 |} with
     | None => inr tt
     | Some e => inl e
     end).
Proof.
  unfold insert_summary, mbind, M_bind, emit. cbn [fst snd].
  by destruct (supabase_insert _).
Qed.

(** The check lets through nothing but a string that is not blank, and
    has no effect. *)
Lemma checked_summary_returned (v : value) summary :
  outcome (checked_summary v) = inr summary ->
  v = VStr summary /\ blank summary = false /\ checked_summary v = mret summary.
Proof.
  unfold checked_summary.
  destruct v as [s| |[]|n|[]|[]|[]]; cbn [truthy_value negb]; try done.
  - destruct (blank s) eqn:Hblank; [done|]. by intros [= <-].
  - by destruct (n =? 0).
Qed.

Lemma trace_checked_summary (v : value) : trace (checked_summary v) = [].
Proof.
  unfold checked_summary.
  destruct v as [s| |[]|n|[]|[]|[]]; cbn [truthy_value negb]; try done.
  - by destruct (blank s).
  - by destruct (n =? 0).
Qed.

(** The shared tail returns only after a summary that is not blank was
    sent to the table and [complete] to the status sink. *)
Lemma summarize_and_save_returned uid file_id text :
  outcome (summarize_and_save backend pool_fault as_completed firestore_set
             supabase_insert uid file_id text) = inr tt ->
  exists summary,
    outcome (generate_summary backend pool_fault as_completed text)
    = inr (VStr summary)
    /\ blank summary = false
    /\ trace (summarize_and_save backend pool_fault as_completed firestore_set
                supabase_insert uid file_id text)
       = trace (generate_summary backend pool_fault as_completed text)
         ++ [EvInsert {| document_id := file_id; firebase_uid := uid;
                         summary_text := summary; version := 1 |};
             EvStatus (complete_doc uid file_id)].
Proof.
  unfold summarize_and_save. intros Hrun.
  apply bind_returned in Hrun as (v & Hgen & Hrun & ->).
  apply bind_returned in Hrun as (summary & Hcheck & Hrun & ->).
  apply bind_returned in Hrun as ([] & Hins & Hrun & ->).
  apply checked_summary_returned in Hcheck as (-> & Hblank & ->).
  exists summary. split; [done|]. split; [done|].
  rewrite insert_summary_run, update_status_run. cbn [trace fst app]. done.
Qed.

(** X13.  An entry point that returns has, as its last two effects, sent
    a summary that is not blank to the table and then written
    [complete]: completion is never reported before the insert, and
    never for a blank summary. *)
Theorem entry_points_complete_after_insert uid file_id :
  let stored t :=
    exists prefix summary,
      blank summary = false
      /\ t = prefix ++ [EvInsert {| document_id := file_id; firebase_uid := uid;
                                     summary_text := summary; version := 1 |};
                        EvStatus (complete_doc uid file_id)] in
  (forall text title,
     outcome (run_text uid file_id text title) = inr tt ->
     stored (trace (run_text uid file_id text title)))
  /\ (forall url,
        outcome (run_url uid file_id url) = inr tt ->
        stored (trace (run_url uid file_id url)))
  /\ (forall storage_path file_type,
        outcome (run_file uid file_id storage_path file_type) = inr tt ->
        stored (trace (run_file uid file_id storage_path file_type))).
Proof.
  intros stored. split_and!.
  - intros text title Hrun. unfold process_text in *.
    apply guarded_returned in Hrun as [Hrun ->].
    apply bind_returned in Hrun as ([] & _ & Hrun & ->).
    apply summarize_and_save_returned in Hrun as (summary & _ & Hblank & ->).
    eexists _, summary. split; [done|]. by rewrite app_assoc.
  - intros url Hrun. unfold process_url in *.
    apply guarded_returned in Hrun as [Hrun ->].
    apply bind_returned in Hrun as ([] & _ & Hrun & ->).
    apply bind_returned in Hrun as (extracted & _ & Hrun & ->).
    apply bind_returned in Hrun as ([] & _ & Hrun & ->).
    apply bind_returned in Hrun as ([] & _ & Hrun & ->).
    apply summarize_and_save_returned in Hrun as (summary & _ & Hblank & ->).
    eexists _, summary. split; [done|]. by rewrite !app_assoc.
  - intros storage_path file_type Hrun. unfold process_file in *.
    apply guarded_returned in Hrun as [Hrun ->].
    apply bind_returned in Hrun as ([] & _ & Hrun & ->).
    apply bind_returned in Hrun as (file_bytes & _ & Hrun & ->).
    apply bind_returned in Hrun as (extracted & _ & Hrun & ->).
    apply bind_returned in Hrun as ([] & _ & Hrun & ->).
    apply bind_returned in Hrun as ([] & _ & Hrun & ->).
    apply summarize_and_save_returned in Hrun as (summary & _ & Hblank & ->).
    eexists _, summary. split; [done|]. by rewrite !app_assoc.
Qed.

Lemma inserts_of_app (t1 t2 : list event) :
  inserts_of (t1 ++ t2) = inserts_of t1 ++ inserts_of t2.
Proof. apply omap_app. Qed.

Lemma inserts_of_events (calls : list request) :
  inserts_of (EvBackend <$> calls) = [].
Proof. induction calls as [|r calls IH]; [done|]. by rewrite fmap_cons. Qed.

Lemma inserts_of_generate_summary text :
  yields_each_once as_completed ->
  inserts_of (trace (generate_summary backend pool_fault as_completed text)) = [].
Proof.
  intros Hperm.
  destruct (Z.lt_ge_cases (len (clean_text_for_llm text DEFAULT_MAX_CHARS)) 3000)
    as [Hshort|Hlong].
  - rewrite generate_summary_short by exact Hshort. by rewrite single_run.
  - destruct (trace_generate_summary_long backend pool_fault as_completed text
                Hperm Hlong) as (calls & -> & _).
    match goal with |- context [inserts_of (EvChunks ?c :: ?t)] =>
      change (inserts_of (EvChunks c :: t)) with (inserts_of t)
    end.
    rewrite inserts_of_app, inserts_of_events, trace_merge.
    by destruct (join_items 0 _).
Qed.

Lemma stores_bind_silent {X Y} uid file_id (m : M X) (f : X -> M Y) :
  inserts_of (trace m) = [] ->
  (forall x, stores_at_most_one uid file_id (inserts_of (trace (f x)))) ->
  stores_at_most_one uid file_id (inserts_of (trace (m ≫= f))).
Proof.
  intros Hm Hf. rewrite trace_bind, inserts_of_app, Hm.
  destruct (outcome m); [by left | apply Hf].
Qed.

Lemma stores_summarize_and_save uid file_id text :
  yields_each_once as_completed ->
  stores_at_most_one uid file_id
    (inserts_of (trace (summarize_and_save backend pool_fault as_completed
                          firestore_set supabase_insert uid file_id text))).
Proof.
  intros Hperm. unfold summarize_and_save.
  apply stores_bind_silent; [by apply inserts_of_generate_summary|].
  intros v. rewrite trace_bind, trace_checked_summary. cbn [app].
  destruct (outcome (checked_summary v)) as [e|summary] eqn:Hcheck;
    [by left|].
  apply checked_summary_returned in Hcheck as (_ & Hblank & _).
  right. exists summary. split; [done|].
  rewrite !trace_bind, insert_summary_run, update_status_run.
  cbn [mret M_ret raise trace outcome fst snd].
  by destruct (supabase_insert _).
Qed.

Lemma stores_guarded {X} uid file_id (body : M X) :
  stores_at_most_one uid file_id (inserts_of (trace body)) ->
  stores_at_most_one uid file_id
    (inserts_of (trace (try_except body (report_error firestore_set uid file_id)))).
Proof.
  rewrite trace_try_except, inserts_of_app.
  destruct (outcome body); [|by rewrite app_nil_r].
  rewrite report_error_run. cbn [trace fst]. by rewrite app_nil_r.
Qed.

(** X14.  Whatever the collaborators do, an entry point sends at most
    one row to the table, and never one whose summary is blank. *)
Theorem entry_points_store_at_most_one uid file_id :
  yields_each_once as_completed ->
  (forall text title,
     stores_at_most_one uid file_id
       (inserts_of (trace (run_text uid file_id text title))))
  /\ (forall url,
        stores_at_most_one uid file_id
          (inserts_of (trace (run_url uid file_id url))))
  /\ (forall storage_path file_type,
        stores_at_most_one uid file_id
          (inserts_of (trace (run_file uid file_id storage_path file_type)))).
Proof.
  intros Hperm.
  assert (forall text, stores_at_most_one uid file_id
            (inserts_of (trace (summarize_and_save backend pool_fault as_completed
                                  firestore_set supabase_insert uid file_id text))))
    as Htail by (intros; by apply stores_summarize_and_save).
  assert (forall st progress message,
            inserts_of (trace (update_status firestore_set uid file_id st
                                 progress message)) = []) as Hstatus
    by (intros; by rewrite update_status_run).
  assert (forall (b : bool) (e : exn),
            inserts_of (trace (if b then raise e else mret tt : M unit)) = [])
    as Hcheck by (by intros []).
  split_and!.
  - intros text title. unfold process_text. apply stores_guarded.
    apply stores_bind_silent; [apply Hstatus | intros; apply Htail].
  - intros url. unfold process_url. apply stores_guarded.
    apply stores_bind_silent; [apply Hstatus | intros _].
    apply stores_bind_silent; [done | intros extracted].
    apply stores_bind_silent; [apply Hcheck | intros _].
    apply stores_bind_silent; [apply Hstatus | intros; apply Htail].
  - intros storage_path file_type. unfold process_file. apply stores_guarded.
    apply stores_bind_silent; [apply Hstatus | intros _].
    apply stores_bind_silent; [done | intros file_bytes].
    apply stores_bind_silent; [|intros extracted].
    { pose proof (extract_by_type_silent extract_pdf extract_tika
                    extract_image_ocr extract_audio extract_video file_type
                    file_bytes (file_extension storage_path file_type)) as Hsilent.
      by rewrite Hsilent. }
    apply stores_bind_silent; [apply Hcheck | intros _].
    apply stores_bind_silent; [apply Hstatus | intros; apply Htail].
Qed.

(** X15.  When the backend's answer leaves [generate_summary] with a
    summary that is not generated, a blank string or an object that is
    falsy, [process_text] stores nothing: with a status sink that
    accepts its writes it reports [error] with the message
    ["Failed to generate summary"] and raises that [ValueError]. *)
Theorem process_text_blank_summary uid file_id text title (summary : value) :
  (forall d, firestore_set d = None) ->
  outcome (generate_summary backend pool_fault as_completed text) = inr summary ->
  not_generated summary ->
  run_text uid file_id text title
  = ([EvStatus (summarizing_doc uid file_id)]
     ++ trace (generate_summary backend pool_fault as_completed text)
     ++ [EvStatus (error_doc uid file_id
                     (ValueError (lit "Failed to generate summary")))],
     inl (ValueError (lit "Failed to generate summary"))).
Proof.
  intros Hsink Hgen Hblank.
  assert (checked_summary summary
          = raise (ValueError (lit "Failed to generate summary"))) as Hcheck.
  { unfold checked_summary.
    destruct Hblank as [Hfalsy|(s & -> & Hblank)]; [|by rewrite Hblank].
    destruct summary as [s| |[]|n|[]|[]|[]]; cbn [truthy_value] in *;
      try done.
    - destruct s; [done | discriminate Hfalsy].
    - by rewrite Hfalsy. }
  unfold process_text, summarize_and_save, report_error, update_status.
  destruct (generate_summary backend pool_fault as_completed text)
    as [t [e|s]]; [done|]. injection Hgen as ->.
  unfold try_except, mbind, M_bind, emit, mret, M_ret. cbn [fst snd].
  rewrite ?Hsink. cbn [fst snd]. rewrite Hcheck. unfold raise. cbn [fst snd].
  rewrite ?Hsink. cbn [fst snd trace]. unfold summarizing_doc, error_doc.
  cbn [exn_str]. by rewrite !app_nil_r, <- !app_assoc.
Qed.

(** X16.  When the status sink rejects the first write of
    [process_text], nothing else happens but the attempt to write
    [error]: no request goes to the backend and no row to the table. *)
Theorem process_text_sink_down uid file_id text title e :
  firestore_set (summarizing_doc uid file_id) = Some e ->
  trace (run_text uid file_id text title)
  = [EvStatus (summarizing_doc uid file_id); EvStatus (error_doc uid file_id e)]
  /\ exists e', outcome (run_text uid file_id text title) = inl e'.
Proof.
  intros Hdown. unfold process_text.
  rewrite trace_try_except, outcome_try_except, trace_bind, outcome_bind.
  rewrite update_status_run. fold (summarizing_doc uid file_id).
  rewrite Hdown. cbn [trace outcome fst snd]. rewrite report_error_run.
  cbn [fst snd]. split; [done|]. eauto.
Qed.


End EntryPoints.

(** ** File names and extracted text *)

Section Extraction.

Implicit Types (s l : str) (sep : char).

Lemma split_single sep s l : split sep s = [l] -> s = l.
Proof.
  revert l. induction s as [|c s IH]; intros l; cbn [split].
  - by intros [= <-].
  - pose proof (split_nonempty sep s) as Hne.
    destruct (c =? sep)%N.
    + intros [= <- Hnil]. by rewrite Hnil in Hne.
    + destruct (split sep s) as [|l0 ls]; [done|].
      intros [= <- ->]. by rewrite (IH l0).
Qed.

Lemma last_cons_cons_default {X} (x y : X) (k : list X) (d : X) :
  List.last (x :: y :: k) d = List.last (y :: k) d.
Proof. reflexivity. Qed.

(** A string that holds the separator ends with the separator followed
    by the last piece of its split. *)
Lemma split_last sep s :
  sep ∈ s -> exists stem, s = stem ++ sep :: List.last (split sep s) [].
Proof.
  induction s as [|c s IH]; [by intros ?%elem_of_nil|].
  intros Hin. cbn [split].
  pose proof (split_nonempty sep s) as Hne.
  pose proof (split_no_sep sep s) as Hall.
  destruct (N.eqb_spec c sep) as [->|Hc].
  - destruct (decide (sep ∈ s)) as [Hs|Hs].
    + destruct (IH Hs) as [stem Hstem]. exists (sep :: stem).
      destruct (split sep s) as [|l0 ls]; [done|].
      rewrite last_cons_cons_default.
      by rewrite <- app_comm_cons, <- Hstem.
    + exists []. by rewrite (split_without_sep sep s Hs).
  - apply elem_of_cons in Hin as [->|Hs]; [done|].
    destruct (IH Hs) as [stem Hstem].
    destruct (split sep s) as [|l0 [|l1 ls]] eqn:E; [done | |].
    + apply split_single in E as ->.
      apply (proj1 (Forall_singleton _ _)) in Hall. by destruct Hall.
    + exists (c :: stem). rewrite last_cons_cons_default in Hstem |- *.
      by rewrite <- app_comm_cons, <- Hstem.
Qed.

Lemma last_default_Forall {X} (P : X -> Prop) (k : list X) (d : X) :
  k <> [] -> Forall P k -> P (List.last k d).
Proof.
  induction k as [|x [|y k] IH]; [done | |].
  - intros _ Hall. by apply (proj1 (Forall_singleton _ _)) in Hall.
  - intros _ Hall. rewrite last_cons_cons_default.
    apply IH; [done|]. by inversion Hall.
Qed.

(** X18.  For a storage path that holds a dot, the extension
    [process_file] hands to the extractors is what follows the last dot:
    the path is a stem, a dot and the extension, and the extension holds
    no dot.  For a path without a dot it is the file type. *)
Theorem file_extension_last_dot (storage_path file_type : str) :
  (DOT ∈ storage_path ->
     (DOT ∉ file_extension storage_path file_type)
     /\ exists stem,
          storage_path = stem ++ [DOT] ++ file_extension storage_path file_type)
  /\ (DOT ∉ storage_path -> file_extension storage_path file_type = file_type).
Proof.
  unfold file_extension. split; intros Hdot.
  - rewrite bool_decide_eq_true_2 by done. split.
    + apply (last_default_Forall (fun l => DOT ∉ l));
        [apply split_nonempty | apply split_no_sep].
    + by apply split_last.
  - by rewrite bool_decide_eq_false_2.
Qed.

(** X19.  [extract_pdf] returns blank text exactly when every page is
    blank, and then it returns the empty string; otherwise every page
    that is not blank occurs verbatim in what it returns. *)
Theorem extract_pdf_blank_pages fitz_open file_bytes pages text :
  fitz_open file_bytes = inr pages ->
  Extractors.extract_pdf fitz_open file_bytes = inr text ->
  (Forall (fun page => strip page = []) pages -> text = [])
  /\ (forall page, page ∈ pages -> strip page <> [] ->
        contains page text /\ blank text = false).
Proof.
  intros Hopen. unfold Extractors.extract_pdf. rewrite Hopen. intros [= <-].
  split.
  - intros Hall.
    assert (filter (fun page_text : str => truthy (strip page_text) = true) pages = [])
      as ->; [|done].
    apply elem_of_nil_inv. intros page [Htruthy Hpage]%list_elem_of_filter.
    rewrite Forall_forall in Hall. by rewrite (Hall page Hpage) in Htruthy.
  - intros page Hpage Hne.
    assert (page ∈ filter (fun page_text : str => truthy (strip page_text) = true) pages)
      as Hkept.
    { apply list_elem_of_filter. split; [|done]. by destruct (strip page). }
    pose proof (join_contains [NL; NL] _ page Hkept) as Hin.
    split; [done|]. apply blank_false_iff. intros Hblank.
    apply strip_nil_spaces in Hblank.
    destruct Hin as (pre & post & Heq). rewrite Heq in Hblank.
    apply Forall_app in Hblank as [_ Hblank].
    apply Forall_app in Hblank as [Hblank _].
    by apply strip_spaces in Hblank.
Qed.

End Extraction.

(** ** Instances of the further properties *)

Lemma summarize_chunk_sync_bullet_witness :
  ([BULLET; SPACE] ++ lit "[Chunk 1 processing failed: Connection refused]" = []
   \/ head (strip ([BULLET; SPACE]
                   ++ lit "[Chunk 1 processing failed: Connection refused]"))
      = Some BULLET)
  /\ falsy_non_string VNone
  /\ null_backend (chunk_request (lit "x")) = Response (Some VNone).
Proof.
  split.
  - apply (summarize_chunk_sync_bullet failing_backend (lit "x") 0
             (VStr ([BULLET; SPACE]
                    ++ lit "[Chunk 1 processing failed: Connection refused]"))).
    reflexivity.
  - apply (summarize_chunk_sync_bullet null_backend (lit "x") 0 VNone).
    reflexivity.
Defined.

Lemma generate_summary_requests_witness :
  exists calls,
    calls ≡ₚ chunk_request
             <$> chunk_text (clean_text_for_llm longer_text DEFAULT_MAX_CHARS)
    /\ last (trace (generate_summary stub_backend no_fault last_first longer_text))
       = Some (EvBackend
                 (merge_request
                    (join [NL] (replicate 5 ([BULLET; SPACE] ++ lit "stub"))))).
Proof.
  destruct (generate_summary_requests stub_backend no_fault last_first longer_text)
    as (calls & Hcalls & _ & Htrace & _).
  - apply last_first_yields_each_once.
  - intros i. reflexivity.
  - vm_compute. congruence.
  - exists calls. split; [exact Hcalls|].
    rewrite (Htrace (replicate 5 ([BULLET; SPACE] ++ lit "stub")))
      by (vm_compute; reflexivity).
    rewrite app_comm_cons. apply last_snoc.
Defined.

Lemma generate_summary_request_bound_witness :
  (length (requests_of (trace (generate_summary stub_backend fault_at_0 last_first
                                 longer_text))) <= 8)%nat.
Proof.
  apply (generate_summary_request_bound stub_backend fault_at_0 last_first
           longer_text).
  apply last_first_yields_each_once.
Defined.

Lemma entry_points_report_errors_witness :
  last (trace (process_text failing_backend no_fault last_first accept accept
                 (lit "uid") (lit "doc") (lit "Hello.") (lit "title")))
  = Some (EvStatus
            (error_doc (lit "uid") (lit "doc")
               (ValueError (lit "Summary generation failed: Connection refused")))).
Proof.
  destruct (entry_points_report_errors failing_backend no_fault last_first
              accept accept stub_download stub_extract stub_extract_ext
              stub_extract stub_extract_ext stub_extract_ext stub_extract_url
              (lit "uid") (lit "doc")
              (ValueError (lit "Summary generation failed: Connection refused")))
    as (Htext & _).
  - intros d. reflexivity.
  - apply Htext. vm_compute. reflexivity.
Defined.

Lemma entry_points_complete_after_insert_witness :
  exists prefix summary,
    blank summary = false
    /\ trace (process_url stub_backend no_fault last_first accept accept
                stub_extract_url (lit "uid") (lit "doc") (lit "https://example.org"))
       = prefix ++ [EvInsert {| document_id := lit "doc"; firebase_uid := lit "uid";
                                summary_text := summary; version := 1 |};
                    EvStatus (complete_doc (lit "uid") (lit "doc"))].
Proof.
  destruct (entry_points_complete_after_insert stub_backend no_fault last_first
              accept accept stub_download stub_extract stub_extract_ext
              stub_extract stub_extract_ext stub_extract_ext stub_extract_url
              (lit "uid") (lit "doc")) as (_ & Hurl & _).
  apply Hurl. vm_compute. reflexivity.
Defined.

Lemma entry_points_store_at_most_one_witness :
  stores_at_most_one (lit "uid") (lit "doc")
    (inserts_of
       (trace (process_file stub_backend no_fault last_first accept accept
                 stub_download stub_extract stub_extract_ext stub_extract
                 stub_extract_ext stub_extract_ext (lit "uid") (lit "doc")
                 (lit "notes.pdf") (lit "pdf")))).
Proof.
  destruct (entry_points_store_at_most_one stub_backend no_fault last_first
              accept accept stub_download stub_extract stub_extract_ext
              stub_extract stub_extract_ext stub_extract_ext stub_extract_url
              (lit "uid") (lit "doc") last_first_yields_each_once)
    as (_ & _ & Hfile).
  apply Hfile.
Defined.

Lemma process_text_blank_summary_witness :
  outcome (process_text empty_backend no_fault last_first accept accept
             (lit "uid") (lit "doc") (lit "Hello.") (lit "title"))
  = inl (ValueError (lit "Failed to generate summary")).
Proof.
  rewrite (process_text_blank_summary empty_backend no_fault last_first accept
             accept (lit "uid") (lit "doc") (lit "Hello.") (lit "title")
             (VStr [])).
  - reflexivity.
  - intros d. reflexivity.
  - vm_compute. reflexivity.
  - left. reflexivity.
Defined.

Lemma process_text_sink_down_witness :
  trace (process_text stub_backend no_fault last_first reject accept
           (lit "uid") (lit "doc") (lit "Hello.") (lit "title"))
  = [EvStatus (summarizing_doc (lit "uid") (lit "doc"));
     EvStatus (error_doc (lit "uid") (lit "doc") (OtherError (lit "unavailable")))].
Proof.
  apply (process_text_sink_down stub_backend no_fault last_first reject accept
           (lit "uid") (lit "doc") (lit "Hello.") (lit "title")
           (OtherError (lit "unavailable"))).
  reflexivity.
Defined.


Lemma file_extension_last_dot_witness :
  (exists stem, lit "uploads/v1.2/notes.final.pdf" = stem ++ [DOT] ++ lit "pdf")
  /\ file_extension (lit "uploads/notes") (lit "pdf") = lit "pdf".
Proof.
  split.
  - destruct (proj1 (file_extension_last_dot (lit "uploads/v1.2/notes.final.pdf")
                       (lit "docx"))) as [_ [stem Hstem]].
    + vm_compute. do 10 right. left.
    + exists stem. exact Hstem.
  - apply (file_extension_last_dot (lit "uploads/notes") (lit "pdf")).
    intros Hin. vm_compute in Hin.
    repeat (apply elem_of_cons in Hin as [Hin|Hin]; [discriminate Hin|]).
    by apply elem_of_nil in Hin.
Defined.

Lemma extract_pdf_blank_pages_witness :
  contains (lit "Page three.")
    (lit "Page one." ++ [NL; NL] ++ lit "Page three.")
  /\ blank (lit "Page one." ++ [NL; NL] ++ lit "Page three.") = false.
Proof.
  apply (extract_pdf_blank_pages stub_fitz_open []
           [lit "Page one."; lit "  "; lit "Page three."]
           (lit "Page one." ++ [NL; NL] ++ lit "Page three.")).
  - reflexivity.
  - reflexivity.
  - do 2 right. left.
  - vm_compute. congruence.
Defined.

(** ** Rules for stateful runs *)

Section StRules.

Lemma st_bind_run {W X Y} (m : St W X) (f : X -> St W Y) (u : W) :
  (m ≫= f) u
  = match m u with
    | (w', inl e) => (w', inl e)
    | (w', inr a) => f a w'
    end.
Proof. reflexivity. Qed.

(** The rule of sequence: what [m] establishes when it returns is what
    [f] starts from, and what it establishes when it raises is final. *)
Lemma st_spec_bind {W X Y} (P : W -> Prop) (R : W -> exn + X -> Prop)
    (Q : W -> exn + Y -> Prop) (m : St W X) (f : X -> St W Y) :
  st_spec P m R ->
  (forall u e, R u (inl e) -> Q u (inl e)) ->
  (forall x, st_spec (fun u => R u (inr x)) (f x) Q) ->
  st_spec P (m ≫= f) Q.
Proof.
  intros Hm Hraise Hf u Hw. rewrite st_bind_run. specialize (Hm u Hw).
  destruct (m u) as [u' [e|x]]; cbn [fst snd] in *.
  - by apply Hraise.
  - by apply Hf.
Qed.

Lemma st_spec_try_except {W X} (P : W -> Prop) (R Q : W -> exn + X -> Prop)
    (body : St W X) (handler : exn -> St W X) :
  st_spec P body R ->
  (forall u x, R u (inr x) -> Q u (inr x)) ->
  (forall e, st_spec (fun u => R u (inl e)) (handler e) Q) ->
  st_spec P (st_try_except body handler) Q.
Proof.
  intros Hbody Hret Hh u Hw. unfold st_try_except. specialize (Hbody u Hw).
  destruct (body u) as [u' [e|x]]; cbn [fst snd] in *.
  - by apply Hh.
  - by apply Hret.
Qed.

Lemma st_spec_weaken {W X} (P P' : W -> Prop) (Q Q' : W -> exn + X -> Prop)
    (m : St W X) :
  st_spec P' m Q' -> (forall u, P u -> P' u) ->
  (forall u r, Q' u r -> Q u r) -> st_spec P m Q.
Proof. intros Hm HP HQ u Hw. apply HQ, Hm, HP, Hw. Qed.

Lemma st_spec_at {W X} (P : W -> Prop) (m : St W X)
    (Q : W -> exn + X -> Prop) (u : W) :
  st_spec P m Q -> P u -> Q (m u).1 (m u).2.
Proof. intros Hm. apply Hm. Qed.

Lemma st_spec_try_finally {W X} (P : W -> Prop) (R Q : W -> exn + X -> Prop)
    (body : St W X) (final : St W unit) :
  st_spec P body R ->
  (forall r, st_spec (fun u => R u r) final
               (fun u' r' => r' = inr tt /\ Q u' r)) ->
  st_spec P (st_try_finally body final) Q.
Proof.
  intros Hbody Hfinal u Hu. unfold st_try_finally. specialize (Hbody u Hu).
  destruct (body u) as [u' r]; cbn [fst snd] in *.
  specialize (Hfinal r u' Hbody).
  destruct (final u') as [u'' [e|[]]]; cbn [fst snd] in *;
    by destruct Hfinal as [? ?].
Qed.

End StRules.

(** ** The Tika server and [extract_tika] *)

Section TikaFacts.

Import TikaServer.

Variable fetch : fetch_result.
Variable http_get : nat -> exn + Z.
Variable popen : exn + nat.
Variable http_put : nat -> list N -> str -> exn + str.
Variable lower : str -> str.

Implicit Types (w : world).

Ltac st_run :=
  unfold record, count_request, set_running, set_process, set_jar_on_disk;
  unfold mbind, St_bind, mret, St_ret, st_get, st_modify, st_raise,
    st_try_except;
  cbn [fst snd].

Ltac tika_simpl :=
  unfold tika_off, tika_started_or_failed in *;
  cbn [server running process jar_on_disk requests_sent log fst snd] in *.

(** One probe counts one request and changes nothing else. *)
Lemma get_tika_spec jar k :
  st_spec (tika_off jar k) (get_tika http_get)
    (fun w0 _ => tika_off jar (S k) w0).
Proof.
  intros w Hw. unfold get_tika. st_run. tika_simpl.
  destruct Hw as (Hoff & Hjar & Hk).
  destruct (http_get (requests_sent w)); tika_simpl;
    (split_and!; [done | done | lia]).
Qed.

(** One attempt to reach the server: [true] with the server marked as
    running, [false] with nothing changed but the request count (and,
    in the loop, a sleep). *)
Lemma attempt_spec jar k (on_error : St world bool) :
  (st_spec (tika_off jar (S k)) on_error
     (fun w0 r => r = inr false /\ tika_off jar (S k) w0)) ->
  st_spec (tika_off jar k)
    (st_try_except
       (status_code ← get_tika http_get;
        if status_code =? 200
        then _ ← set_running true; mret true
        else mret false)
       (fun _ => on_error))
    (fun w0 r =>
       (r = inr true /\ tika_started_or_failed jar (S k) w0 (inr tt))
       \/ (r = inr false /\ tika_off jar (S k) w0)).
Proof.
  intros Herr.
  apply (st_spec_try_except _
           (fun w0 r =>
              tika_off jar (S k) w0 /\ (exists e, r = inl e)
              \/ (r = inr true /\ tika_started_or_failed jar (S k) w0 (inr tt))
              \/ (r = inr false /\ tika_off jar (S k) w0))).
  - eapply st_spec_bind; [apply get_tika_spec | |].
    + intros w0 e Hoff. left. eauto.
    + intros status_code w0 Hoff.
      destruct (status_code =? 200); st_run; right; [left | by right].
      split; [done|]. tika_simpl. destruct Hoff as (Hoff & Hjar & Hk).
      split; [by left | done].
  - intros w0 x [[_ [e [=]]]|H]; done.
  - intros e w0 Hw. assert (tika_off jar (S k) w0) as Hoff.
    { destruct Hw as [[? _]|[[[=] _]|[[=] _]]]. done. }
    right. by apply Herr.
Qed.

Lemma wait_for_server_spec jar n :
  forall k,
    st_spec (tika_off jar k) (wait_for_server http_get n)
      (tika_started_or_failed jar (k + n)).
Proof.
  induction n as [|n IH]; intros k.
  - intros w Hw. cbn [wait_for_server]. st_run. tika_simpl.
    destruct Hw as (Hoff & Hjar & Hk).
    split; [right; split; [eauto | done] | lia].
  - cbn [wait_for_server].
    eapply st_spec_bind; [apply (attempt_spec jar k) | |].
    + intros w Hw. st_run. tika_simpl. by split.
    + intros w e [[[=] _]|[[=] _]].
    + intros [] w Hw.
      * destruct Hw as [[_ Hw]|[[=] _]]. st_run. tika_simpl.
        destruct Hw as [Hout Hk]. split; [done | lia].
      * destruct Hw as [[[=] _]|[_ Hoff]].
        pose proof (IH (S k) w Hoff) as Hw. tika_simpl.
        destruct Hw as [Hout Hk]. split; [done | lia].
Qed.

(** [download_tika] returns with the file on disk, or raises; it touches
    neither the server object nor the request count. *)
Lemma download_tika_spec k :
  st_spec (tika_off false k) (download_tika fetch)
    (fun w0 r => (r = inr tt /\ tika_off true k w0)
                 \/ ((exists e, r = inl e) /\ tika_off false k w0)).
Proof.
  intros w (Hoff & _ & Hk). unfold download_tika. st_run.
  destruct (jar_on_disk w) eqn:Hjar; [left; by tika_simpl|].
  destruct fetch as [|e []]; tika_simpl; [left | right; split; [eauto|] ..];
    by split_and!.
Qed.

Lemma start_server_off_spec k :
  st_spec (tika_off false k) (start_server fetch http_get popen)
    (tika_started_or_failed true (k + 31)).
Proof.
  intros w Hw. unfold start_server. rewrite st_bind_run. unfold st_get.
  rewrite (proj1 Hw). cbv iota.
  apply (st_spec_at (tika_off false k) _
           (tika_started_or_failed true (k + 31))); [clear w Hw|done].
  eapply st_spec_bind; [apply download_tika_spec | |].
  { intros w e [[[=] _]|[_ (Hoff & _ & Hk)]]. tika_simpl.
    split; [right; eauto | lia]. }
  intros [] w [[_ Hw]|[[e [=]] _]].
  apply (st_spec_at (tika_off true k) _
           (tika_started_or_failed true (k + 31))); [clear w Hw|done].
  eapply st_spec_bind; [apply (attempt_spec true k) | |].
  { intros w Hw. st_run. by split. }
  { intros w e [[[=] _]|[[=] _]]. }
  intros [] w Hw.
  { destruct Hw as [[_ Hw]|[[=] _]]. st_run. tika_simpl.
    destruct Hw as [Hout Hk]. split; [done | lia]. }
  destruct Hw as [[[=] _]|[_ Hw]].
  apply (st_spec_at (tika_off true (S k)) _
           (tika_started_or_failed true (k + 31))); [clear w Hw|done].
  eapply st_spec_bind with
    (R := fun w0 r => (exists e, r = inl e) /\ tika_off true (S k) w0
                      \/ (r = inr tt /\ tika_off true (S k) w0)).
  { intros w (Hoff & Hjar & Hk). st_run. tika_simpl. right. by split_and!. }
  { intros w e [[_ (Hoff & _ & Hk)]|[[=] _]]. tika_simpl.
    split; [right; eauto | lia]. }
  intros [] w [[[e [=]] _]|[_ Hw]].
  apply (st_spec_at (tika_off true (S k)) _
           (tika_started_or_failed true (k + 31))); [clear w Hw|done].
  eapply st_spec_bind with
    (R := fun w0 r => (exists e, r = inl e) /\ tika_off true (S k) w0
                      \/ (r = inr tt /\ tika_off true (S k) w0)).
  { intros w (Hoff & Hjar & Hk).
    destruct popen; st_run; tika_simpl;
      [left; split; [eauto|] | right]; by split_and!. }
  { intros w e [[_ (Hoff & _ & Hk)]|[[=] _]]. tika_simpl.
    split; [right; eauto | lia]. }
  intros [] w [[[e [=]] _]|[_ Hw]].
  pose proof (wait_for_server_spec true 30 (S k) w Hw) as Hout.
  tika_simpl. destruct Hout as [Hout Hk']. split; [done | lia].
Qed.

(** X20.  Called on a server that is not marked as running,
    [start_server] returns exactly when it leaves the server marked as
    running, and then the JAR file is on disk; when it raises, the server
    is still marked as not running.  Either way it has sent at most 31
    requests to the server. *)
Theorem start_server_spec w :
  running (server w) = false ->
  tika_started_or_failed true (requests_sent w + 31)
    (start_server fetch http_get popen w).1
    (start_server fetch http_get popen w).2.
Proof.
  intros Hoff. by apply (start_server_off_spec (requests_sent w) w).
Qed.

(** [extract_text] as one step after the start: the [PUT] is logged and
    counted, and its failure becomes the empty text. *)
Lemma extract_text_run file_bytes content_type w :
  extract_text fetch http_get popen http_put file_bytes content_type w
  = match (if running (server w) then (w, inr tt)
           else start_server fetch http_get popen w) with
    | (w1, inl e) => (w1, inl e)
    | (w1, inr _) =>
        ({| server := server w1; jar_on_disk := jar_on_disk w1;
            requests_sent := S (requests_sent w1);
            log := log w1 ++ [Put content_type] |},
         inr match http_put (requests_sent w1) file_bytes content_type with
             | inl _ => []
             | inr text => strip text
             end)
    end.
Proof.
  unfold extract_text. st_run. destruct (running (server w)).
  - by destruct (http_put _ _ _).
  - destruct (start_server fetch http_get popen w) as [w1 [e|[]]]; [done|].
    by destruct (http_put _ _ _).
Qed.

Lemma extract_text_outcome file_bytes content_type w :
  let run := extract_text fetch http_get popen http_put file_bytes content_type w in
  match run.2 with
  | inl e =>
      running (server w) = false
      /\ (start_server fetch http_get popen w).2 = inl e
  | inr text =>
      running (server run.1) = true
      /\ (text = []
          \/ exists k response,
               http_put k file_bytes content_type = inr response
               /\ text = strip response)
  end.
Proof.
  cbv zeta. rewrite extract_text_run.
  destruct (running (server w)) eqn:Hrun.
  - cbn [fst snd server]. split; [done|].
    destruct (http_put _ _ _) as [e|response] eqn:Hput; [by left | right; eauto].
  - pose proof (start_server_spec w Hrun) as Hstart.
    destruct (start_server fetch http_get popen w) as [w1 [e|[]]];
      cbn [fst snd server] in *; [done|].
    destruct Hstart as [[(_ & Hrun1 & _)|[[e [=]] _]] _]. split; [done|].
    destruct (http_put _ _ _) as [e|response] eqn:Hput; [by left | right; eauto].
Qed.

(** The clean-up of [extract_tika] is the line normalizer. *)
Lemma extract_tika_run file_bytes file_ext w :
  Tika.extract_tika fetch http_get popen http_put lower file_bytes file_ext w
  = let run := extract_text fetch http_get popen http_put file_bytes
                 (default (lit "application/octet-stream")
                    (Tika.mime_types !! lower file_ext)) w in
    (run.1, inr match run.2 with
                | inl _ => []
                | inr content => collapse content
                end).
Proof.
  unfold Tika.extract_tika. cbv zeta. st_run.
  destruct (extract_text _ _ _ _ _ _ _) as [w1 [e|content]]; cbn [fst snd];
    [done|].
  unfold collapse, collapse_lines. by destruct content.
Qed.

(** X21.  [extract_tika] never raises.  The text it returns has no blank
    lines; when it is not empty the server is marked as running and the
    text is the normalized answer of a [PUT] that carried the bytes with
    the content type of the extension. *)
Theorem extract_tika_never_raises file_bytes file_ext w :
  exists text,
    (Tika.extract_tika fetch http_get popen http_put lower
       file_bytes file_ext w).2 = inr text
    /\ no_blank_lines text
    /\ (text <> [] ->
        running (server (Tika.extract_tika fetch http_get popen http_put lower
                           file_bytes file_ext w).1) = true
        /\ exists k response,
             http_put k file_bytes
               (default (lit "application/octet-stream")
                  (Tika.mime_types !! lower file_ext)) = inr response
             /\ text = collapse (strip response)).
Proof.
  rewrite extract_tika_run. cbv zeta. cbn [fst snd].
  pose proof (extract_text_outcome file_bytes
                (default (lit "application/octet-stream")
                   (Tika.mime_types !! lower file_ext)) w) as Hout.
  cbv zeta in Hout.
  destruct (extract_text _ _ _ _ _ _ _) as [w1 [e|content]];
    cbn [fst snd] in *.
  - exists []. split_and!; [done | by left | done].
  - exists (collapse content).
    split_and!; [done | apply collapse_no_blank_lines|].
    intros Hne. destruct Hout as [Hrun [->|(k & response & Hput & ->)]].
    + by vm_compute in Hne.
    + split; [done|]. by exists k, response.
Qed.

(** When the server cannot be started, [extract_tika] turns the
    exception into the empty text. *)
Lemma extract_tika_start_failure file_bytes file_ext w e :
  running (server w) = false ->
  (start_server fetch http_get popen w).2 = inl e ->
  (Tika.extract_tika fetch http_get popen http_put lower
     file_bytes file_ext w).2 = inr [].
Proof.
  intros Hrun Hstart. rewrite extract_tika_run. cbv zeta. cbn [snd].
  rewrite extract_text_run, Hrun.
  destruct (start_server fetch http_get popen w) as [w1 [e'|[]]];
    cbn [fst snd] in *; by simplify_eq.
Qed.

(** While every probe is answered with a status other than 200, the
    loop goes on without a pause. *)
Lemma wait_for_server_unready n :
  (forall k, exists status_code, http_get k = inr status_code /\ status_code <> 200) ->
  forall w,
    wait_for_server http_get n w
    = ({| server := server w; jar_on_disk := jar_on_disk w;
          requests_sent := (requests_sent w + n)%nat;
          log := log w ++ replicate n Probe |},
       inl (OtherError (lit "Tika server failed to start"))).
Proof.
  intros Hget. induction n as [|n IH]; intros [srv jar k l].
  - cbn [wait_for_server replicate]. st_run. tika_simpl.
    by rewrite Nat.add_0_r, app_nil_r.
  - cbn [wait_for_server]. rewrite st_bind_run.
    unfold st_try_except, get_tika. st_run. tika_simpl.
    destruct (Hget k) as (status_code & -> & Hstatus).
    apply Z.eqb_neq in Hstatus. rewrite Hstatus. cbn [fst snd].
    rewrite IH. tika_simpl. rewrite Nat.add_succ_r. cbn [replicate].
    by rewrite <- app_assoc.
Qed.

(** X23.  A server that answers every probe with a status other than
    200 is probed 31 times in a row, without a pause between the
    probes; [start_server] then raises, the new process is kept and the
    server is left marked as not running. *)
Theorem start_server_polls_without_pause w h :
  running (server w) = false ->
  jar_on_disk w = true ->
  popen = inr h ->
  (forall k, exists status_code, http_get k = inr status_code /\ status_code <> 200) ->
  start_server fetch http_get popen w
  = ({| server := {| running := false; process := Some h |};
        jar_on_disk := true;
        requests_sent := (requests_sent w + 31)%nat;
        log := log w ++ Probe :: Spawn :: replicate 30 Probe |},
     inl (OtherError (lit "Tika server failed to start"))).
Proof.
  intros Hrun Hjar Hpopen Hget. destruct w as [[run proc] jar k l].
  cbn [server running jar_on_disk requests_sent log] in *. subst run jar.
  unfold start_server, download_tika, get_tika. rewrite Hpopen.
  unfold st_try_except. st_run. tika_simpl.
  destruct (Hget k) as (status_code & -> & Hstatus).
  apply Z.eqb_neq in Hstatus. rewrite Hstatus. cbn [fst snd].
  rewrite (wait_for_server_unready 30 Hget). tika_simpl.
  rewrite <- !app_assoc.
  by replace (S k + 30)%nat with (k + 31)%nat by lia.
Qed.

End TikaFacts.

Section TikaPipeline.

Import TikaServer.

Variable backend : request -> reply.
Variable pool_fault : nat -> option exn.
Variable as_completed : list (M value * nat) -> list (M value * nat).
Variable firestore_set : status_doc -> option exn.
Variable supabase_insert : summary_row -> option exn.
Variable download_from_storage : str -> exn + list N.
Variable extract_pdf : list N -> exn + str.
Variable extract_image_ocr : list N -> exn + str.
Variable extract_audio : list N -> str -> exn + str.
Variable extract_video : list N -> str -> exn + str.

Variable fetch : fetch_result.
Variable http_get : nat -> exn + Z.
Variable popen : exn + nat.
Variable http_put : nat -> list N -> str -> exn + str.
Variable lower : str -> str.

(** X22.  A DOCX or PPTX file whose Tika server cannot be started is
    reported as a file without text: the exception of the start is
    neither raised nor written to the status document. *)
Theorem process_file_tika_start_failure uid file_id storage_path file_type
    file_bytes w e :
  (forall d, firestore_set d = None) ->
  download_from_storage storage_path = inr file_bytes ->
  file_type = lit "docx" \/ file_type = lit "pptx" ->
  running (server w) = false ->
  (start_server fetch http_get popen w).2 = inl e ->
  process_file backend pool_fault as_completed firestore_set supabase_insert
    download_from_storage extract_pdf
    (fun file_bytes file_ext =>
       (Tika.extract_tika fetch http_get popen http_put lower
          file_bytes file_ext w).2)
    extract_image_ocr extract_audio extract_video
    uid file_id storage_path file_type
  = ([EvStatus {| sd_firebase_uid := uid; sd_file_id := file_id;
                  sd_status := Extracting; sd_progress := 40;
                  sd_message := lit "Extracting text from " ++ file_type ++ lit "..." |};
      EvStatus {| sd_firebase_uid := uid; sd_file_id := file_id;
                  sd_status := Error; sd_progress := 0;
                  sd_message := lit "No text could be extracted from file" |}],
     inl (ValueError (lit "No text could be extracted from file"))).
Proof.
  intros Hsink Hdl Htype Hrun Hstart.
  apply (process_file_guards_blank _ _ _ _ _ _ _ _ _ _ _ Hsink _ _ _ _
           file_bytes []); [done | | done].
  unfold extract_by_type, call, outcome.
  rewrite (extract_tika_start_failure _ _ _ _ _ _ _ _ e Hrun Hstart).
  by destruct Htype as [-> | ->].
Qed.

End TikaPipeline.

(** ** The audio and video extractors *)

Ltac media_run :=
  unfold Media.extract_audio, Media.extract_video, Media.named_temporary_file,
    Media.get_whisper_model, Media.unlink, Media.exists_, st_try_finally;
  unfold Media.record, Media.set_files, Media.set_whisper_model,
    Media.count_temp_file;
  unfold mbind, St_bind, mret, St_ret, st_get, st_modify, st_raise;
  cbn [fst snd Media.files Media.whisper_model Media.temp_files Media.log].

Ltac media_step :=
  cbn [fst snd Media.files Media.whisper_model Media.temp_files Media.log].

Ltac files_solver :=
  try (apply set_eq; intros ?);
  repeat (rewrite elem_of_difference in * || rewrite elem_of_union in *
          || rewrite elem_of_singleton in *);
  intuition congruence.

Section MediaFiles.

Import Media.

Implicit Types (w : world).

(** [if os.path.exists(path): os.unlink(path)] leaves no file at the
    path and does not raise. *)
Lemma remove_if_exists path w :
  (present ← exists_ path; if present : bool then unlink path else mret tt) w
  = ({| files := files w ∖ {[path]}; whisper_model := whisper_model w;
        temp_files := temp_files w; log := log w |}, inr tt).
Proof.
  destruct w as [fs model n l]. media_run.
  repeat (case_bool_decide; media_step); try done;
    do 2 f_equal; files_solver.
Qed.

Lemma remove_if_exists_then {X} path (rest : St world X) w :
  (present ← exists_ path;
   _ ← (if present : bool then unlink path else mret tt);
   rest) w
  = rest {| files := files w ∖ {[path]}; whisper_model := whisper_model w;
               temp_files := temp_files w; log := log w |}.
Proof.
  destruct w as [fs model n l]. media_run.
  repeat (case_bool_decide; media_step); try done;
    match goal with |- rest ?u = rest ?u' => replace u with u'; [done|] end;
    f_equal; files_solver.
Qed.

(** Replacing a suffix that starts with the only dot of the string. *)
Lemma startswith_refl (s : list N) : startswith s s = true.
Proof. induction s as [|c s IH]; [done|]. cbn. by rewrite N.eqb_refl. Qed.

Lemma replace_from_nil fuel (old new : list N) :
  replace_from fuel [] old new = [].
Proof. by destruct fuel. Qed.

Lemma replace_from_suffix (stem ext new : list N) :
  DOT ∉ stem ->
  forall fuel, (length stem < fuel)%nat ->
    replace_from fuel (stem ++ DOT :: ext) (DOT :: ext) new = stem ++ new.
Proof.
  intros Hdot. induction stem as [|c stem IH]; intros [|fuel] Hfuel;
    cbn [length] in Hfuel; try lia.
  - cbn [app replace_from]. rewrite startswith_refl, drop_all.
    by rewrite replace_from_nil, app_nil_r.
  - apply not_elem_of_cons in Hdot as [Hc Hdot].
    change ((c :: stem) ++ DOT :: ext) with (c :: (stem ++ DOT :: ext)).
    cbn [replace_from startswith].
    replace (DOT =? c)%N with false by (symmetry; by apply N.eqb_neq).
    cbn [andb app]. f_equal. apply IH; [done | lia].
Qed.

Lemma replace_suffix (stem ext new : list N) :
  DOT ∉ stem -> replace (stem ++ DOT :: ext) (DOT :: ext) new = stem ++ new.
Proof.
  intros Hdot. unfold replace. apply replace_from_suffix; [done|].
  rewrite length_app. cbn [length]. lia.
Qed.

End MediaFiles.

Section TempFiles.

Import Media.

Variable temp_stem : nat -> str.
Variable create : str -> option exn.
Variable write : list N -> option exn.

Lemma named_temporary_file_run suffix file_bytes w :
  create (temp_stem (temp_files w) ++ suffix) = None ->
  named_temporary_file temp_stem create write suffix file_bytes w
  = ({| files := {[temp_stem (temp_files w) ++ suffix]} ∪ files w;
        whisper_model := whisper_model w;
        temp_files := S (temp_files w);
        log := log w |},
     match write file_bytes with
     | Some e => inl e
     | None => inr (temp_stem (temp_files w) ++ suffix)
     end).
Proof. intros Hcreate. media_run. rewrite Hcreate. by destruct (write file_bytes). Qed.

(** A temporary file that cannot be created leaves nothing on disk. *)
Lemma named_temporary_file_refused suffix file_bytes w e :
  create (temp_stem (temp_files w) ++ suffix) = Some e ->
  named_temporary_file temp_stem create write suffix file_bytes w
  = ({| files := files w; whisper_model := whisper_model w;
        temp_files := S (temp_files w); log := log w |},
     inl e).
Proof. intros Hcreate. media_run. by rewrite Hcreate. Qed.

End TempFiles.

Section AudioFacts.

Import Media.

Variable temp_stem : nat -> str.
Variable create : str -> option exn.
Variable write : list N -> option exn.
Variable load_model : exn + nat.
Variable transcribe : nat -> str -> exn + str.

Local Abbreviation temp_path w file_ext :=
  (temp_stem (temp_files w) ++ DOT :: file_ext).

(** X24.  [extract_audio] leaves no temporary file behind once the bytes
    were written, whether the model loads or not and whether the
    transcription returns or raises; the text it returns is the
    transcription of the temporary file.  When the write raises, the
    temporary file stays; when the file cannot be created, nothing is
    left on disk and the exception is raised. *)
Theorem extract_audio_temp_file file_bytes file_ext w :
  temp_path w file_ext ∉ files w ->
  match create (temp_path w file_ext), write file_bytes with
  | None, None =>
      files (extract_audio temp_stem create write load_model transcribe
               file_bytes file_ext w).1 = files w
      /\ forall text,
           (extract_audio temp_stem create write load_model transcribe
              file_bytes file_ext w).2 = inr text ->
           exists model, transcribe model (temp_path w file_ext) = inr text
  | None, Some e =>
      extract_audio temp_stem create write load_model transcribe
        file_bytes file_ext w
      = ({| files := {[temp_path w file_ext]} ∪ files w;
            whisper_model := whisper_model w;
            temp_files := S (temp_files w);
            log := log w |},
         inl e)
  | Some e, _ =>
      extract_audio temp_stem create write load_model transcribe
        file_bytes file_ext w
      = ({| files := files w; whisper_model := whisper_model w;
            temp_files := S (temp_files w); log := log w |},
         inl e)
  end.
Proof.
  intros Hfresh. media_run.
  destruct (create (temp_path w file_ext)) as [e|]; [done|].
  destruct (write file_bytes) as [e|]; [done|].
  set (tmp_path := temp_path w file_ext) in *.
  destruct (whisper_model w) as [model|]; [|destruct load_model as [e|model]];
    media_step;
    try (destruct (transcribe model tmp_path) as [e'|text'] eqn:Htext;
         media_step);
    (case_bool_decide as Hleft; [|files_solver]);
    media_step; (split; [files_solver|]); intros text [=]; subst; eauto.
Qed.

End AudioFacts.

Section VideoFacts.

Import Media.

Variable temp_stem : nat -> str.
Variable create : str -> option exn.
Variable write : list N -> option exn.
Variable load_model : exn + nat.
Variable transcribe : nat -> str -> exn + str.
Variable run_ffmpeg : str -> str -> ffmpeg_result.

Local Abbreviation temp_path w file_ext :=
  (temp_stem (temp_files w) ++ DOT :: file_ext).
Local Abbreviation wav_path w file_ext :=
  (replace (temp_path w file_ext) (DOT :: file_ext) (lit ".wav")).

(** What [extract_video] leaves once the bytes were written. *)
Lemma extract_video_written file_bytes file_ext w :
  create (temp_path w file_ext) = None ->
  write file_bytes = None ->
  temp_path w file_ext ∉ files w ->
  files (extract_video temp_stem create write load_model transcribe run_ffmpeg
           file_bytes file_ext w).1
  = files w ∖ {[wav_path w file_ext]}
  /\ forall text,
       (extract_video temp_stem create write load_model transcribe run_ffmpeg
          file_bytes file_ext w).2 = inr text ->
       run_ffmpeg (temp_path w file_ext) (wav_path w file_ext) = Converted
       /\ exists model, transcribe model (wav_path w file_ext) = inr text.
Proof.
  intros Hcreate Hwrite Hfresh. unfold extract_video.
  rewrite st_bind_run, named_temporary_file_run, Hwrite by done.
  set (audio_path := wav_path w file_ext) in *.
  set (video_path := temp_path w file_ext) in *.
  apply (st_spec_at
           (fun u => files u = {[video_path]} ∪ files w) _
           (fun u r =>
              files u = files w ∖ {[audio_path]}
              /\ forall text, r = inr text ->
                   run_ffmpeg video_path audio_path = Converted
                   /\ exists model, transcribe model audio_path = inr text));
    [|done].
  apply st_spec_try_finally with
    (R := fun u r =>
            (files u = {[video_path]} ∪ files w
             \/ files u = {[audio_path]} ∪ ({[video_path]} ∪ files w))
            /\ forall text, r = inr text ->
                 run_ffmpeg video_path audio_path = Converted
                 /\ exists model, transcribe model audio_path = inr text).
  - intros u Hfiles. media_run. rewrite Hfiles.
    destruct (run_ffmpeg video_path audio_path) as [|e []] eqn:Hffmpeg;
      media_step;
      [|split; [by right | intros ? [=]]|split; [by left | intros ? [=]]].
    destruct (whisper_model u) as [model|];
      [|destruct load_model as [e|model]]; media_step;
      try (destruct (transcribe model audio_path) as [e'|text'] eqn:Htext;
           media_step);
      (split; [by right|]); intros text [=]; subst; eauto.
  - intros r u [Hfiles Hr]. rewrite remove_if_exists_then, remove_if_exists.
    media_step. split; [done|]. split; [|done]. clear Hr.
    destruct (decide (audio_path = video_path)) as [Heq|Hne];
      destruct Hfiles as [Hfiles|Hfiles]; rewrite Hfiles; files_solver.
Qed.

(** X25.  Once the bytes were written, [extract_video] leaves neither
    the video file nor a file at the audio path, whatever FFmpeg and
    Whisper do: a file that was at the audio path before is gone.  The
    text it returns is the transcription of the audio path after a
    successful FFmpeg run. *)
Theorem extract_video_temp_files file_bytes file_ext w :
  create (temp_path w file_ext) = None ->
  write file_bytes = None ->
  temp_path w file_ext ∉ files w ->
  files (extract_video temp_stem create write load_model transcribe run_ffmpeg
           file_bytes file_ext w).1
  = files w ∖ {[wav_path w file_ext]}
  /\ (wav_path w file_ext
      ∉ files (extract_video temp_stem create write load_model transcribe run_ffmpeg
                 file_bytes file_ext w).1)
  /\ forall text,
       (extract_video temp_stem create write load_model transcribe run_ffmpeg
          file_bytes file_ext w).2 = inr text ->
       run_ffmpeg (temp_path w file_ext) (wav_path w file_ext) = Converted
       /\ exists model, transcribe model (wav_path w file_ext) = inr text.
Proof.
  intros Hcreate Hwrite Hfresh.
  destruct (extract_video_written file_bytes file_ext w Hcreate Hwrite Hfresh)
    as [Hfiles Htext].
  split_and!; [done | | done]. rewrite Hfiles. files_solver.
Qed.

(** X26.  When the name of the temporary file holds no dot before the
    suffix, the audio path is that name with [.wav] in place of the
    suffix; if no file was there, [extract_video] leaves the files as
    they were. *)
Theorem extract_video_audio_path file_bytes file_ext w :
  DOT ∉ temp_stem (temp_files w) ->
  create (temp_path w file_ext) = None ->
  write file_bytes = None ->
  temp_path w file_ext ∉ files w ->
  temp_stem (temp_files w) ++ lit ".wav" ∉ files w ->
  wav_path w file_ext = temp_stem (temp_files w) ++ lit ".wav"
  /\ files (extract_video temp_stem create write load_model transcribe run_ffmpeg
              file_bytes file_ext w).1 = files w
  /\ forall text,
       (extract_video temp_stem create write load_model transcribe run_ffmpeg
          file_bytes file_ext w).2 = inr text ->
       run_ffmpeg (temp_path w file_ext)
         (temp_stem (temp_files w) ++ lit ".wav") = Converted.
Proof.
  intros Hdot Hcreate Hwrite Hfresh Hwav.
  destruct (extract_video_written file_bytes file_ext w Hcreate Hwrite Hfresh)
    as [Hfiles Htext].
  assert (wav_path w file_ext = temp_stem (temp_files w) ++ lit ".wav")
    as Hpath by by apply replace_suffix.
  rewrite Hpath in *. split_and!; [done | | ].
  - rewrite Hfiles. files_solver.
  - intros text Hrun. by destruct (Htext text Hrun).
Qed.

End VideoFacts.

(** ** Instances of the properties of the Tika server *)

Lemma start_server_spec_witness :
  tika_started_or_failed true (0 + 31)
    (TikaServer.start_server TikaServer.Fetched refusing_get (inr 1%nat)
       tika_fresh).1
    (TikaServer.start_server TikaServer.Fetched refusing_get (inr 1%nat)
       tika_fresh).2.
Proof.
  apply (start_server_spec TikaServer.Fetched refusing_get (inr 1%nat)
           tika_fresh).
  reflexivity.
Defined.

Lemma start_server_polls_without_pause_witness :
  TikaServer.log
    (TikaServer.start_server TikaServer.Fetched unready_get (inr 1%nat)
       (TikaServer.set_jar_on_disk tika_fresh).1).1
  = TikaServer.Probe :: TikaServer.Spawn :: replicate 30 TikaServer.Probe.
Proof.
  rewrite (start_server_polls_without_pause TikaServer.Fetched unready_get
             (inr 1%nat) (TikaServer.set_jar_on_disk tika_fresh).1 1%nat).
  - reflexivity.
  - reflexivity.
  - reflexivity.
  - reflexivity.
  - intros k. exists 503. split; [reflexivity | discriminate].
Defined.

Lemma process_file_tika_start_failure_witness :
  outcome (process_file stub_backend no_fault last_first accept accept
             stub_download stub_extract
             (fun file_bytes file_ext =>
                (Tika.extract_tika TikaServer.Fetched refusing_get no_java
                   stub_put stub_lower file_bytes file_ext tika_fresh).2)
             stub_extract stub_extract_ext stub_extract_ext
             (lit "uid") (lit "doc") (lit "slides.pptx") (lit "pptx"))
  = inl (ValueError (lit "No text could be extracted from file")).
Proof.
  rewrite (process_file_tika_start_failure stub_backend no_fault last_first
             accept accept stub_download stub_extract stub_extract
             stub_extract_ext stub_extract_ext TikaServer.Fetched refusing_get
             no_java stub_put stub_lower (lit "uid") (lit "doc")
             (lit "slides.pptx") (lit "pptx") [] tika_fresh
             (OtherError (lit "java: not found"))).
  - reflexivity.
  - intros d. reflexivity.
  - reflexivity.
  - right. reflexivity.
  - reflexivity.
  - reflexivity.
Defined.

(** ** Instances of the properties of the audio and video extractors *)

Lemma extract_audio_temp_file_witness :
  Media.files
    (Media.extract_audio stub_temp_stem stub_create stub_write stub_load_model
       stub_transcribe [] (lit "mp3") media_fresh).1 = ∅.
Proof.
  apply (extract_audio_temp_file stub_temp_stem stub_create stub_write
           stub_load_model stub_transcribe [] (lit "mp3") media_fresh).
  apply not_elem_of_empty.
Defined.

Lemma extract_video_temp_files_witness :
  Media.files
    (Media.extract_video stub_temp_stem stub_create stub_write stub_load_model
       stub_transcribe failing_ffmpeg [] (lit "mp4") media_fresh).1
  = ∅ ∖ {[replace (lit "/tmp/tmp0.mp4") (lit ".mp4") (lit ".wav")]}.
Proof.
  apply (extract_video_temp_files stub_temp_stem stub_create stub_write
           stub_load_model stub_transcribe failing_ffmpeg [] (lit "mp4")
           media_fresh).
  - reflexivity.
  - reflexivity.
  - apply not_elem_of_empty.
Defined.

Lemma extract_video_audio_path_witness :
  replace (lit "/tmp/tmp0.mp4") (lit ".mp4") (lit ".wav") = lit "/tmp/tmp0.wav"
  /\ Media.files
       (Media.extract_video stub_temp_stem stub_create stub_write stub_load_model
          stub_transcribe stub_ffmpeg [] (lit "mp4") media_fresh).1 = ∅.
Proof.
  destruct (extract_video_audio_path stub_temp_stem stub_create stub_write
              stub_load_model stub_transcribe stub_ffmpeg [] (lit "mp4")
              media_fresh)
    as (Hpath & Hfiles & _).
  - apply (bool_decide_unpack _). vm_compute. exact I.
  - reflexivity.
  - reflexivity.
  - apply not_elem_of_empty.
  - apply not_elem_of_empty.
  - split; [exact Hpath | exact Hfiles].
Defined.
